(** * Amazon transactions to CSV: a shallow embedding of
    [amazon-transactions-to-csv.js] and its verified properties.

    JavaScript strings are sequences of UTF-16 code units; they are modelled
    as lists of numbers.  The regular expressions of the script are kept as
    syntax trees and run by a backtracking matcher with the priority order of
    the ECMAScript matcher (greedy quantifiers, ordered alternation, leftmost
    match).  The document, the network and the HTML parser are collaborators
    of the script: they appear as the data they return. *)

From Stdlib Require Import String Ascii Decimal.
From stdpp Require Import base list gmap.

Set Default Proof Using "Type".
(* stdpp's solvers clear hypotheses that are sometimes gone already. *)
Set Warnings "-clear-no-such-hyp".
Local Open Scope nat_scope.

(** ** JavaScript strings *)

Module JS.

Abbreviation char := N.
Abbreviation jsstring := (list char).

(** A literal of the script, written as a Rocq string (ASCII only). *)
Fixpoint js (s : string) : jsstring :=
  match s with
  | EmptyString => []
  | String a s' => N_of_ascii a :: js s'
  end.

Definition in_range (lo hi c : char) : bool := ((lo <=? c) && (c <=? hi))%N.

(** [\d] is [0-9] only. *)
Definition is_digit (c : char) : bool := in_range 48%N 57%N c.

(** [A-Za-z]. *)
Definition is_alpha (c : char) : bool := in_range 65%N 90%N c || in_range 97%N 122%N c.

(** [\s] and the characters removed by [trim]: WhiteSpace and
    LineTerminator of ECMAScript. *)
Definition is_space (c : char) : bool :=
  in_range 9%N 13%N c || (c =? 32)%N || (c =? 160)%N || (c =? 5760)%N
  || in_range 8192%N 8202%N c || (c =? 8232)%N || (c =? 8233)%N
  || (c =? 8239)%N || (c =? 8287)%N || (c =? 12288)%N || (c =? 65279)%N.

Definition SP : char := 32%N.
Definition QUOTE : char := 34%N.
Definition COMMA : char := 44%N.
Definition LF : char := 10%N.
Definition DOT : char := 46%N.

(** Truthiness of a string: [Boolean(s)], [!s] negated. *)
Definition truthy (s : jsstring) : bool :=
  match s with [] => false | _ :: _ => true end.

(** [s.replace(/\s+/g, ' ')]: every maximal run of white space becomes one
    space.  [in_run] tells that the previous code unit was white space. *)
Fixpoint replace_spaces (in_run : bool) (s : jsstring) : jsstring :=
  match s with
  | [] => []
  | c :: s' =>
      if is_space c
      then (if in_run then replace_spaces true s' else SP :: replace_spaces true s')
      else c :: replace_spaces false s'
  end.

Fixpoint trimStart (s : jsstring) : jsstring :=
  match s with
  | [] => []
  | c :: s' => if is_space c then trimStart s' else s
  end.

Definition trimEnd (s : jsstring) : jsstring := rev (trimStart (rev s)).

Definition trim (s : jsstring) : jsstring := trimEnd (trimStart s).

(** [s.replace(/c/g, by)] for a one-character pattern. *)
Fixpoint replace_char (c : char) (by_ : jsstring) (s : jsstring) : jsstring :=
  match s with
  | [] => []
  | x :: s' => (if (x =? c)%N then by_ else [x]) ++ replace_char c by_ s'
  end.

(** [parts.join(sep)]. *)
Fixpoint join (sep : jsstring) (parts : list jsstring) : jsstring :=
  match parts with
  | [] => []
  | [p] => p
  | p :: ps => p ++ sep ++ join sep ps
  end.

(** [s.padStart(n, c)] for a one-character filler. *)
Definition padStart (n : nat) (c : char) (s : jsstring) : jsstring :=
  replicate (n - length s) c ++ s.

(** [String(n)] for a natural number: its decimal digits. *)
Fixpoint uint_digits (u : Decimal.uint) : jsstring :=
  match u with
  | Nil => []
  | D0 u' => 48%N :: uint_digits u'
  | D1 u' => 49%N :: uint_digits u'
  | D2 u' => 50%N :: uint_digits u'
  | D3 u' => 51%N :: uint_digits u'
  | D4 u' => 52%N :: uint_digits u'
  | D5 u' => 53%N :: uint_digits u'
  | D6 u' => 54%N :: uint_digits u'
  | D7 u' => 55%N :: uint_digits u'
  | D8 u' => 56%N :: uint_digits u'
  | D9 u' => 57%N :: uint_digits u'
  end.

Definition String_of_nat (n : nat) : jsstring := uint_digits (Nat.to_uint n).

(** [Number(s)] for a string of decimal digits. *)
Definition Number_of_digits (s : jsstring) : nat :=
  fold_left (fun acc c => 10 * acc + N.to_nat (c - 48%N)) s 0.

(** [[...new Set(xs)]]: the distinct elements in first-occurrence order. *)
Fixpoint uniq_from {A} `{EqDecision A} (seen : list A) (xs : list A) : list A :=
  match xs with
  | [] => []
  | x :: xs' =>
      if decide (x ∈ seen) then uniq_from seen xs'
      else x :: uniq_from (x :: seen) xs'
  end.

Definition uniq {A} `{EqDecision A} (xs : list A) : list A := uniq_from [] xs.

End JS.
Export JS.

(** ** Regular expressions

    The patterns of the script as syntax, and the backtracking matcher of
    ECMAScript as the list of all ways to match, most preferred first.  The
    match the engine reports is the head of that list. *)

Module Regex.

Inductive regex :=
| Empty                              (* the empty pattern *)
| Class (p : char -> bool)           (* one code unit of a class *)
| Cat (r1 r2 : regex)                (* r1 r2 *)
| Or (r1 r2 : regex)                 (* r1|r2, the left one preferred *)
| Star (r : regex)                   (* r*, greedy *)
| Capture (i : nat) (r : regex)      (* the i-th capturing group *)
| Bol                                (* ^ *)
| Eol.                               (* $ *)

(** [r?], [r+], [r{1,2}], [r{2}], [r{3}], [r{4}], all greedy. *)
Definition Opt (r : regex) : regex := Or r Empty.
Definition Plus (r : regex) : regex := Cat r (Star r).
Definition Rep2 (r : regex) : regex := Cat r r.
Definition Rep3 (r : regex) : regex := Cat r (Cat r r).
Definition Rep4 (r : regex) : regex := Cat r (Cat r (Cat r r)).
Definition Rep1to2 (r : regex) : regex := Cat r (Opt r).

(** A literal character. *)
Definition Chr (c : char) : regex := Class (fun x => (x =? c)%N).

(** An ASCII letter under the [i] flag: either case.  Canonicalize never
    maps a code unit above 127 to one below, so no other unit matches. *)
Definition upper (c : char) : char :=
  if in_range 97%N 122%N c then (c - 32)%N else c.
Definition ChrI (c : char) : regex := Class (fun x => (upper x =? upper c)%N).

(** A literal word under the [i] flag. *)
Fixpoint WordI (w : jsstring) : regex :=
  match w with
  | [] => Empty
  | c :: w' => Cat (ChrI c) (WordI w')
  end.

(** The state of a match: what is left of the input, and the groups
    captured so far ([match[i]] is entry [i]; entry 0 is not used). *)
Record mstate := MState { rest : jsstring; caps : list (option jsstring) }.

(** The iterations of a greedy star: one more iteration is preferred to
    stopping, and an iteration that consumes nothing is rejected. *)
Fixpoint star_loop (step : mstate -> list mstate) (fuel : nat) (st : mstate)
  : list mstate :=
  match fuel with
  | 0 => [st]
  | S fuel' =>
      (st1 ← filter (fun st1 => length (rest st1) < length (rest st)) (step st);
       star_loop step fuel' st1) ++ [st]
  end.

(** [run n r st]: the states after matching [r] from [st], in the order the
    backtracking matcher tries them; [n] is the length of the whole input. *)
Fixpoint run (n : nat) (r : regex) (st : mstate) : list mstate :=
  match r with
  | Empty => [st]
  | Class p =>
      match rest st with
      | c :: s' => if p c then [MState s' (caps st)] else []
      | [] => []
      end
  | Cat r1 r2 => st1 ← run n r1 st; run n r2 st1
  | Or r1 r2 => run n r1 st ++ run n r2 st
  | Star r1 => star_loop (run n r1) (length (rest st)) st
  | Capture i r1 =>
      (fun st' =>
         MState (rest st')
           (<[i := Some (take (length (rest st) - length (rest st')) (rest st))]>
              (caps st')))
      <$> run n r1 st
  | Bol => if bool_decide (length (rest st) = n) then [st] else []
  | Eol => match rest st with [] => [st] | _ :: _ => [] end
  end.

(** Try the pattern at every start position, leftmost first. *)
Fixpoint search (n groups : nat) (r : regex) (s : jsstring) : option mstate :=
  match run n r (MState s (replicate (S groups) None)) with
  | st :: _ => Some st
  | [] =>
      match s with
      | [] => None
      | _ :: s' => search n groups r s'
      end
  end.

(** [text.match(r)] for a pattern without the [g] flag: the captured
    groups of the leftmost match, or [None] for [null]. *)
Definition exec (groups : nat) (r : regex) (text : jsstring)
  : option (list (option jsstring)) :=
  caps <$> search (length text) groups r text.

(** [r.test(text)]. *)
Definition test (r : regex) (text : jsstring) : bool :=
  bool_decide (is_Some (exec 0 r text)).

(** [match[i] || ''] and [match[i]] for a group that took part. *)
Definition group (i : nat) (m : list (option jsstring)) : jsstring :=
  match m !! i with
  | Some (Some s) => s
  | _ => []
  end.

Infix "~>" := Cat (at level 60, right associativity).

End Regex.
Export Regex.

(** ** The script *)

Definition MAX_TRANSACTIONS : nat := 200.
Definition STALL_LIMIT : nat := 8.

(** The object literal [MONTHS].  No property inherited from
    [Object.prototype] has a three-letter name, so a lookup with a key
    outside the table is [undefined]. *)
Definition MONTHS : gmap jsstring jsstring :=
  list_to_map
    [ (js "Jan", js "01"); (js "Feb", js "02"); (js "Mar", js "03");
      (js "Apr", js "04"); (js "May", js "05"); (js "Jun", js "06");
      (js "Jul", js "07"); (js "Aug", js "08"); (js "Sep", js "09");
      (js "Oct", js "10"); (js "Nov", js "11"); (js "Dec", js "12") ].

Definition digit : regex := Class is_digit.
Definition space : regex := Class is_space.
Definition is_sign (c : char) : bool := (c =? 43)%N || (c =? 45)%N.
Definition is_currency_symbol (c : char) : bool :=
  (c =? 36)%N || (c =? 163)%N || (c =? 8364)%N.
Definition is_digit_or_comma (c : char) : bool := is_digit c || (c =? COMMA)%N.
Definition is_order_char (c : char) : bool :=
  is_alpha c || is_digit c || (c =? 45)%N.

(** [(?:[$£€]|USD|GBP|EUR)] under the [i] flag. *)
Definition currency : regex :=
  Or (Class is_currency_symbol)
     (Or (WordI (js "USD")) (Or (WordI (js "GBP")) (WordI (js "EUR")))).

(** [\d[\d,]*(?:\.\d{2})?] *)
Definition number : regex :=
  digit ~> Star (Class is_digit_or_comma) ~> Opt (Chr DOT ~> Rep2 digit).

(** [AMOUNT_REGEX = /[+-]?\s*(?:[$£€]|USD|GBP|EUR)\s*\d[\d,]*(?:\.\d{2})?/i] *)
Definition AMOUNT_REGEX : regex :=
  Opt (Class is_sign) ~> Star space ~> currency ~> Star space ~> number.

(** [normalizeSpace(value)]: [(value || '').replace(/\s+/g, ' ').trim()]. *)
Definition normalizeSpace (value : jsstring) : jsstring :=
  trim (replace_spaces false value).

(** [/^(\d{1,2})\s+([A-Za-z]{3})\s+(\d{4})$/] *)
Definition DATE_REGEX : regex :=
  Bol ~> Capture 1 (Rep1to2 digit) ~> Plus space
      ~> Capture 2 (Rep3 (Class is_alpha)) ~> Plus space
      ~> Capture 3 (Rep4 digit) ~> Eol.

Definition parseDateToISO (raw : jsstring) : jsstring :=
  let text := normalizeSpace raw in
  match exec 3 DATE_REGEX text with
  | None => []
  | Some match_ =>
      let day := padStart 2 48%N (String_of_nat (Number_of_digits (group 1 match_))) in
      let month := MONTHS !! group 2 match_ in
      let year := group 3 match_ in
      match month with
      | Some month => if truthy month then year ++ js "-" ++ month ++ js "-" ++ day else []
      | None => []
      end
  end.

(** The test of [csvEscape]: the string holds a double quote, a comma or a
    line feed. *)
Definition needs_quoting (str : jsstring) : bool :=
  existsb (fun c => (c =? QUOTE)%N || (c =? COMMA)%N || (c =? LF)%N) str.

Definition csvEscape (str : jsstring) : jsstring :=
  if needs_quoting str
  then [QUOTE] ++ replace_char QUOTE [QUOTE; QUOTE] str ++ [QUOTE]
  else str.

(** A transaction record. *)
Record Tx := mkTx {
  date : jsstring;
  cardDetails : jsstring;
  orderNumber : jsstring;
  totalAmount : jsstring;
  products : list jsstring
}.

(** [productValues[i] || ''] *)
Definition item_or_empty (productValues : list jsstring) (i : nat) : jsstring :=
  match productValues !! i with
  | Some p => if truthy p then p else []
  | None => []
  end.

(** [Array.from({ length: n }, (_, i) => f i)] *)
Definition Array_from {A} (n : nat) (f : nat -> A) : list A := f <$> seq 0 n.

Definition maxProducts (rows : list Tx) : nat :=
  fold_left (fun max row => Nat.max max (length (products row))) rows 0.

Definition productHeaders (rows : list Tx) : list jsstring :=
  Array_from (maxProducts rows) (fun i => js "product_" ++ String_of_nat (i + 1)).

Definition header (rows : list Tx) : list jsstring :=
  [js "date"; js "card_details"; js "order_number"; js "total_amount"]
    ++ productHeaders rows.

Definition paddedProducts (rows : list Tx) (row : Tx) : list jsstring :=
  Array_from (maxProducts rows) (item_or_empty (products row)).

(** The fields of one row, before escaping. *)
Definition rowFields (rows : list Tx) (row : Tx) : list jsstring :=
  [date row; cardDetails row; orderNumber row; totalAmount row]
    ++ paddedProducts rows row.

Definition csvLines (rows : list Tx) : list jsstring :=
  [join [COMMA] (header rows)]
    ++ ((fun row => join [COMMA] (csvEscape <$> rowFields rows row)) <$> rows).

Definition buildCsv (rows : list Tx) : jsstring := join [LF] (csvLines rows).

(** [/([+-]?)\s*(?:[$£€]|USD|GBP|EUR)?\s*(\d[\d,]*(?:\.\d{2})?)/i] *)
Definition AMOUNT_VALUE_REGEX : regex :=
  Capture 1 (Opt (Class is_sign)) ~> Star space ~> Opt currency ~> Star space
    ~> Capture 2 number.

Definition parseAmountValue (rawText : jsstring) : jsstring :=
  let text := normalizeSpace rawText in
  match exec 2 AMOUNT_VALUE_REGEX text with
  | None => []
  | Some match_ =>
      let sign := group 1 match_ in
      let value := replace_char COMMA [] (group 2 match_) in
      sign ++ value
  end.

(** *** The record extractor

    The row of one transaction link, as the extractor sees it: the text of
    the elements its queries return. *)
Record Element := mkElement {
  (* textContent of the first span or div with data-testid "text", if any *)
  firstText : option jsstring;
  (* textContent of the elements with data-testid method-details-name,
     -prefix and -number, if they exist *)
  methodDetailsName : option jsstring;
  methodDetailsPrefix : option jsstring;
  methodDetailsNumber : option jsstring;
  (* textContent of every element with data-testid "text", span and div of
     the row, in document order *)
  textElements : list jsstring
}.

Definition HASH : char := 35%N.
Definition PIPE : char := 124%N.

(** [/Order\s*#/i] *)
Definition ORDER_MARK_REGEX : regex :=
  WordI (js "Order") ~> Star space ~> Chr HASH.

(** [/Order\s*#\s*([A-Za-z0-9-]+)/i] *)
Definition ORDER_REGEX : regex :=
  WordI (js "Order") ~> Star space ~> Chr HASH ~> Star space
    ~> Capture 1 (Plus (Class is_order_char)).

Definition extractTransaction (row : Element) : option Tx :=
  let date := parseDateToISO (default [] (firstText row)) in
  let cardName := normalizeSpace (default [] (methodDetailsName row)) in
  let cardPrefix := normalizeSpace (default [] (methodDetailsPrefix row)) in
  let cardNumber := normalizeSpace (default [] (methodDetailsNumber row)) in
  let cardDetails := cardName ++ cardPrefix ++ cardNumber in
  let orderTextEl := List.find (test ORDER_MARK_REGEX) (textElements row) in
  let orderText := normalizeSpace (default [] orderTextEl) in
  let orderNumber :=
    match exec 1 ORDER_REGEX orderText with
    | Some orderMatch => group 1 orderMatch
    | None => []
    end in
  let amountEl :=
    List.find (fun t => test AMOUNT_REGEX (normalizeSpace t)) (textElements row) in
  let amountRaw := normalizeSpace (default [] amountEl) in
  let totalAmount := parseAmountValue amountRaw in
  if negb (truthy date) && negb (truthy orderNumber)
     && negb (truthy totalAmount) && negb (truthy cardDetails)
  then None
  else Some (mkTx date cardDetails orderNumber totalAmount []).

(** *** The scroll-driven collector *)

(** The key of the seen-set: the four fields joined with a bar. *)
Definition txKey (tx : Tx) : jsstring :=
  date tx ++ [PIPE] ++ cardDetails tx ++ [PIPE] ++ orderNumber tx
    ++ [PIPE] ++ totalAmount tx.

(** The document is not under the collector's control: [doc i] is the list
    of transaction links that the query of the [i]-th iteration returns
    (after [i] scroll commands and waits). *)
Definition Document := nat -> list Element.

(** The variables of [collectTransactions]; [polls] counts the iterations
    started and is not a variable of the script. *)
Record Collector := mkCollector {
  records : list Tx;
  seen : gset jsstring;
  stallCount : nat;
  lastCount : nat;
  polls : nat
}.

(** The [for] loop over the links of one query. *)
Fixpoint scanLinks (maxTransactions : nat) (links : list Element)
    (records : list Tx) (seen : gset jsstring) : list Tx * gset jsstring :=
  match links with
  | [] => (records, seen)
  | link :: links' =>
      match extractTransaction link with
      | None => scanLinks maxTransactions links' records seen
      | Some tx =>
          let key := txKey tx in
          if decide (key ∈ seen) then scanLinks maxTransactions links' records seen
          else
            let seen' := {[key]} ∪ seen in
            let records' := records ++ [tx] in
            if maxTransactions <=? length records' then (records', seen')
            else scanLinks maxTransactions links' records' seen'
      end
  end.

(** The body of the [while] loop up to the test that leaves it. *)
Definition iteration (maxTransactions : nat) (links : list Element)
    (st : Collector) : Collector :=
  let '(records', seen') :=
    scanLinks maxTransactions links (records st) (seen st) in
  if decide (length records' = lastCount st)
  then mkCollector records' seen' (stallCount st + 1) (lastCount st) (S (polls st))
  else mkCollector records' seen' 0 (length records') (S (polls st)).

(** The [while] loop.  [None] stands for a loop still running when the
    fuel is spent. *)
Fixpoint collectLoop (fuel maxTransactions : nat) (doc : Document)
    (st : Collector) : option Collector :=
  if (length (records st) <? maxTransactions) && (stallCount st <? STALL_LIMIT)
  then
    match fuel with
    | 0 => None
    | S fuel' =>
        let st' := iteration maxTransactions (doc (polls st)) st in
        if (maxTransactions <=? length (records st'))
           || (STALL_LIMIT <=? stallCount st')
        then Some st'
        else collectLoop fuel' maxTransactions doc st'
    end
  else Some st.

Definition initialCollector : Collector := mkCollector [] ∅ 0 0 0.

(** Every iteration adds a record or counts a stall, so this many
    iterations are enough for any document. *)
Definition collectFuel (maxTransactions : nat) : nat :=
  STALL_LIMIT * S maxTransactions.

(** The state in which the loop stops. *)
Definition collectRun (maxTransactions : nat) (doc : Document)
  : option Collector :=
  collectLoop (collectFuel maxTransactions) maxTransactions doc initialCollector.

Definition collectTransactions (maxTransactions : nat) (doc : Document)
  : option (list Tx) :=
  st ← collectRun maxTransactions doc;
  Some (take maxTransactions (records st)).

(** The two ways the loop stops. *)
Inductive Terminal := Complete | Stalled.

Definition terminal (maxTransactions : nat) (st : Collector) : option Terminal :=
  if maxTransactions <=? length (records st) then Some Complete
  else if STALL_LIMIT <=? stallCount st then Some Stalled
  else None.

(** *** The order detail enricher

    An [async] function is a computation over the effects it has had so
    far; it returns a value or throws (a rejected promise). *)

Inductive result (A : Type) :=
| Value (a : A)
| Thrown.
Arguments Value {A} a.
Arguments Thrown {A}.

Definition Async (S A : Type) : Type := S -> result A * S.

#[export] Instance async_ret {S} : MRet (Async S) :=
  fun A a s => (Value a, s).

#[export] Instance async_bind {S} : MBind (Async S) :=
  fun A B f m s =>
    match m s with
    | (Value a, s') => f a s'
    | (Thrown, s') => (Thrown, s')
    end.

(** [try { body } catch (error) { handler }] *)
Definition try_catch {S A} (body handler : Async S A) : Async S A :=
  fun s =>
    match body s with
    | (Value a, s') => (Value a, s')
    | (Thrown, s') => handler s'
    end.

(** What [fetch(url, ...)] does: the promise rejects, or resolves to a
    response with its [ok] flag and a body that [response.text()] yields
    ([None] when reading the body rejects). *)
Inductive FetchOutcome :=
| NetworkError
| Response (ok : bool) (text : option jsstring).

(** The order page as [parseProductsFromOrderHtml] queries it: the
    textContent of the links under an itemTitle component, and of the
    links whose href contains /dp/, each in document order. *)
Record OrderPage := mkOrderPage {
  itemTitleLinks : list jsstring;
  productLinks : list jsstring
}.

(** The collaborators of the enricher.  [network] answers a request in the
    state the remote side is in; [parseFromString] is [None] when parsing
    throws. *)
Record Browser (World : Type) := mkBrowser {
  origin : jsstring;
  encodeURIComponent : jsstring -> jsstring;
  network : jsstring -> World -> FetchOutcome * World;
  parseFromString : jsstring -> option OrderPage
}.
Arguments mkBrowser {World} _ _ _ _.
Arguments origin {World} _.
Arguments encodeURIComponent {World} _ _.
Arguments network {World} _ _ _.
Arguments parseFromString {World} _ _.

(** The effects of a run of the enricher: the state of the remote side,
    the requests issued, the order numbers logged with [console.error] and
    the calls of [onProgress], each oldest first. *)
Record Effects (World : Type) := mkEffects {
  world : World;
  requests : list jsstring;
  errors : list jsstring;
  progress : list (nat * nat)
}.
Arguments mkEffects {World} _ _ _ _.
Arguments world {World} _.
Arguments requests {World} _.
Arguments errors {World} _.
Arguments progress {World} _.

Section Enricher.
Context {World : Type} (browser : Browser World).

Definition getOrderDetailsUrl (orderNumber : jsstring) : jsstring :=
  origin browser ++ js "/your-orders/order-details?orderID="
    ++ encodeURIComponent browser orderNumber.

Definition parseProductsFromOrderHtml (htmlText : jsstring)
  : result (list jsstring) :=
  match parseFromString browser htmlText with
  | None => Thrown
  | Some doc =>
      let primary :=
        List.filter truthy (normalizeSpace <$> itemTitleLinks doc) in
      if negb (length primary =? 0) then Value (uniq primary)
      else
        let fallback :=
          List.filter (fun text => 2 <? length text)
                      (normalizeSpace <$> productLinks doc) in
        Value (uniq fallback)
  end.

(** A synchronous call inside an [async] function. *)
Definition call {A} (r : result A) : Async (Effects World) A := fun e => (r, e).

(** [await fetch(url, { method: 'GET', credentials: 'include' })] *)
Definition fetch (url : jsstring) : Async (Effects World) (bool * option jsstring) :=
  fun e =>
    let '(outcome, w) := network browser url (world e) in
    let e' := mkEffects w (requests e ++ [url]) (errors e) (progress e) in
    match outcome with
    | NetworkError => (Thrown, e')
    | Response ok text => (Value (ok, text), e')
    end.

(** [await response.text()] *)
Definition response_text (response : bool * option jsstring)
  : Async (Effects World) jsstring :=
  fun e =>
    match snd response with
    | Some html => (Value html, e)
    | None => (Thrown, e)
    end.

Definition fetchOrderProducts (orderNumber : jsstring)
  : Async (Effects World) (list jsstring) :=
  if negb (truthy orderNumber) then mret []
  else
    let url := getOrderDetailsUrl orderNumber in
    response ← fetch url;
    if negb (fst response) then mret []
    else
      html ← response_text response;
      call (parseProductsFromOrderHtml html).

Definition console_error (orderNumber : jsstring) : Async (Effects World) () :=
  fun e =>
    (Value (), mkEffects (world e) (requests e) (errors e ++ [orderNumber]) (progress e)).

Definition onProgress (done total : nat) : Async (Effects World) () :=
  fun e =>
    (Value (), mkEffects (world e) (requests e) (errors e) (progress e ++ [(done, total)])).

(** [rows.map((row) => row.orderNumber).filter(Boolean)] without repeats *)
Definition uniqueOrders (rows : list Tx) : list jsstring :=
  uniq (List.filter truthy (orderNumber <$> rows)).

(** The [for] loop over [uniqueOrders]; the wait after each key has no
    effect on the data. *)
Fixpoint enrichLoop (orders : list jsstring) (total : nat)
    (cache : gmap jsstring (list jsstring)) (done : nat)
  : Async (Effects World) (gmap jsstring (list jsstring)) :=
  match orders with
  | [] => mret cache
  | orderNumber :: orders' =>
      cache' ← try_catch
                 (products ← fetchOrderProducts orderNumber;
                  mret (<[orderNumber := products]> cache))
                 (console_error orderNumber;;
                  mret (<[orderNumber := []]> cache));
      let done' := done + 1 in
      onProgress done' total;;
      enrichLoop orders' total cache' done'
  end.

(** [cache.get(row.orderNumber) || []] in a copy of the row *)
Definition withProducts (cache : gmap jsstring (list jsstring)) (row : Tx) : Tx :=
  mkTx (date row) (cardDetails row) (orderNumber row) (totalAmount row)
       (default [] (cache !! orderNumber row)).

Definition enrichTransactionsWithProducts (rows : list Tx)
  : Async (Effects World) (list Tx) :=
  let uniqueOrders := uniqueOrders rows in
  cache ← enrichLoop uniqueOrders (length uniqueOrders) ∅ 0;
  mret (withProducts cache <$> rows).

End Enricher.

(** *** The pipeline

    The data path of the click handler: collect, enrich, serialize.  The
    outer [None] is a collector out of fuel; the inner one is the branch
    without records, where no file is made. *)
Definition exportCsv {World} (browser : Browser World) (doc : Document)
    (e : Effects World) : option (result (option jsstring) * Effects World) :=
  rows ← collectTransactions MAX_TRANSACTIONS doc;
  if length rows =? 0 then Some (Value None, e)
  else
    let '(r, e') := enrichTransactionsWithProducts browser rows e in
    match r with
    | Value enrichedRows => Some (Value (Some (buildCsv enrichedRows)), e')
    | Thrown => Some (Thrown, e')
    end.

(** *** A reader of the table

    The dialect the serializer writes: fields separated by commas, records
    by line feeds, a field in double quotes when it starts with one, a
    doubled quote inside standing for one quote. *)

(** The inside of a quoted field, up to its closing quote, which a
    separator or the end of the text must follow. *)
Fixpoint read_quoted (s : jsstring) : option (jsstring * jsstring) :=
  match s with
  | [] => None
  | c :: s' =>
      if (c =? QUOTE)%N then
        match s' with
        | [] => Some ([], [])
        | c2 :: s'' =>
            if (c2 =? QUOTE)%N
            then '(field, rest) ← read_quoted s''; Some (QUOTE :: field, rest)
            else if (c2 =? COMMA)%N || (c2 =? LF)%N then Some ([], s')
            else None
        end
      else '(field, rest) ← read_quoted s'; Some (c :: field, rest)
  end.

(** A field without quotes runs to the next separator. *)
Fixpoint read_plain (s : jsstring) : jsstring * jsstring :=
  match s with
  | [] => ([], [])
  | c :: s' =>
      if (c =? COMMA)%N || (c =? LF)%N then ([], s)
      else let '(field, rest) := read_plain s' in (c :: field, rest)
  end.

(** Read one field from the front of the text; the result is the field and
    the text from its separator on. *)
Definition read_field (s : jsstring) : option (jsstring * jsstring) :=
  match s with
  | c :: s' => if (c =? QUOTE)%N then read_quoted s' else Some (read_plain s)
  | [] => Some ([], [])
  end.

(** Read the fields of the records of a text; [fuel] bounds the fields. *)
Fixpoint read_table (fuel : nat) (s : jsstring) : option (list (list jsstring)) :=
  match fuel with
  | 0 => None
  | S fuel' =>
      '(field, rest) ← read_field s;
      match rest with
      | [] => Some [[field]]
      | sep :: s' =>
          table ← read_table fuel' s';
          if (sep =? COMMA)%N then
            match table with
            | record :: table' => Some ((field :: record) :: table')
            | [] => None
            end
          else Some ([field] :: table)
      end
  end.

Definition read_csv (s : jsstring) : option (list (list jsstring)) :=
  read_table (S (length s)) s.

(** ** Predicates of the statements *)

(** The characters that make [csvEscape] quote a field. *)
Definition special (c : char) : Prop := c = QUOTE ∨ c = COMMA ∨ c = LF.

(** A separator or the end of the text follows. *)
Definition at_boundary (rest : jsstring) : Prop :=
  rest = [] ∨ ∃ rest', rest = COMMA :: rest' ∨ rest = LF :: rest'.

(** The composite key of a record. *)
Definition compositeKey (tx : Tx) : jsstring * jsstring * jsstring * jsstring :=
  (date tx, cardDetails tx, orderNumber tx, totalAmount tx).

(** The records that the extractor yields on the links of the first [n]
    queries, in the order the collector meets them. *)
Definition encountered (doc : Document) (n : nat) : list Tx :=
  i ← seq 0 n; omap extractTransaction (doc i).

(** The keys of the seen-set for a list of records. *)
Definition keys (txs : list Tx) : gset jsstring := list_to_set (txKey <$> txs).

(** The records of a sequence whose key is neither in [seen] nor carried by
    an earlier record of the sequence. *)
Fixpoint firstByKey (seen : gset jsstring) (txs : list Tx) : list Tx :=
  match txs with
  | [] => []
  | tx :: txs' =>
      if decide (txKey tx ∈ seen) then firstByKey seen txs'
      else tx :: firstByKey ({[txKey tx]} ∪ seen) txs'
  end.

(** The records accepted from the first [n] queries when no maximum stops
    the collector. *)
Definition accepted (doc : Document) (n : nat) : list Tx :=
  firstByKey ∅ (encountered doc n).

(** What holds of the variables of the collector between iterations. *)
Definition collectorInv (maxTransactions : nat) (doc : Document) (st : Collector)
  : Prop :=
  records st = take maxTransactions (accepted doc (polls st))
  ∧ seen st = keys (records st)
  ∧ lastCount st = length (records st)
  ∧ (∀ k, k < polls st → length (accepted doc k) < maxTransactions)
  ∧ (∀ m, m ≤ polls st →
          length (accepted doc m) = length (accepted doc (polls st)) →
          polls st - m ≤ stallCount st).

(** The iterations still possible from a state of the collector. *)
Definition collectMeasure (maxTransactions : nat) (st : Collector) : nat :=
  STALL_LIMIT * (maxTransactions - length (records st))
    + (STALL_LIMIT - stallCount st).

(** A link whose only text is [Order #i]. *)
Definition orderElement (i : nat) : Element :=
  mkElement None None None None [js "Order #" ++ String_of_nat i].

(** A virtualized list that always renders exactly one entry: a new one on
    each of the first twenty queries, the twentieth from then on. *)
Definition rollingDocument : Document := fun i => [orderElement (Nat.min i 19)].

(** The answers of the remote side to a sequence of requests. *)
Fixpoint outcomes {World} (browser : Browser World) (urls : list jsstring)
    (w : World) : list FetchOutcome :=
  match urls with
  | [] => []
  | url :: urls' =>
      let '(outcome, w') := network browser url w in
      outcome :: outcomes browser urls' w'
  end.

(** A detail fetch fails: the request is rejected, the status is not a
    success, the body cannot be read, or parsing the page throws. *)
Definition fetchFailed {World} (browser : Browser World) (outcome : FetchOutcome)
  : Prop :=
  match outcome with
  | NetworkError => True
  | Response false _ => True
  | Response true None => True
  | Response true (Some html) => parseProductsFromOrderHtml browser html = Thrown
  end.

(** The product list that the enricher keeps for an answer. *)
Definition productsOf {World} (browser : Browser World) (outcome : FetchOutcome)
  : list jsstring :=
  match outcome with
  | Response true (Some html) =>
      match parseProductsFromOrderHtml browser html with
      | Value titles => titles
      | Thrown => []
      end
  | _ => []
  end.

(** An answer for which the enricher ends in its [catch] branch. *)
Definition fetchThrows {World} (browser : Browser World) (outcome : FetchOutcome)
  : bool :=
  match outcome with
  | NetworkError => true
  | Response false _ => false
  | Response true None => true
  | Response true (Some html) =>
      match parseProductsFromOrderHtml browser html with
      | Value _ => false
      | Thrown => true
      end
  end.

(** The effects of the body of the enricher's loop for one key. *)
Definition stepEffects {World} (browser : Browser World) (key : jsstring)
    (done total : nat) (e : Effects World) : Effects World :=
  let '(outcome, w) := network browser (getOrderDetailsUrl browser key) (world e) in
  mkEffects w (requests e ++ [getOrderDetailsUrl browser key])
            (errors e ++ (if fetchThrows browser outcome then [key] else []))
            (progress e ++ [(done + 1, total)]).

(** ** Auxiliary definitions of the proofs *)

(** The text after the longest prefix of characters of a class. *)
Fixpoint skip (p : char -> bool) (s : jsstring) : jsstring :=
  match s with
  | [] => []
  | c :: s' => if p c then skip p s' else s
  end.

(** All the ways a greedy star of a class matches, the longest first. *)
Fixpoint star_class_results (p : char -> bool) (s : jsstring)
    (caps : list (option jsstring)) : list mstate :=
  match s with
  | [] => [MState s caps]
  | c :: s' =>
      if p c then star_class_results p s' caps ++ [MState s caps]
      else [MState s caps]
  end.

(** The words a pattern matches, captures and anchors apart. *)
Fixpoint lang (r : regex) (w : jsstring) : Prop :=
  match r with
  | Empty => w = []
  | Class p => ∃ c, w = [c] ∧ p c = true
  | Cat r1 r2 => ∃ u v, w = u ++ v ∧ lang r1 u ∧ lang r2 v
  | Or r1 r2 => lang r1 w ∨ lang r2 w
  | Star r1 => ∃ ws, w = concat ws ∧ Forall (lang r1) ws
  | Capture _ r1 => lang r1 w
  | Bol => w = []
  | Eol => w = []
  end.

(** The pattern has no capturing group [i]. *)
Fixpoint capture_free (i : nat) (r : regex) : bool :=
  match r with
  | Cat r1 r2 | Or r1 r2 => capture_free i r1 && capture_free i r2
  | Star r1 => capture_free i r1
  | Capture j r1 => negb (i =? j) && capture_free i r1
  | _ => true
  end.

(** White space only as single spaces: what [normalizeSpace] leaves. *)
Fixpoint single_spaced (s : jsstring) : bool :=
  match s with
  | [] => true
  | c :: s' =>
      (if is_space c
       then (c =? SP)%N && match s' with c2 :: _ => negb (is_space c2) | [] => true end
       else true)
      && single_spaced s'
  end.

Definition whitespace (ws : jsstring) : Prop := Forall (fun c => is_space c = true) ws.
Definition digits (ds : jsstring) : Prop := Forall (fun c => is_digit c = true) ds.
Definition letters (ls : jsstring) : Prop := Forall (fun c => is_alpha c = true) ls.

(** The shape of a date on the page: one or two digits, a space, three
    letters, a space, four digits. *)
Definition dateShape (text D M Y : jsstring) : Prop :=
  text = D ++ [SP] ++ M ++ [SP] ++ Y
  ∧ digits D ∧ (length D = 1 ∨ length D = 2)
  ∧ letters M ∧ length M = 3
  ∧ digits Y ∧ length Y = 4.

(** The day with two digits. *)
Definition zeroPadded (D : jsstring) : jsstring :=
  match D with
  | [d] => [48%N; d]
  | _ => D
  end.

(** The parts of an amount: a sign, a currency marker (a symbol or a
    three-letter code in either case), a fraction of two digits. *)
Definition signMarker (s : jsstring) : Prop :=
  s = [] ∨ s = js "+" ∨ s = js "-".

Definition currencyMarker (s : jsstring) : Prop :=
  s = [] ∨ s = [36%N] ∨ s = [163%N] ∨ s = [8364%N]
  ∨ upper <$> s = js "USD" ∨ upper <$> s = js "GBP" ∨ upper <$> s = js "EUR".

Definition fractionPart (s : jsstring) : Prop :=
  s = [] ∨ ∃ f1 f2, s = [DOT; f1; f2] ∧ is_digit f1 = true ∧ is_digit f2 = true.

(** The shape of an amount: sign, currency marker and number, each of the
    first two optional, with optional white space after the sign and after
    the marker; the number is a digit, then digits and commas, then an
    optional fraction. *)
Definition amountShape (s sign number : jsstring) : Prop :=
  ∃ ws1 cur ws2 d ds frac,
    s = sign ++ ws1 ++ cur ++ ws2 ++ number
    ∧ number = d :: ds ++ frac
    ∧ signMarker sign ∧ whitespace ws1 ∧ currencyMarker cur ∧ whitespace ws2
    ∧ is_digit d = true
    ∧ Forall (fun c => is_digit_or_comma c = true) ds
    ∧ fractionPart frac.

Definition nonspace (w : jsstring) : Prop := Forall (fun c => is_space c = false) w.

(** The amounts as the specification words them: the currency marker is
    any symbol (a character that is not a letter, a digit, white space, a
    sign, a comma or a point) or any code of three letters. *)
Definition statedCurrencyMarker (s : jsstring) : Prop :=
  s = []
  ∨ (∃ c, s = [c] ∧ is_alpha c = false ∧ is_digit c = false
          ∧ is_space c = false ∧ is_sign c = false
          ∧ c ≠ COMMA ∧ c ≠ DOT)
  ∨ (length s = 3 ∧ letters s).

Definition statedAmountShape (s sign number : jsstring) : Prop :=
  ∃ ws1 cur ws2 d ds frac,
    s = sign ++ ws1 ++ cur ++ ws2 ++ number
    ∧ number = d :: ds ++ frac
    ∧ signMarker sign ∧ whitespace ws1 ∧ statedCurrencyMarker cur ∧ whitespace ws2
    ∧ is_digit d = true
    ∧ Forall (fun c => is_digit_or_comma c = true) ds
    ∧ fractionPart frac.

(** What may stand between the start of a match and its number: a sign,
    white space, a currency marker and white space, each optional. *)
Definition amountLead (lead sign : jsstring) : Prop :=
  ∃ ws1 cur ws2,
    lead = sign ++ ws1 ++ cur ++ ws2
    ∧ signMarker sign ∧ whitespace ws1 ∧ currencyMarker cur ∧ whitespace ws2.

(** A number taken greedily in front of [after]: a digit, the longest run
    of digits and commas, and the fraction of two digits when one
    follows. *)
Definition greedyNumber (d : char) (ds frac after : jsstring) : Prop :=
  is_digit d = true
  ∧ Forall (fun c => is_digit_or_comma c = true) ds
  ∧ fractionPart frac
  ∧ match frac ++ after with
    | c :: _ => is_digit_or_comma c = false
    | [] => True
    end
  ∧ (frac = [] →
     ¬ ∃ f1 f2 rest, after = DOT :: f1 :: f2 :: rest
                     ∧ is_digit f1 = true ∧ is_digit f2 = true).

(** The first amount of a text: [number] starts at the first digit of the
    text and is taken greedily; in front of it stands the longest lead
    that ends there, and [sign] is the sign of that lead. *)
Definition firstAmount (text sign number : jsstring) : Prop :=
  ∃ before lead d ds frac after,
    text = before ++ lead ++ number ++ after
    ∧ number = d :: ds ++ frac
    ∧ Forall (fun c => is_digit c = false) before
    ∧ amountLead lead sign
    ∧ (∀ b1 b2 sign', before = b1 ++ b2 → b2 ≠ [] →
                      ¬ amountLead (b2 ++ lead) sign')
    ∧ greedyNumber d ds frac after.

(** Two entries of the same order, and a browser whose order page lists
    Widget twice and Gadget once; a second browser rejects every request. *)
Definition entryA1 (amount : string) : Element :=
  mkElement (Some (js "5 Jan 2024")) (Some (js "Visa")) None None
            [js "5 Jan 2024"; js "Order #A1"; js amount].

Definition documentA1 : Document :=
  fun _ => [entryA1 "$10.00"; entryA1 "-$5.00"].

Definition widgetBrowser : Browser () :=
  mkBrowser (js "https://www.amazon.com") id
            (fun url w => (Response true (Some (js "<html>")), w))
            (fun html => Some (mkOrderPage [js "Widget"; js " Widget "; js "Gadget"] [])).

Definition offlineBrowser : Browser () :=
  mkBrowser (js "https://www.amazon.com") id
            (fun url w => (NetworkError, w))
            (fun html => None).

Definition noEffects : Effects () := mkEffects () [] [] [].

(** The text of a table: its records on lines, their fields escaped and
    separated by commas. *)
Definition serialize (table : list (list jsstring)) : jsstring :=
  join [LF] ((fun record => join [COMMA] (csvEscape <$> record)) <$> table).

(** ** More of the script *)

(** *** The scroll container

    What [getScrollableContainer] reads of the page: of each element the
    computed overflow-y and the two heights, and the element that
    [document.scrollingElement || document.documentElement] gives. *)
Record Layout (Node : Type) := mkLayout {
  overflowY : Node -> jsstring;
  scrollHeight : Node -> Z;
  clientHeight : Node -> Z;
  rootScroller : Node
}.
Arguments mkLayout {Node} _ _ _ _.
Arguments overflowY {Node} _ _.
Arguments scrollHeight {Node} _ _.
Arguments clientHeight {Node} _ _.
Arguments rootScroller {Node} _.

Definition canScroll {Node} (page : Layout Node) (current : Node) : bool :=
  (bool_decide (overflowY page current = js "auto")
   || bool_decide (overflowY page current = js "scroll"))
  && (clientHeight page current + 8 <? scrollHeight page current)%Z.

(** The walk of [getScrollableContainer]: [path] is the anchor element
    followed by its [parentElement] chain, up to the element before
    [document.body] (or before [null]). *)
Fixpoint getScrollableContainer {Node} (page : Layout Node) (path : list Node)
  : Node :=
  match path with
  | [] => rootScroller page
  | current :: parents =>
      if canScroll page current then current
      else getScrollableContainer page parents
  end.

(** *** The name of the file *)

Definition COLON : char := 58%N.
Definition DASH : char := 45%N.

(** [s.replace(/[:T]/g, '-')] *)
Definition is_colon_or_T (c : char) : bool := (c =? COLON)%N || (c =? 84)%N.

Fixpoint replace_class (p : char -> bool) (by_ : jsstring) (s : jsstring)
  : jsstring :=
  match s with
  | [] => []
  | x :: s' => (if p x then by_ else [x]) ++ replace_class p by_ s'
  end.

(** [now.toISOString().slice(0, 19).replace(/[:T]/g, '-')], for the text
    [iso] that [toISOString] gives. *)
Definition stamp (iso : jsstring) : jsstring :=
  replace_class is_colon_or_T (js "-") (take 19 iso).

Definition fileName (rowCount : nat) (iso : jsstring) : jsstring :=
  js "amazon-transactions-" ++ String_of_nat rowCount ++ js "-" ++ stamp iso
    ++ js ".csv".

(** ** Predicates of the further properties *)

(** No white space at the start, at the end. *)
Definition starts_nonspace (s : jsstring) : Prop :=
  match s with c :: _ => is_space c = false | [] => True end.

Definition ends_nonspace (s : jsstring) : Prop := starts_nonspace (rev s).

(** The characters of a text that are not white space, in order. *)
Definition visible (s : jsstring) : jsstring :=
  filter (fun c => is_space c = false) s.

(** A date as the script writes it: four digits, a month number of the
    table, two digits, with dashes between. *)
Definition isoDate (s : jsstring) : Prop :=
  ∃ Y mm dd,
    s = Y ++ js "-" ++ mm ++ js "-" ++ dd
    ∧ digits Y ∧ length Y = 4
    ∧ (∃ M, MONTHS !! M = Some mm)
    ∧ digits dd ∧ length dd = 2.

(** An amount as the script writes it: a sign or nothing, digits, and a
    fraction of two digits or nothing. *)
Definition signedDecimal (s : jsstring) : Prop :=
  ∃ sign int frac,
    s = sign ++ int ++ frac
    ∧ signMarker sign ∧ int ≠ [] ∧ digits int ∧ fractionPart frac.

(** An order reference in a text: the word Order in either case, optional
    white space, a hash, optional white space and the order number, after
    which no letter, digit or dash follows; before it no letter O. *)
Definition orderShape (text number : jsstring) : Prop :=
  ∃ before word ws1 ws2 after,
    text = before ++ word ++ ws1 ++ [HASH] ++ ws2 ++ number ++ after
    ∧ Forall (fun c => upper c ≠ 79%N) before
    ∧ upper <$> word = js "ORDER"
    ∧ whitespace ws1 ∧ whitespace ws2
    ∧ number ≠ [] ∧ Forall (fun c => is_order_char c = true) number
    ∧ match after with c :: _ => is_order_char c = false | [] => True end.

(** White space only as the space character. *)
Definition plain_spaced (s : jsstring) : Prop :=
  Forall (fun c => is_space c = true → c = SP) s.

(** What holds of a record that the extractor builds. *)
Definition extracted (tx : Tx) : Prop :=
  (date tx = [] ∨ isoDate (date tx))
  ∧ (plain_spaced (cardDetails tx)
     ∧ starts_nonspace (cardDetails tx) ∧ ends_nonspace (cardDetails tx))
  ∧ Forall (fun c => is_order_char c = true) (orderNumber tx)
  ∧ (totalAmount tx = [] ∨ signedDecimal (totalAmount tx))
  ∧ products tx = []
  ∧ ¬ (date tx = [] ∧ cardDetails tx = [] ∧ orderNumber tx = []
       ∧ totalAmount tx = []).

(** No bar in a text. *)
Definition bar_free (s : jsstring) : Prop := Forall (fun c => c ≠ PIPE) s.

(** A list of product titles as the enricher keeps it: no repeats, and
    every title non-empty and normalized. *)
Definition titleList (titles : list jsstring) : Prop :=
  NoDup titles ∧ Forall (fun t => t ≠ [] ∧ normalizeSpace t = t) titles.

(** The keys of a run of the enricher that end in its [catch] branch. *)
Definition failedOrders {World} (browser : Browser World)
    (orders : list jsstring) (w : World) : list jsstring :=
  omap (fun p => if fetchThrows browser (snd p) then Some (fst p) else None)
       (zip orders (outcomes browser (getOrderDetailsUrl browser <$> orders) w)).

(** The lines of a text: what stands between its line feeds. *)
Fixpoint lines (s : jsstring) : list jsstring :=
  match s with
  | [] => [[]]
  | c :: s' =>
      if (c =? LF)%N then [] :: lines s'
      else match lines s' with
           | l :: ls => (c :: l) :: ls
           | [] => [[c]]
           end
  end.

(** No line feed in a text. *)
Definition lf_free (s : jsstring) : Prop := Forall (fun c => c ≠ LF) s.

(** The fields of a record hold no line feed. *)
Definition one_line (tx : Tx) : Prop :=
  lf_free (date tx) ∧ lf_free (cardDetails tx) ∧ lf_free (orderNumber tx)
  ∧ lf_free (totalAmount tx) ∧ Forall lf_free (products tx).

(** The text of an instant as [toISOString] writes it for the years 0 to
    9999: YYYY-MM-DDTHH:mm:ss, then the fraction and the zone. *)
Definition isoInstant (iso Y M D h m s rest : jsstring) : Prop :=
  iso = Y ++ js "-" ++ M ++ js "-" ++ D ++ js "T" ++ h ++ js ":" ++ m
          ++ js ":" ++ s ++ rest
  ∧ (digits Y ∧ length Y = 4) ∧ (digits M ∧ length M = 2)
  ∧ (digits D ∧ length D = 2) ∧ (digits h ∧ length h = 2)
  ∧ (digits m ∧ length m = 2) ∧ (digits s ∧ length s = 2).

(** The characters of a file name that is safe on every file system the
    browser saves to: lower-case letters, digits, dashes and points. *)
Definition is_name_char (c : char) : bool :=
  in_range 97%N 122%N c || is_digit c || (c =? DASH)%N || (c =? DOT)%N.

(** * Properties *)

(** ** The serializer *)

Section Csv.

Lemma needs_quoting_true str : needs_quoting str = true ↔ ∃ c, c ∈ str ∧ special c.
Proof.
  unfold needs_quoting, special. rewrite existsb_exists. split.
  - intros (c & Hin & Hc). exists c. split; [by apply list_elem_of_In|].
    rewrite !orb_true_iff, !N.eqb_eq in Hc. tauto.
  - intros (c & Hin & Hc). exists c. split; [by apply list_elem_of_In|].
    rewrite !orb_true_iff, !N.eqb_eq. tauto.
Qed.

Lemma length_replace_char_ge c str :
  length str ≤ length (replace_char c [c; c] str).
Proof.
  induction str as [|x str IH]; simpl; [lia|].
  destruct (x =? c)%N; simpl; lia.
Qed.

Lemma read_plain_verbatim str rest :
  needs_quoting str = false → at_boundary rest →
  read_plain (str ++ rest) = (str, rest).
Proof.
  intros Hq Hrest. induction str as [|c str IH]; simpl in *.
  - destruct Hrest as [->|(rest' & [->| ->])]; done.
  - apply orb_false_iff in Hq as [Hc Hq].
    apply orb_false_iff in Hc as [Hc Hlf]. apply orb_false_iff in Hc as [_ Hc].
    rewrite Hc, Hlf. simpl. by rewrite IH.
Qed.

Lemma read_quoted_doubled str rest :
  at_boundary rest →
  read_quoted (replace_char QUOTE [QUOTE; QUOTE] str ++ QUOTE :: rest)
  = Some (str, rest).
Proof.
  intros Hrest. induction str as [|c str IH].
  - simpl. destruct Hrest as [->|(rest' & [->| ->])]; done.
  - cbn [replace_char]. destruct (c =? QUOTE)%N eqn:Hc.
    + apply N.eqb_eq in Hc as ->. cbn -[replace_char]. by rewrite IH.
    + cbn -[replace_char]. rewrite Hc. by rewrite IH.
Qed.

Lemma read_field_csvEscape str rest :
  at_boundary rest → read_field (csvEscape str ++ rest) = Some (str, rest).
Proof.
  intros Hrest. unfold csvEscape. destruct (needs_quoting str) eqn:Hq.
  - cbn -[replace_char]. rewrite <- app_assoc. by apply read_quoted_doubled.
  - destruct str as [|c str].
    + simpl. destruct Hrest as [->|(rest' & [->| ->])]; done.
    + assert (Hc : (c =? QUOTE)%N = false).
      { simpl in Hq. apply orb_false_iff in Hq as [Hq _].
        apply orb_false_iff in Hq as [Hq _]. by apply orb_false_iff in Hq as [Hq _]. }
      change (read_field ((c :: str) ++ rest)) with
        (if (c =? QUOTE)%N then read_quoted (str ++ rest)
         else Some (read_plain ((c :: str) ++ rest))).
      rewrite Hc. by rewrite read_plain_verbatim.
Qed.

(** C4. [csvEscape] wraps a field in double quotes, with the quotes inside
    doubled, exactly when the field holds a comma, a double quote or a line
    feed, and leaves it as it is exactly when it holds none; read back as a
    field of a comma-separated text (alone, or followed by a comma or a line
    feed and any text), the escaped form gives the original string. *)
Theorem csvEscape_quotes_iff_special_and_round_trips (str : jsstring) :
  ((∃ c, c ∈ str ∧ special c)
     ↔ csvEscape str = [QUOTE] ++ replace_char QUOTE [QUOTE; QUOTE] str ++ [QUOTE])
  ∧ ((¬ ∃ c, c ∈ str ∧ special c) ↔ csvEscape str = str)
  ∧ read_field (csvEscape str) = Some (str, [])
  ∧ (∀ rest, read_field (csvEscape str ++ COMMA :: rest) = Some (str, COMMA :: rest))
  ∧ (∀ rest, read_field (csvEscape str ++ LF :: rest) = Some (str, LF :: rest)).
Proof.
  assert (Hlen : [QUOTE] ++ replace_char QUOTE [QUOTE; QUOTE] str ++ [QUOTE] ≠ str).
  { intros Heq. apply (f_equal length) in Heq. simpl in Heq.
    rewrite length_app in Heq. simpl in Heq.
    pose proof (length_replace_char_ge QUOTE str). lia. }
  rewrite <- needs_quoting_true. unfold csvEscape at 1 2.
  destruct (needs_quoting str) eqn:Hq.
  - split; [done|]. split; [split; [done|]|].
    { intros Heq. by destruct Hlen. }
    split; [|split; intros rest]; [rewrite <- (app_nil_r (csvEscape str))|..];
      apply read_field_csvEscape; unfold at_boundary; eauto.
  - split; [split; [done|]|].
    { intros Heq. by destruct Hlen. }
    split; [done|].
    split; [|split; intros rest]; [rewrite <- (app_nil_r (csvEscape str))|..];
      apply read_field_csvEscape; unfold at_boundary; eauto.
Qed.

(** The two examples of the specification. *)
Example csvEscape_comma : csvEscape (js "a,b") = [QUOTE] ++ js "a,b" ++ [QUOTE].
Proof. reflexivity. Qed.

Example csvEscape_quote :
  csvEscape (js "he said " ++ [QUOTE] ++ js "hi" ++ [QUOTE])
  = [QUOTE] ++ js "he said " ++ [QUOTE; QUOTE] ++ js "hi" ++ [QUOTE; QUOTE; QUOTE].
Proof. reflexivity. Qed.

Lemma fold_left_max_acc {A} (f : A → nat) (l : list A) (acc : nat) :
  fold_left (fun m x => Nat.max m (f x)) l acc = Nat.max acc (max_list (f <$> l)).
Proof.
  revert acc. induction l as [|x l IH]; intros acc; cbn; [lia|].
  rewrite IH. cbn. lia.
Qed.

Lemma maxProducts_max_list rows :
  maxProducts rows = max_list ((fun row => length (products row)) <$> rows).
Proof. unfold maxProducts. by rewrite fold_left_max_acc. Qed.

Lemma products_le_maxProducts rows row :
  row ∈ rows → length (products row) ≤ maxProducts rows.
Proof.
  intros Hin. rewrite maxProducts_max_list.
  apply max_list_elem_of_le. apply list_elem_of_fmap. eauto.
Qed.

Lemma item_or_empty_lookup (l : list jsstring) i :
  item_or_empty l i = default [] (l !! i).
Proof. unfold item_or_empty. destruct (l !! i) as [[|c p]|]; done. Qed.

Lemma Array_from_item_or_empty (l : list jsstring) n :
  length l ≤ n →
  Array_from n (item_or_empty l) = l ++ replicate (n - length l) [].
Proof.
  intros Hle. unfold Array_from. apply list_eq. intros i.
  rewrite list_lookup_fmap. destruct (decide (i < n)) as [Hi|Hi].
  - rewrite lookup_seq_lt by done. simpl. unfold item_or_empty.
    destruct (decide (i < length l)) as [Hil|Hil].
    + rewrite lookup_app_l by done.
      destruct (l !! i) as [[|c p]|] eqn:Hx; [done..|].
      apply lookup_ge_None_1 in Hx. lia.
    + rewrite lookup_app_r by lia. rewrite (lookup_ge_None_2 l) by lia.
      symmetry. apply lookup_replicate_2. lia.
  - rewrite lookup_seq_ge by lia. simpl. symmetry. apply lookup_ge_None_2.
    rewrite length_app, length_replicate. lia.
Qed.

(** C5. The serializer takes [maxProducts] to be the largest [products]
    length of the rows (0 without rows); the header is the four fixed
    columns followed by [product_1] ... [product_maxProducts]; every row
    becomes its four scalar fields followed by its products and then empty
    strings up to [maxProducts] product fields; and the text is the header
    line and the escaped row lines joined with line feeds. *)
Theorem buildCsv_header_and_padding (rows : list Tx) :
  maxProducts rows = max_list ((fun row => length (products row)) <$> rows)
  ∧ header rows
    = [js "date"; js "card_details"; js "order_number"; js "total_amount"]
        ++ ((fun i => js "product_" ++ String_of_nat i) <$> seq 1 (maxProducts rows))
  ∧ length (header rows) = 4 + maxProducts rows
  ∧ Forall (fun row =>
              rowFields rows row
              = [date row; cardDetails row; orderNumber row; totalAmount row]
                  ++ products row
                  ++ replicate (maxProducts rows - length (products row)) []
              ∧ length (rowFields rows row) = 4 + maxProducts rows) rows
  ∧ buildCsv rows
    = join [LF] (join [COMMA] (header rows)
                 :: ((fun row => join [COMMA] (csvEscape <$> rowFields rows row))
                       <$> rows)).
Proof.
  split; [apply maxProducts_max_list|].
  assert (Hh : productHeaders rows
    = (fun i => js "product_" ++ String_of_nat i) <$> seq 1 (maxProducts rows)).
  { unfold productHeaders, Array_from. rewrite <- (fmap_S_seq 0).
    rewrite <- list_fmap_compose. apply list_fmap_ext. intros _ i _. simpl.
    by rewrite Nat.add_1_r. }
  split; [unfold header; by rewrite Hh|].
  split; [unfold header; rewrite Hh, length_app, length_fmap, length_seq; done|].
  split; [|done].
  apply Forall_forall. intros row Hin.
  pose proof (products_le_maxProducts rows row Hin) as Hle.
  unfold rowFields, paddedProducts. rewrite Array_from_item_or_empty by done.
  split; [done|].
  rewrite !length_app, length_replicate. simpl. lia.
Qed.

(** The width example of the specification: products lengths 0, 3, 1. *)
Example buildCsv_width_0_3_1 :
  let rows :=
    [ mkTx (js "2024-01-05") (js "Visa") (js "A1") (js "10.00") [];
      mkTx (js "2024-01-06") (js "Visa") (js "A2") (js "-5.00")
           [js "Widget"; js "Gadget"; js "Cable"];
      mkTx (js "2024-01-07") (js "Visa") (js "A3") (js "1.00") [js "Pen"] ] in
  buildCsv rows
  = js "date,card_details,order_number,total_amount,product_1,product_2,product_3"
      ++ [LF] ++ js "2024-01-05,Visa,A1,10.00,,,"
      ++ [LF] ++ js "2024-01-06,Visa,A2,-5.00,Widget,Gadget,Cable"
      ++ [LF] ++ js "2024-01-07,Visa,A3,1.00,Pen,,".
Proof. vm_compute. reflexivity. Qed.

(** *** Reading the table back *)

Lemma join_cons2 sep (p q : jsstring) ps :
  join sep (p :: q :: ps) = p ++ sep ++ join sep (q :: ps).
Proof. done. Qed.

(** The fields of a record, followed by the rest of the text. *)
Lemma read_table_record fs s' T :
  fs ≠ [] →
  (∀ fuel, length s' < fuel → read_table fuel s' = Some T) →
  ∀ fuel, length (join [COMMA] (csvEscape <$> fs) ++ LF :: s') < fuel →
          read_table fuel (join [COMMA] (csvEscape <$> fs) ++ LF :: s')
          = Some (fs :: T).
Proof.
  intros Hne Htail. induction fs as [|f fs IH]; [done|]. clear Hne.
  intros fuel Hfuel. destruct fuel as [|fuel]; [lia|].
  destruct fs as [|f2 fs].
  - cbn [fmap list_fmap join] in *. cbn [read_table].
    rewrite read_field_csvEscape by (right; eauto). cbn.
    rewrite Htail; [done|]. rewrite length_app in Hfuel. cbn [length] in Hfuel. lia.
  - cbn [fmap list_fmap] in *. rewrite join_cons2 in *.
    rewrite <- !app_assoc in *. cbn [app] in *. cbn [read_table].
    rewrite read_field_csvEscape by (right; eauto). cbn.
    rewrite IH; [done..|]. rewrite length_app in Hfuel. cbn [length] in Hfuel. lia.
Qed.

Lemma read_table_last_record fs :
  fs ≠ [] →
  ∀ fuel, length (join [COMMA] (csvEscape <$> fs)) < fuel →
          read_table fuel (join [COMMA] (csvEscape <$> fs)) = Some [fs].
Proof.
  intros Hne. induction fs as [|f fs IH]; [done|]. clear Hne.
  intros fuel Hfuel. destruct fuel as [|fuel]; [lia|].
  destruct fs as [|f2 fs].
  - cbn [fmap list_fmap join] in *. cbn [read_table].
    rewrite <- (app_nil_r (csvEscape f)).
    rewrite read_field_csvEscape by (by left). done.
  - cbn [fmap list_fmap] in *. rewrite join_cons2 in *. cbn [app] in *.
    cbn [read_table]. rewrite read_field_csvEscape by (right; eauto). cbn.
    rewrite IH; [done..|]. rewrite length_app in Hfuel. cbn [length] in Hfuel. lia.
Qed.

(** A reader gets back every table whose records have at least one field. *)
Lemma read_table_serialize table :
  table ≠ [] → Forall (fun record => record ≠ []) table →
  ∀ fuel, length (serialize table) < fuel →
          read_table fuel (serialize table) = Some table.
Proof.
  intros Hne Hrecords. unfold serialize.
  induction Hrecords as [|fs table Hfs Hrecords IH]; [done|]. clear Hne.
  destruct table as [|fs2 table].
  - cbn [fmap list_fmap join]. by apply read_table_last_record.
  - cbn [fmap list_fmap] in *. rewrite join_cons2. cbn [app].
    apply read_table_record; [done|]. by apply IH.
Qed.

Lemma read_csv_serialize table :
  table ≠ [] → Forall (fun record => record ≠ []) table →
  read_csv (serialize table) = Some table.
Proof. intros. unfold read_csv. apply read_table_serialize; [done..|lia]. Qed.

Lemma uint_digits_plain u : needs_quoting (uint_digits u) = false.
Proof. induction u; simpl; done. Qed.

Lemma needs_quoting_app s t :
  needs_quoting (s ++ t) = needs_quoting s || needs_quoting t.
Proof. apply existsb_app. Qed.

Lemma csvEscape_header rows : csvEscape <$> header rows = header rows.
Proof.
  unfold header, productHeaders, Array_from.
  rewrite fmap_app, <- list_fmap_compose. f_equal.
  apply list_fmap_ext. intros _ i _. unfold compose, csvEscape.
  rewrite needs_quoting_app. unfold String_of_nat.
  by rewrite uint_digits_plain.
Qed.

(** What [buildCsv] writes reads back as the header and the fields of the
    rows: every record has the four scalar columns and [maxProducts]
    product columns. *)
Theorem read_csv_buildCsv (rows : list Tx) :
  read_csv (buildCsv rows) = Some (header rows :: (rowFields rows <$> rows)).
Proof.
  assert (buildCsv rows = serialize (header rows :: (rowFields rows <$> rows)))
    as ->.
  { unfold buildCsv, csvLines, serialize. cbn [app fmap list_fmap].
    rewrite csvEscape_header. f_equal. f_equal.
    rewrite <- list_fmap_compose. done. }
  apply read_csv_serialize; [done|].
  constructor; [done|]. apply Forall_fmap, Forall_forall. by intros row _.
Qed.

End Csv.

(** ** The collector *)

Section Collector.

Lemma firstByKey_app seen xs ys :
  firstByKey seen (xs ++ ys)
  = firstByKey seen xs ++ firstByKey (keys (firstByKey seen xs) ∪ seen) ys.
Proof.
  revert seen. induction xs as [|x xs IH]; intros seen; simpl.
  - unfold keys. simpl. by rewrite (left_id_L ∅ (∪)).
  - destruct (decide (txKey x ∈ seen)); [apply IH|].
    simpl. rewrite IH. do 3 f_equal. unfold keys. simpl. set_solver.
Qed.

Lemma firstByKey_fresh seen xs x : x ∈ firstByKey seen xs → txKey x ∉ seen.
Proof.
  revert seen. induction xs as [|y xs IH]; intros seen; simpl; [by intros ?%elem_of_nil|].
  destruct (decide (txKey y ∈ seen)); [apply IH|].
  intros [->|Hin]%elem_of_cons; [done|]. apply IH in Hin. set_solver.
Qed.

Lemma firstByKey_NoDup seen xs : NoDup (txKey <$> firstByKey seen xs).
Proof.
  revert seen. induction xs as [|y xs IH]; intros seen; simpl; [constructor|].
  destruct (decide (txKey y ∈ seen)); [apply IH|].
  simpl. constructor; [|apply IH].
  intros (x & Hk & Hin)%list_elem_of_fmap. apply firstByKey_fresh in Hin.
  rewrite <- Hk in Hin. set_solver.
Qed.

Lemma txKey_compositeKey x y : compositeKey x = compositeKey y → txKey x = txKey y.
Proof. unfold compositeKey, txKey. intros [= -> -> -> ->]. done. Qed.

Lemma NoDup_compositeKey (txs : list Tx) :
  NoDup (txKey <$> txs) → NoDup (compositeKey <$> txs).
Proof.
  induction txs as [|x txs IH]; simpl; [constructor|].
  intros [Hx Hnd]%NoDup_cons. constructor; [|by apply IH].
  intros (y & Hk & Hin)%list_elem_of_fmap. apply Hx.
  apply list_elem_of_fmap. exists y. split; [by apply txKey_compositeKey|done].
Qed.

(** The inner loop adds the new records of the links, up to the maximum. *)
Lemma scanLinks_spec max links recs seen :
  length recs < max →
  scanLinks max links recs seen
  = (take max (recs ++ firstByKey seen (omap extractTransaction links)),
     keys (take (max - length recs)
                (firstByKey seen (omap extractTransaction links))) ∪ seen).
Proof.
  revert recs seen. induction links as [|link links IH]; intros recs seen Hlt; simpl.
  - rewrite app_nil_r, take_ge by lia. rewrite take_nil. unfold keys. simpl.
    by rewrite (left_id_L ∅ (∪)).
  - destruct (extractTransaction link) as [tx|]; simpl; [|by apply IH].
    destruct (decide (txKey tx ∈ seen)); [by apply IH|].
    rewrite length_app. simpl. rewrite take_app_ge by lia.
    destruct (max - length recs) as [|k] eqn:Hk; [exfalso; clear -Hlt Hk; lia|].
    simpl. destruct (Nat.leb_spec max (length recs + 1)) as [Hle|Hgt].
    + assert (k = 0) as -> by lia. rewrite take_0.
      f_equal. unfold keys. simpl. set_solver.
    + rewrite IH by (rewrite length_app; simpl; lia).
      rewrite length_app. simpl. replace (max - (length recs + 1)) with k by lia.
      rewrite take_app_ge by (rewrite length_app; simpl; lia).
      rewrite length_app. simpl. replace (max - (length recs + 1)) with k by lia.
      rewrite <- app_assoc. simpl. f_equal. unfold keys. simpl. set_solver.
Qed.

Lemma keys_app xs ys : keys (xs ++ ys) = keys xs ∪ keys ys.
Proof. unfold keys. rewrite fmap_app. apply list_to_set_app_L. Qed.

Lemma encountered_S doc n :
  encountered doc (S n) = encountered doc n ++ omap extractTransaction (doc n).
Proof.
  unfold encountered. rewrite seq_S, bind_app. simpl. by rewrite app_nil_r.
Qed.

Lemma accepted_S doc n :
  accepted doc (S n)
  = accepted doc n
      ++ firstByKey (keys (accepted doc n)) (omap extractTransaction (doc n)).
Proof.
  unfold accepted. rewrite encountered_S, firstByKey_app.
  by rewrite (right_id_L ∅ (∪)).
Qed.

Lemma accepted_length_mono doc m n :
  m ≤ n → length (accepted doc m) ≤ length (accepted doc n).
Proof.
  induction 1 as [|n Hle IH]; [done|].
  rewrite accepted_S, length_app. lia.
Qed.

Lemma firstByKey_sublist seen xs : firstByKey seen xs `sublist_of` xs.
Proof.
  revert seen. induction xs as [|x xs IH]; intros seen; simpl; [done|].
  destruct (decide (txKey x ∈ seen)).
  - by apply sublist_cons.
  - by apply sublist_skip.
Qed.

Section Loop.
Context (max : nat) (doc : Document).

Lemma collectorInv_initial : collectorInv max doc initialCollector.
Proof.
  unfold collectorInv, initialCollector. simpl.
  change (accepted doc 0) with (@nil Tx).
  split; [by rewrite take_nil|]. split; [done|]. split; [done|].
  split; intros; lia.
Qed.

Lemma collectorInv_records st :
  collectorInv max doc st → length (records st) < max →
  records st = accepted doc (polls st).
Proof.
  intros (Hrec & _) Hlt. rewrite Hrec in *. rewrite length_take in Hlt.
  apply take_ge. lia.
Qed.

(** One iteration keeps the invariant and never loses a record. *)
Lemma iteration_spec st :
  collectorInv max doc st → length (records st) < max →
  let st' := iteration max (doc (polls st)) st in
  collectorInv max doc st'
  ∧ polls st' = S (polls st)
  ∧ length (records st) ≤ length (records st')
  ∧ (length (records st') = length (records st) → stallCount st' = stallCount st + 1)
  ∧ (length (records st') ≠ length (records st) → stallCount st' = 0).
Proof.
  intros HI Hlt. pose proof (collectorInv_records st HI Hlt) as Hacc.
  destruct HI as (Hrec & Hseen & Hlast & Hbelow & Hstall).
  unfold iteration. rewrite scanLinks_spec by done.
  assert (Hrecs' :
    take max (records st ++ firstByKey (seen st) (omap extractTransaction (doc (polls st))))
    = take max (accepted doc (S (polls st)))).
  { by rewrite accepted_S, Hseen, Hacc. }
  assert (Hseen' :
    keys (take (max - length (records st))
            (firstByKey (seen st) (omap extractTransaction (doc (polls st)))))
      ∪ seen st
    = keys (take max (accepted doc (S (polls st))))).
  { rewrite <- Hrecs', take_app_ge by lia. rewrite keys_app, Hseen. set_solver. }
  rewrite Hrecs', Hseen'.
  assert (Hlenp : length (accepted doc (polls st)) < max) by (by rewrite <- Hacc).
  pose proof (accepted_length_mono doc (polls st) (S (polls st))) as Hmono.
  assert (Hlen' : length (take max (accepted doc (S (polls st))))
                  = Nat.min max (length (accepted doc (S (polls st)))))
    by apply length_take.
  assert (Hbelow' : ∀ k, k < S (polls st) → length (accepted doc k) < max).
  { intros k Hk. destruct (decide (k = polls st)) as [->|]; [done|].
    apply Hbelow. lia. }
  rewrite Hlast, Hacc in *.
  destruct (decide (length (take max (accepted doc (S (polls st))))
                    = length (accepted doc (polls st)))) as [Heq|Hne];
    unfold collectorInv; cbn [records seen stallCount lastCount polls].
  - split; [|repeat split; try done; lia].
    split; [done|]. split; [done|]. split; [done|]. split; [done|].
    intros m Hm Hmeq. destruct (decide (m = S (polls st))) as [->|]; [lia|].
    assert (polls st - m ≤ stallCount st); [|lia].
    apply Hstall; [lia|]. lia.
  - split; [|repeat split; try done; lia].
    split; [done|]. split; [done|]. split; [done|]. split; [done|].
    intros m Hm Hmeq. destruct (decide (m = S (polls st))) as [->|]; [lia|].
    pose proof (accepted_length_mono doc m (polls st)). lia.
Qed.

(** The loop stops, in a state that satisfies the invariant, whenever the
    fuel covers the measure. *)
Lemma collectLoop_stops fuel st :
  collectorInv max doc st → collectMeasure max st ≤ fuel →
  ∃ st', collectLoop fuel max doc st = Some st'
         ∧ collectorInv max doc st'
         ∧ is_Some (terminal max st')
         ∧ polls st ≤ polls st'.
Proof.
  revert st. induction fuel as [|fuel IH]; intros st HI Hfuel;
    cbn [collectLoop]; unfold terminal.
  - exists st. unfold collectMeasure, STALL_LIMIT in Hfuel.
    destruct (Nat.ltb_spec (length (records st)) max); [lia|]. cbn [andb].
    destruct (Nat.leb_spec max (length (records st))); [eauto|lia].
  - destruct (Nat.ltb_spec (length (records st)) max) as [Hlt|Hge]; cbn [andb].
    2:{ exists st. destruct (Nat.leb_spec max (length (records st))); [eauto|lia]. }
    destruct (Nat.ltb_spec (stallCount st) STALL_LIMIT) as [Hs|Hs].
    2:{ exists st. destruct (Nat.leb_spec max (length (records st))); [eauto|].
        destruct (Nat.leb_spec STALL_LIMIT (stallCount st)); [eauto|lia]. }
    destruct (iteration_spec st HI Hlt) as (HI' & Hp & Hmono & Hst & Hgrow).
    set (st' := iteration max (doc (polls st)) st) in *.
    destruct (Nat.leb_spec max (length (records st'))) as [Hmax|Hmax]; cbn [orb].
    { exists st'. destruct (Nat.leb_spec max (length (records st'))); [|lia].
      split; [done|]. split; [done|]. split; [eauto|lia]. }
    destruct (Nat.leb_spec STALL_LIMIT (stallCount st')) as [Hs'|Hs'].
    { exists st'. destruct (Nat.leb_spec max (length (records st'))); [lia|].
      destruct (Nat.leb_spec STALL_LIMIT (stallCount st')); [|lia].
      split; [done|]. split; [done|]. split; [eauto|lia]. }
    destruct (IH st' HI') as (st'' & Hrun & HI'' & Hterm & Hpolls).
    { unfold collectMeasure, STALL_LIMIT in *.
      destruct (decide (length (records st') = length (records st))) as [Heq|Hne].
      - rewrite Heq, (Hst Heq). lia.
      - rewrite (Hgrow Hne). lia. }
    exists st''. split; [done|]. split; [done|]. split; [done|]. lia.
Qed.

Lemma collectRun_stops :
  ∃ st, collectRun max doc = Some st
        ∧ collectorInv max doc st
        ∧ is_Some (terminal max st).
Proof.
  destruct (collectLoop_stops (collectFuel max) initialCollector)
    as (st & Hrun & HI & Hterm & _).
  - apply collectorInv_initial.
  - unfold collectMeasure, collectFuel, STALL_LIMIT. simpl. lia.
  - exists st. done.
Qed.

(** With no growth between the queries [n] and [n + STALL_LIMIT], the loop
    does not go beyond them. *)
Lemma collectLoop_window n fuel st st' :
  length (accepted doc (n + STALL_LIMIT)) = length (accepted doc n) →
  collectorInv max doc st → polls st ≤ n + STALL_LIMIT →
  collectLoop fuel max doc st = Some st' →
  polls st' ≤ n + STALL_LIMIT.
Proof.
  intros Hwin. revert st. induction fuel as [|fuel IH]; intros st HI Hp;
    cbn [collectLoop].
  - destruct (_ && _); [done|]. by intros [= <-].
  - destruct (Nat.ltb_spec (length (records st)) max) as [Hlt|Hge]; cbn [andb];
      [|by intros [= <-]].
    destruct (Nat.ltb_spec (stallCount st) STALL_LIMIT) as [Hs|Hs];
      [|by intros [= <-]].
    destruct (iteration_spec st HI Hlt) as (HI' & Hp' & _).
    assert (polls st < n + STALL_LIMIT).
    { destruct (decide (polls st = n + STALL_LIMIT)) as [Heq|]; [|lia].
      destruct HI as (_ & _ & _ & _ & Hstall).
      specialize (Hstall n). rewrite Heq in Hstall.
      specialize (Hstall ltac:(lia) ltac:(done)). lia. }
    set (st1 := iteration max (doc (polls st)) st) in *.
    destruct (_ || _).
    + intros [= <-]. lia.
    + apply IH; [done|lia].
Qed.

Lemma collectTransactions_result :
  ∃ st, collectRun max doc = Some st
        ∧ collectorInv max doc st
        ∧ is_Some (terminal max st)
        ∧ collectTransactions max doc = Some (take max (accepted doc (polls st))).
Proof.
  destruct collectRun_stops as (st & Hrun & HI & Hterm).
  exists st. split; [done|]. split; [done|]. split; [done|].
  unfold collectTransactions. rewrite Hrun. simpl.
  destruct HI as (-> & _). by rewrite take_idemp.
Qed.

End Loop.

(** C1. A run of the collector returns, and no two of the returned records
    have the same composite key (date, cardDetails, orderNumber,
    totalAmount), whatever the document shows on each query. *)
Theorem collectTransactions_no_duplicate_keys (max : nat) (doc : Document) :
  ∃ recs, collectTransactions max doc = Some recs
          ∧ NoDup (compositeKey <$> recs).
Proof.
  destruct (collectTransactions_result max doc) as (st & _ & _ & _ & Hres).
  eexists. split; [exact Hres|].
  apply NoDup_compositeKey. rewrite fmap_take.
  eapply sublist_NoDup; [apply firstByKey_NoDup|apply sublist_take].
Qed.

(** C9. A run of the collector returns at most [max] records: the records
    accepted from the queries made, in the order the document showed them,
    cut at [max].  No earlier query had brought the accepted count to
    [max], and when the count reaches [max] the loop stops as complete with
    exactly [max] records. *)
Theorem collectTransactions_at_most_max_in_encounter_order
    (max : nat) (doc : Document) :
  ∃ st recs,
    collectRun max doc = Some st
    ∧ collectTransactions max doc = Some recs
    ∧ recs = take max (accepted doc (polls st))
    ∧ recs `sublist_of` encountered doc (polls st)
    ∧ length recs ≤ max
    ∧ (∀ k, k < polls st → length (accepted doc k) < max)
    ∧ (max ≤ length (accepted doc (polls st)) →
       terminal max st = Some Complete ∧ length recs = max).
Proof.
  destruct (collectTransactions_result max doc) as (st & Hrun & HI & _ & Hres).
  exists st, (take max (accepted doc (polls st))).
  split; [done|]. split; [done|]. split; [done|].
  split. { etrans; [apply sublist_take|apply firstByKey_sublist]. }
  split. { rewrite length_take. lia. }
  destruct HI as (Hrec & _ & _ & Hbelow & _).
  split; [done|]. intros Hmax. unfold terminal. rewrite Hrec, length_take.
  rewrite Nat.min_l by done. by rewrite Nat.leb_refl.
Qed.

(** C2, as the code has it.  When the records accepted from the first [n]
    queries are fewer than [max] and the next [STALL_LIMIT] queries add no
    new record, the loop stops as stalled after at most [n + STALL_LIMIT]
    iterations. *)
Theorem collector_stalls_after_limit_polls_without_new_record
    (max : nat) (doc : Document) (n : nat) :
  length (accepted doc n) < max →
  length (accepted doc (n + STALL_LIMIT)) = length (accepted doc n) →
  ∃ st, collectRun max doc = Some st
        ∧ terminal max st = Some Stalled
        ∧ polls st ≤ n + STALL_LIMIT.
Proof.
  intros Hlt Hwin.
  destruct (collectRun_stops max doc) as (st & Hrun & HI & Hterm).
  exists st. split; [done|].
  assert (Hp : polls st ≤ n + STALL_LIMIT).
  { apply (collectLoop_window max doc n (collectFuel max) initialCollector st
             Hwin (collectorInv_initial max doc)); [simpl; lia|exact Hrun]. }
  split; [|done].
  destruct HI as (Hrec & _).
  pose proof (accepted_length_mono doc (polls st) (n + STALL_LIMIT) Hp) as Hmono.
  unfold terminal in *. rewrite Hrec, length_take in *.
  destruct (Nat.leb_spec max (Nat.min max (length (accepted doc (polls st)))));
    [lia|].
  destruct (STALL_LIMIT <=? stallCount st); [done|]. by destruct Hterm.
Qed.

(** The loop never runs forever: it stops within [collectFuel max]
    iterations on every document. *)
Lemma collector_always_stops (max : nat) (doc : Document) :
  ∃ st, collectRun max doc = Some st ∧ is_Some (terminal max st).
Proof.
  destruct (collectRun_stops max doc) as (st & Hrun & _ & Hterm). eauto.
Qed.

Lemma rollingDocument_run :
  (fun st => (terminal MAX_TRANSACTIONS st, polls st, length (records st)))
    <$> collectRun MAX_TRANSACTIONS rollingDocument
  = Some (Some Stalled, 28, 20).
Proof. vm_compute. reflexivity. Qed.

(** C2 as stated fails: a document whose entry count never grows can keep
    the collector going for more than [STALL_LIMIT] iterations.  On the
    rolling document every query returns exactly one entry, and the loop
    makes 28 iterations before it stops. *)
Lemma constant_entry_count_does_not_stall_within_limit :
  (∀ i, length (rollingDocument i) = 1)
  ∧ ∃ st, collectRun MAX_TRANSACTIONS rollingDocument = Some st
          ∧ terminal MAX_TRANSACTIONS st = Some Stalled
          ∧ polls st = 28
          ∧ STALL_LIMIT < polls st.
Proof.
  split; [done|].
  pose proof rollingDocument_run as Hc.
  destruct (collectRun MAX_TRANSACTIONS rollingDocument) as [st|]; [|done].
  injection Hc as Hterm Hpolls _. exists st. rewrite Hpolls.
  split; [done|]. split; [done|]. split; [done|]. unfold STALL_LIMIT. lia.
Qed.

Lemma collector_stalls_after_limit_polls_without_new_record_witness :
  ∃ st, collectRun MAX_TRANSACTIONS rollingDocument = Some st
        ∧ terminal MAX_TRANSACTIONS st = Some Stalled
        ∧ polls st ≤ 20 + STALL_LIMIT.
Proof.
  apply (collector_stalls_after_limit_polls_without_new_record
           MAX_TRANSACTIONS rollingDocument 20).
  - vm_compute. lia.
  - vm_compute. reflexivity.
Defined.

End Collector.

(** ** The enricher *)

Section UniqFacts.
Context {A : Type} `{EqDecision A}.

Lemma uniq_from_elem_of (seen xs : list A) x :
  x ∈ uniq_from seen xs ↔ x ∈ xs ∧ x ∉ seen.
Proof.
  revert seen. induction xs as [|y xs IH]; intros seen; simpl.
  - split; [by intros ?%elem_of_nil|]. by intros [?%elem_of_nil _].
  - destruct (decide (y ∈ seen)) as [Hy|Hy].
    + rewrite IH, elem_of_cons. split; [naive_solver|].
      intros [[->|Hx] Hn]; [done|]. done.
    + rewrite !elem_of_cons, IH, elem_of_cons.
      destruct (decide (x = y)) as [->|Hne]; naive_solver.
Qed.

Lemma uniq_from_NoDup (seen xs : list A) : NoDup (uniq_from seen xs).
Proof.
  revert seen. induction xs as [|y xs IH]; intros seen; simpl; [constructor|].
  destruct (decide (y ∈ seen)); [apply IH|].
  constructor; [|apply IH]. rewrite uniq_from_elem_of, elem_of_cons. naive_solver.
Qed.

Lemma uniq_from_ext (s1 s2 xs : list A) :
  (∀ x, x ∈ s1 ↔ x ∈ s2) → uniq_from s1 xs = uniq_from s2 xs.
Proof.
  revert s1 s2. induction xs as [|y xs IH]; intros s1 s2 Hs; simpl; [done|].
  destruct (decide (y ∈ s1)) as [H1|H1], (decide (y ∈ s2)) as [H2|H2].
  - by apply IH.
  - by apply Hs in H1.
  - by apply Hs in H2.
  - f_equal. apply IH. intros x. rewrite !elem_of_cons. by rewrite Hs.
Qed.

Lemma uniq_from_app (seen xs ys : list A) :
  uniq_from seen (xs ++ ys) = uniq_from seen xs ++ uniq_from (xs ++ seen) ys.
Proof.
  revert seen. induction xs as [|x xs IH]; intros seen; simpl; [done|].
  destruct (decide (x ∈ seen)) as [Hx|Hx].
  - rewrite IH. f_equal. apply uniq_from_ext. intros y.
    rewrite !elem_of_app, !elem_of_cons, elem_of_app. naive_solver.
  - simpl. rewrite IH. do 2 f_equal. apply uniq_from_ext. intros y.
    rewrite !elem_of_app, !elem_of_cons, elem_of_app. naive_solver.
Qed.

(** The distinct elements come out in the order of their first
    occurrences. *)
Lemma uniq_first_occurrence (l1 l2 : list A) k :
  k ∉ l1 → ∃ rest, uniq (l1 ++ k :: l2) = uniq l1 ++ k :: rest.
Proof.
  intros Hk. unfold uniq. rewrite uniq_from_app. simpl.
  rewrite app_nil_r. destruct (decide (k ∈ l1)); [done|]. eauto.
Qed.

Lemma uniq_elem_of (xs : list A) x : x ∈ uniq xs ↔ x ∈ xs.
Proof.
  unfold uniq. rewrite uniq_from_elem_of. split; [naive_solver|].
  intros Hx. split; [done|]. apply not_elem_of_nil.
Qed.

Lemma uniq_NoDup (xs : list A) : NoDup (uniq xs).
Proof. apply uniq_from_NoDup. Qed.

End UniqFacts.

Lemma uniqueOrders_elem_of rows k :
  k ∈ uniqueOrders rows ↔ k ≠ [] ∧ ∃ row, row ∈ rows ∧ orderNumber row = k.
Proof.
  unfold uniqueOrders. rewrite uniq_elem_of, list_elem_of_In, filter_In.
  rewrite <- list_elem_of_In, list_elem_of_fmap. split.
  - intros [(row & -> & Hin) Ht]. split; [|eauto].
    intros Heq. by rewrite Heq in Ht.
  - intros [Hne (row & Hin & <-)]. split; [eauto|].
    by destruct (orderNumber row).
Qed.

Lemma uniqueOrders_truthy rows :
  Forall (fun k => truthy k = true) (uniqueOrders rows).
Proof.
  apply Forall_forall. intros k [Hne _]%uniqueOrders_elem_of. by destruct k.
Qed.

Section EnricherFacts.
Context {World : Type} (browser : Browser World).

Lemma enrichLoop_cons key orders total cache done e :
  truthy key = true →
  enrichLoop browser (key :: orders) total cache done e
  = enrichLoop browser orders total
      (<[key := productsOf browser (network browser (getOrderDetailsUrl browser key) (world e)).1]> cache)
      (done + 1) (stepEffects browser key done total e).
Proof.
  intros Hkey. cbn [enrichLoop]. unfold mbind, async_bind at 1.
  unfold try_catch, fetchOrderProducts. rewrite Hkey. cbn [negb].
  unfold mbind, async_bind, fetch, stepEffects.
  destruct (network browser (getOrderDetailsUrl browser key) (world e)) as [outcome w] eqn:Hnet.
  cbn [fst]. destruct outcome as [|[] [html|]]; cbn; rewrite ?app_nil_r; try done.
  unfold call. destruct (parseProductsFromOrderHtml browser html); cbn;
    by rewrite ?app_nil_r.
Qed.

Lemma stepEffects_world key done total e :
  world (stepEffects browser key done total e)
  = (network browser (getOrderDetailsUrl browser key) (world e)).2.
Proof. unfold stepEffects. by destruct (network _ _ _). Qed.

Lemma stepEffects_requests key done total e :
  requests (stepEffects browser key done total e)
  = requests e ++ [getOrderDetailsUrl browser key].
Proof. unfold stepEffects. by destruct (network _ _ _). Qed.

(** The loop never throws; it issues one request per key, in order, and
    leaves in the cache what each answer gives. *)
Lemma enrichLoop_spec orders total cache done e :
  Forall (fun k => truthy k = true) orders →
  ∃ cache' e',
    enrichLoop browser orders total cache done e = (Value cache', e')
    ∧ requests e' = requests e ++ (getOrderDetailsUrl browser <$> orders)
    ∧ (∀ k, k ∉ orders → cache' !! k = cache !! k)
    ∧ (∀ k, k ∈ orders → is_Some (cache' !! k))
    ∧ (NoDup orders →
       ∀ i key outcome,
         orders !! i = Some key →
         outcomes browser (getOrderDetailsUrl browser <$> orders) (world e) !! i
           = Some outcome →
         cache' !! key = Some (productsOf browser outcome)).
Proof.
  revert cache done e. induction orders as [|key orders IH];
    intros cache done e Htruthy.
  - exists cache, e. simpl. split; [done|]. split; [by rewrite app_nil_r|].
    split; [done|]. split; [by intros k ?%elem_of_nil|]. by intros _ [|i] ???.
  - apply Forall_cons in Htruthy as [Hkey Htruthy].
    rewrite enrichLoop_cons by done.
    set (cache1 := <[key := _]> cache).
    set (e1 := stepEffects browser key done total e).
    destruct (IH cache1 (done + 1) e1 Htruthy)
      as (cache' & e' & Hrun & Hreq & Hother & Hin & Hout).
    exists cache', e'. split; [done|].
    split. { rewrite Hreq. unfold e1. rewrite stepEffects_requests.
             by rewrite <- app_assoc. }
    split. { intros k [Hne Hk]%not_elem_of_cons. rewrite Hother by done.
             unfold cache1. by rewrite lookup_insert_ne. }
    split. { intros k [->|Hk]%elem_of_cons; [|by apply Hin].
             destruct (decide (key ∈ orders)); [by apply Hin|].
             rewrite Hother by done. unfold cache1.
             rewrite lookup_insert_eq. eauto. }
    intros [Hfresh Hnd]%NoDup_cons i k outcome Hi Ho.
    cbn [fmap list_fmap outcomes] in Ho.
    destruct (network browser (getOrderDetailsUrl browser key) (world e))
      as [outcome0 w] eqn:Hnet.
    destruct i as [|i]; simpl in Hi, Ho.
    + injection Hi as <-. injection Ho as <-.
      rewrite Hother by done. unfold cache1. rewrite ?Hnet. simpl.
      by rewrite lookup_insert_eq.
    + apply (Hout Hnd i k outcome Hi). unfold e1.
      rewrite stepEffects_world, ?Hnet. done.
Qed.

Lemma withProducts_fields cache row :
  compositeKey (withProducts cache row) = compositeKey row.
Proof. done. Qed.

(** The enricher as a whole. *)
Lemma enrich_spec rows e :
  ∃ cache e',
    enrichTransactionsWithProducts browser rows e
      = (Value (withProducts cache <$> rows), e')
    ∧ requests e' = requests e ++ (getOrderDetailsUrl browser <$> uniqueOrders rows)
    ∧ cache !! [] = None
    ∧ (∀ i key outcome,
         uniqueOrders rows !! i = Some key →
         outcomes browser (getOrderDetailsUrl browser <$> uniqueOrders rows)
                  (world e) !! i = Some outcome →
         cache !! key = Some (productsOf browser outcome)).
Proof.
  destruct (enrichLoop_spec (uniqueOrders rows) (length (uniqueOrders rows)) ∅ 0 e
              (uniqueOrders_truthy rows))
    as (cache & e' & Hrun & Hreq & Hother & _ & Hout).
  exists cache, e'. unfold enrichTransactionsWithProducts.
  unfold mbind, async_bind. rewrite Hrun. split; [done|]. split; [done|].
  split. { rewrite Hother; [done|]. by intros [? _]%uniqueOrders_elem_of. }
  apply Hout. apply uniq_NoDup.
Qed.

(** C3. The enricher returns; the requests it issues are those of the
    distinct non-empty order numbers of the records, one each, in the order
    of their first occurrences; two returned records with the same order
    number carry the same products; a record with an empty order number
    carries none; and the records are otherwise unchanged. *)
Theorem enricher_fetches_each_order_once_and_shares_products
    (rows : list Tx) (e : Effects World) :
  ∃ rows' e',
    enrichTransactionsWithProducts browser rows e = (Value rows', e')
    ∧ requests e' = requests e ++ (getOrderDetailsUrl browser <$> uniqueOrders rows)
    ∧ NoDup (uniqueOrders rows)
    ∧ (∀ k, k ∈ uniqueOrders rows
            ↔ k ≠ [] ∧ ∃ row, row ∈ rows ∧ orderNumber row = k)
    ∧ (∀ l1 k l2,
         List.filter truthy (orderNumber <$> rows) = l1 ++ k :: l2 → k ∉ l1 →
         ∃ rest, uniqueOrders rows = uniq l1 ++ k :: rest)
    ∧ compositeKey <$> rows' = compositeKey <$> rows
    ∧ (∀ r1 r2, r1 ∈ rows' → r2 ∈ rows' →
                orderNumber r1 = orderNumber r2 → products r1 = products r2)
    ∧ (∀ r, r ∈ rows' → orderNumber r = [] → products r = []).
Proof.
  destruct (enrich_spec rows e) as (cache & e' & Hrun & Hreq & Hempty & _).
  exists (withProducts cache <$> rows), e'.
  split; [done|]. split; [done|]. split; [apply uniq_NoDup|].
  split; [apply uniqueOrders_elem_of|].
  split. { intros l1 k l2 Heq Hk. unfold uniqueOrders. rewrite Heq.
           by apply uniq_first_occurrence. }
  split. { rewrite <- list_fmap_compose. by apply list_fmap_ext. }
  split.
  - intros r1 r2 (x1 & -> & _)%list_elem_of_fmap (x2 & -> & _)%list_elem_of_fmap.
    simpl. by intros ->.
  - intros r (x & -> & _)%list_elem_of_fmap. simpl. intros Hr.
    replace (cache !! orderNumber x) with (@None (list jsstring)); [done|].
    rewrite Hr. symmetry. exact Hempty.
Qed.

(** C8. The enricher never throws and issues the requests of all the
    keys, whatever the answers; a key whose fetch fails (rejected request,
    status that is not a success, unreadable body, or a parser that throws)
    leaves every record of that order with an empty product list. *)
Theorem enricher_survives_failed_fetches (rows : list Tx) (e : Effects World) :
  ∃ rows' e',
    enrichTransactionsWithProducts browser rows e = (Value rows', e')
    ∧ length rows' = length rows
    ∧ requests e' = requests e ++ (getOrderDetailsUrl browser <$> uniqueOrders rows)
    ∧ (∀ i key outcome,
         uniqueOrders rows !! i = Some key →
         outcomes browser (getOrderDetailsUrl browser <$> uniqueOrders rows)
                  (world e) !! i = Some outcome →
         ∀ r, r ∈ rows' → orderNumber r = key →
              (fetchFailed browser outcome → products r = [])
              ∧ products r = productsOf browser outcome).
Proof.
  destruct (enrich_spec rows e) as (cache & e' & Hrun & Hreq & _ & Hout).
  exists (withProducts cache <$> rows), e'.
  split; [done|]. split; [by rewrite length_fmap|]. split; [done|].
  intros i key outcome Hi Ho r (x & -> & _)%list_elem_of_fmap. simpl. intros Hk.
  rewrite Hk, (Hout i key outcome Hi Ho). simpl. split; [|done].
  destruct outcome as [|[] [html|]]; simpl; try done.
  by intros ->.
Qed.

End EnricherFacts.

(** The end-to-end example of the specification: two entries of order A1,
    whose page lists Widget, Widget and Gadget. *)
Example exportCsv_two_entries_one_order :
  exportCsv widgetBrowser documentA1 noEffects
  = Some
      (Value (Some
         (js "date,card_details,order_number,total_amount,product_1,product_2"
            ++ [LF] ++ js "2024-01-05,Visa,A1,10.00,Widget,Gadget"
            ++ [LF] ++ js "2024-01-05,Visa,A1,-5.00,Widget,Gadget")),
       mkEffects () [js "https://www.amazon.com/your-orders/order-details?orderID=A1"]
                 [] [(1, 1)]).
Proof. vm_compute. reflexivity. Qed.

(** With every request rejected the export still comes out, without
    products. *)
Example exportCsv_offline :
  exportCsv offlineBrowser documentA1 noEffects
  = Some
      (Value (Some
         (js "date,card_details,order_number,total_amount"
            ++ [LF] ++ js "2024-01-05,Visa,A1,10.00"
            ++ [LF] ++ js "2024-01-05,Visa,A1,-5.00")),
       mkEffects () [js "https://www.amazon.com/your-orders/order-details?orderID=A1"]
                 [js "A1"] [(1, 1)]).
Proof. vm_compute. reflexivity. Qed.

(** ** Characters and white space *)

(** Turn the tests of the character classes into arithmetic. *)
Ltac char_arith :=
  unfold is_digit_or_comma, is_order_char, is_digit, is_alpha, is_space, is_sign,
    is_currency_symbol, upper, in_range, SP, QUOTE, COMMA, LF, DOT, HASH, PIPE in *;
  repeat match goal with
    | H : context [if ?b then _ else _] |- _ => destruct b eqn:?
    | |- context [if ?b then _ else _] => destruct b eqn:?
    end;
  rewrite ?orb_true_iff, ?orb_false_iff, ?andb_true_iff, ?andb_false_iff,
    ?negb_true_iff, ?negb_false_iff,
    ?N.leb_le, ?N.leb_gt, ?N.eqb_eq, ?N.eqb_neq in *;
  try lia.

Lemma digit_not_space c : is_digit c = true → is_space c = false.
Proof. intros H. destruct (is_space c) eqn:E; [|done]. exfalso. char_arith. Qed.

Lemma digit_not_sign c : is_digit c = true → is_sign c = false.
Proof. intros H. destruct (is_sign c) eqn:E; [|done]. exfalso. char_arith. Qed.

Lemma space_not_sign c : is_space c = true → is_sign c = false.
Proof. intros H. destruct (is_sign c) eqn:E; [|done]. exfalso. char_arith. Qed.

Lemma alpha_not_space c : is_alpha c = true → is_space c = false.
Proof. intros H. destruct (is_space c) eqn:E; [|done]. exfalso. char_arith. Qed.

Lemma alpha_not_digit c : is_alpha c = true → is_digit c = false.
Proof. intros H. destruct (is_digit c) eqn:E; [|done]. exfalso. char_arith. Qed.

Lemma whitespace_app ws1 ws2 : whitespace ws1 → whitespace ws2 → whitespace (ws1 ++ ws2).
Proof. apply Forall_app_2. Qed.

Lemma trimStart_split s : ∃ ws, s = ws ++ trimStart s ∧ whitespace ws.
Proof.
  induction s as [|c s (ws & Heq & Hws)]; simpl.
  - exists []. split; [done|constructor].
  - destruct (is_space c) eqn:Hc.
    + exists (c :: ws). split; [by rewrite Heq at 1|by constructor].
    + exists []. split; [done|constructor].
Qed.

Lemma trimStart_id s :
  match s with c :: _ => is_space c = false | [] => True end → trimStart s = s.
Proof. destruct s as [|c s]; simpl; [done|]. by intros ->. Qed.

Lemma trimStart_whitespace ws s : whitespace ws → trimStart (ws ++ s) = trimStart s.
Proof.
  induction 1 as [|c ws Hc _ IH]; simpl; [done|]. by rewrite Hc.
Qed.

Lemma trimEnd_split s : ∃ ws, s = trimEnd s ++ ws ∧ whitespace ws.
Proof.
  unfold trimEnd. destruct (trimStart_split (rev s)) as (ws & Heq & Hws).
  exists (rev ws). split.
  - rewrite <- rev_app_distr, <- Heq. by rewrite rev_involutive.
  - unfold whitespace in *. rewrite Forall_forall in *. intros c Hc. apply Hws.
    by rewrite list_elem_of_In, in_rev, <- list_elem_of_In.
Qed.

Lemma trimEnd_id s c : is_space c = false → trimEnd (s ++ [c]) = s ++ [c].
Proof.
  intros Hc. unfold trimEnd. rewrite rev_app_distr. simpl. rewrite Hc.
  simpl. by rewrite rev_involutive.
Qed.

Lemma elem_of_replace_spaces b s c :
  c ∈ replace_spaces b s → c ∈ s ∨ c = SP.
Proof.
  revert b. induction s as [|x s IH]; intros b; simpl; [by intros ?%elem_of_nil|].
  rewrite elem_of_cons. destruct (is_space x), b; rewrite ?elem_of_cons.
  - intros H%IH. tauto.
  - intros [->|H%IH]; tauto.
  - intros [->|H%IH]; tauto.
  - intros [->|H%IH]; tauto.
Qed.

Lemma replace_spaces_keeps b s c :
  c ∈ s → is_space c = false → c ∈ replace_spaces b s.
Proof.
  intros Hin Hc. revert b. induction s as [|x s IH]; intros b; simpl;
    [by apply elem_of_nil in Hin|].
  apply elem_of_cons in Hin as [<-|Hin].
  - rewrite Hc. apply elem_of_cons. by left.
  - destruct (is_space x), b; rewrite ?elem_of_cons; auto.
Qed.

Lemma elem_of_normalizeSpace s c : c ∈ normalizeSpace s → c ∈ s ∨ c = SP.
Proof.
  unfold normalizeSpace, trim. intros Hc.
  apply (elem_of_replace_spaces false).
  destruct (trimStart_split (replace_spaces false s)) as (ws1 & -> & _).
  destruct (trimEnd_split (trimStart (replace_spaces false s))) as (ws2 & -> & _).
  rewrite !elem_of_app. tauto.
Qed.

Lemma normalizeSpace_keeps s c :
  c ∈ s → is_space c = false → c ∈ normalizeSpace s.
Proof.
  intros Hin Hc. pose proof (replace_spaces_keeps false s c Hin Hc) as H.
  unfold normalizeSpace, trim.
  destruct (trimStart_split (replace_spaces false s)) as (ws1 & Heq1 & Hws1).
  destruct (trimEnd_split (trimStart (replace_spaces false s))) as (ws2 & Heq2 & Hws2).
  rewrite Heq1, Heq2, !elem_of_app in H. unfold whitespace in *.
  rewrite Forall_forall in Hws1, Hws2.
  destruct H as [H|[H|H]]; [apply Hws1 in H; congruence|done|
                             apply Hws2 in H; congruence].
Qed.

(** What [normalizeSpace] returns has white space only as single spaces,
    and none at its ends. *)
Lemma single_spaced_replace_spaces b s :
  single_spaced (replace_spaces b s) = true
  ∧ (b = true →
     match replace_spaces b s with c :: _ => is_space c = false | [] => True end).
Proof.
  revert b. induction s as [|x s IH]; intros b; simpl; [done|].
  destruct (is_space x) eqn:Hx.
  - destruct b.
    + apply IH.
    + destruct (IH true) as [Hs Hh]. specialize (Hh eq_refl). split; [|done].
      simpl. rewrite Hs. destruct (replace_spaces true s); [done|].
      by rewrite Hh.
  - destruct (IH false) as [Hs _]. simpl. rewrite Hx, Hs. done.
Qed.

Lemma single_spaced_app_r s t : single_spaced (s ++ t) = true → single_spaced t = true.
Proof.
  induction s as [|c s IH]; simpl; [done|].
  intros [_ H]%andb_true_iff. by apply IH.
Qed.

Lemma single_spaced_app_l s t : single_spaced (s ++ t) = true → single_spaced s = true.
Proof.
  induction s as [|c s IH]; simpl; [done|].
  intros [Hc H]%andb_true_iff. rewrite (IH H), andb_true_r.
  destruct (is_space c); [|done].
  apply andb_true_iff in Hc as [-> Hn]. simpl. by destruct s.
Qed.

Lemma single_spaced_normalizeSpace s : single_spaced (normalizeSpace s) = true.
Proof.
  unfold normalizeSpace, trim.
  destruct (single_spaced_replace_spaces false s) as [H _].
  destruct (trimStart_split (replace_spaces false s)) as (ws1 & Heq1 & _).
  destruct (trimEnd_split (trimStart (replace_spaces false s))) as (ws2 & Heq2 & _).
  rewrite Heq1 in H. apply single_spaced_app_r in H.
  rewrite Heq2 in H. by apply single_spaced_app_l in H.
Qed.

(** A run of white space inside such a text, before a character that is
    not white space, is one space. *)
Lemma single_spaced_run s ws c t :
  single_spaced (s ++ ws ++ c :: t) = true → whitespace ws → ws ≠ [] →
  is_space c = false → ws = [SP].
Proof.
  intros H Hws Hne Hc. apply single_spaced_app_r in H.
  destruct ws as [|w ws]; [done|]. apply Forall_cons in Hws as [Hw Hws].
  simpl in H. rewrite Hw in H. apply andb_true_iff in H as [H _].
  apply andb_true_iff in H as [Heq Hnext]. apply N.eqb_eq in Heq as ->.
  destruct ws as [|w2 ws]; [done|]. apply Forall_cons in Hws as [Hw2 _].
  simpl in Hnext. by rewrite Hw2 in Hnext.
Qed.

(** ** The matcher *)

Section Matcher.
Context (n : nat).

Lemma elem_of_run_Cat r1 r2 st st' :
  st' ∈ run n (r1 ~> r2) st ↔ ∃ m, m ∈ run n r1 st ∧ st' ∈ run n r2 m.
Proof. cbn [run]. rewrite list_elem_of_bind. naive_solver. Qed.

Lemma run_Or r1 r2 st : run n (Or r1 r2) st = run n r1 st ++ run n r2 st.
Proof. done. Qed.

Lemma elem_of_run_Capture i r st st' :
  st' ∈ run n (Capture i r) st ↔
  ∃ m, m ∈ run n r st
       ∧ st' = MState (rest m)
                 (<[i := Some (take (length (rest st) - length (rest m)) (rest st))]>
                    (caps m)).
Proof. cbn [run]. rewrite list_elem_of_fmap. naive_solver. Qed.

(** A greedy star of a class tries the longest run of the class first and
    then gives the characters back one at a time. *)
Lemma star_loop_class p fuel s cs :
  length s ≤ fuel →
  star_loop (run n (Class p)) fuel (MState s cs) = star_class_results p s cs.
Proof.
  revert s. induction fuel as [|fuel IH]; intros s Hlen.
  - destruct s; [done|simpl in Hlen; lia].
  - cbn [star_loop]. destruct s as [|c s]; cbn [run rest caps star_class_results].
    + done.
    + destruct (p c) eqn:Hp; [|done].
      rewrite filter_cons_True by (simpl; lia). rewrite filter_nil.
      cbn [mbind list_bind]. rewrite app_nil_r.
      rewrite IH by (simpl in Hlen; lia). done.
Qed.

Lemma run_Star_class p s cs :
  run n (Star (Class p)) (MState s cs) = star_class_results p s cs.
Proof. cbn [run rest]. by apply star_loop_class. Qed.

Lemma head_star_class_results p s cs :
  head (star_class_results p s cs) = Some (MState (skip p s) cs).
Proof.
  induction s as [|c s IH]; simpl; [done|].
  destruct (p c); [|done].
  destruct (star_class_results p s cs); [done|]. simpl in *. done.
Qed.

Lemma skip_app p w s :
  Forall (fun c => p c = true) w →
  match s with c :: _ => p c = false | [] => True end →
  skip p (w ++ s) = s.
Proof.
  intros Hw Hs. induction Hw as [|c w Hc _ IH]; simpl.
  - destruct s as [|c s]; [done|]. simpl. by rewrite Hs.
  - by rewrite Hc.
Qed.

(** What a match consumes is a word of the pattern; the groups the pattern
    does not have keep their value. *)
Lemma run_sound r st st' :
  st' ∈ run n r st →
  ∃ w, rest st = w ++ rest st' ∧ lang r w
       ∧ length (caps st') = length (caps st)
       ∧ ∀ i, capture_free i r = true → caps st' !! i = caps st !! i.
Proof.
  revert st st'. induction r as [|p|r1 IH1 r2 IH2|r1 IH1 r2 IH2|r IH|j r IH| |];
    intros st st' Hin; cbn [run] in Hin.
  - apply list_elem_of_singleton in Hin as ->. by exists [].
  - destruct (rest st) as [|c s] eqn:Hs; [by apply elem_of_nil in Hin|].
    destruct (p c) eqn:Hp; [|by apply elem_of_nil in Hin].
    apply list_elem_of_singleton in Hin as ->. exists [c]. simpl. eauto 10.
  - apply list_elem_of_bind in Hin as (m & H2 & H1).
    destruct (IH1 _ _ H1) as (u & Hu & Hlu & Hcu & Hfu).
    destruct (IH2 _ _ H2) as (v & Hv & Hlv & Hcv & Hfv).
    exists (u ++ v). rewrite Hu, Hv, app_assoc. split; [done|].
    split; [simpl; eauto|]. split; [congruence|].
    intros i [H1i H2i]%andb_true_iff. by rewrite Hfv, Hfu.
  - apply elem_of_app in Hin as [Hin|Hin].
    + destruct (IH1 _ _ Hin) as (w & Hw & Hl & Hc & Hf). exists w.
      split; [done|]. split; [by left|]. split; [done|].
      intros i [H1i H2i]%andb_true_iff. by apply Hf.
    + destruct (IH2 _ _ Hin) as (w & Hw & Hl & Hc & Hf). exists w.
      split; [done|]. split; [by right|]. split; [done|].
      intros i [H1i H2i]%andb_true_iff. by apply Hf.
  - generalize dependent (length (rest st)). intros fuel. revert st st'.
    induction fuel as [|fuel IHf]; intros st st' Hin; cbn [star_loop] in Hin.
    + apply list_elem_of_singleton in Hin as ->. exists []. simpl.
      split; [done|]. split; [by exists []|]. done.
    + apply elem_of_app in Hin as [Hin|Hin].
      * apply list_elem_of_bind in Hin as (m & H2 & H1).
        apply list_elem_of_filter in H1 as [_ H1].
        destruct (IH _ _ H1) as (u & Hu & Hlu & Hcu & Hfu).
        destruct (IHf _ _ H2) as (v & Hv & (vs & -> & Hvs) & Hcv & Hfv).
        exists (u ++ concat vs). rewrite Hu, Hv, app_assoc. split; [done|].
        split; [exists (u :: vs); split; [done|by constructor]|].
        split; [congruence|]. intros i Hi. simpl in Hi. by rewrite Hfv, Hfu.
      * apply list_elem_of_singleton in Hin as ->. exists []. simpl.
        split; [done|]. split; [by exists []|]. done.
  - apply list_elem_of_fmap in Hin as (m & -> & Hin).
    destruct (IH _ _ Hin) as (w & Hw & Hl & Hc & Hf). exists w. simpl.
    split; [done|]. split; [done|]. split; [by rewrite length_insert|].
    intros i [Hij Hi]%andb_true_iff. apply negb_true_iff, Nat.eqb_neq in Hij.
    rewrite list_lookup_insert_ne by done. by apply Hf.
  - case_bool_decide; [|by apply elem_of_nil in Hin].
    apply list_elem_of_singleton in Hin as ->. by exists [].
  - destruct (rest st) eqn:Hs; [|by apply elem_of_nil in Hin].
    apply list_elem_of_singleton in Hin as ->. by exists [].
Qed.

Lemma take_consumed (w s : jsstring) : take (length (w ++ s) - length s) (w ++ s) = w.
Proof.
  rewrite length_app. replace (length w + length s - length s) with (length w) by lia.
  apply take_app_length.
Qed.

(** A capturing group records the word its pattern consumed. *)
Lemma run_Capture_sound i r st st' :
  st' ∈ run n (Capture i r) st → i < length (caps st) →
  ∃ w, rest st = w ++ rest st' ∧ lang r w
       ∧ caps st' !! i = Some (Some w)
       ∧ length (caps st') = length (caps st)
       ∧ ∀ j, j ≠ i → capture_free j r = true → caps st' !! j = caps st !! j.
Proof.
  intros (m & Hin & ->)%elem_of_run_Capture Hi.
  destruct (run_sound _ _ _ Hin) as (w & Hw & Hl & Hc & Hf). exists w. simpl.
  split; [done|]. split; [done|].
  split. { rewrite Hw, take_consumed. apply list_lookup_insert_eq.
           eapply Nat.lt_le_trans; [exact Hi|]. by apply Nat.eq_le_incl. }
  split; [by rewrite length_insert|].
  intros j Hj Hfree. rewrite list_lookup_insert_ne by done. by apply Hf.
Qed.

Lemma run_Bol_inv st st' :
  st' ∈ run n Bol st → st' = st ∧ length (rest st) = n.
Proof.
  cbn [run]. case_bool_decide; [|by intros ?%elem_of_nil].
  by intros ->%list_elem_of_singleton.
Qed.

Lemma run_Eol_inv st st' : st' ∈ run n Eol st → st' = st ∧ rest st = [].
Proof.
  cbn [run]. destruct (rest st); [|by intros ?%elem_of_nil].
  by intros ->%list_elem_of_singleton.
Qed.

(** The match the engine reports: the head of the list. *)
Lemma first_Cat r1 r2 st m st' :
  head (run n r1 st) = Some m → head (run n r2 m) = Some st' →
  head (run n (r1 ~> r2) st) = Some st'.
Proof.
  cbn [run]. destruct (run n r1 st) as [|m' l]; [done|]. intros [= ->].
  cbn [mbind list_bind]. destruct (run n r2 m); [done|]. by intros [= ->].
Qed.

Lemma first_Class p c s cs :
  p c = true → head (run n (Class p) (MState (c :: s) cs)) = Some (MState s cs).
Proof. intros Hp. cbn [run rest caps]. by rewrite Hp. Qed.

Lemma run_Class_nil p s cs :
  match s with c :: _ => p c = false | [] => True end →
  run n (Class p) (MState s cs) = [].
Proof. cbn [run rest]. destruct s as [|c s]; [done|]. by intros ->. Qed.

Lemma first_Star_class p w s cs :
  Forall (fun c => p c = true) w →
  match s with c :: _ => p c = false | [] => True end →
  head (run n (Star (Class p)) (MState (w ++ s) cs)) = Some (MState s cs).
Proof.
  intros Hw Hs. rewrite run_Star_class, head_star_class_results.
  by rewrite skip_app.
Qed.

Lemma first_Or_l r1 r2 st st' :
  head (run n r1 st) = Some st' → head (run n (Or r1 r2) st) = Some st'.
Proof. cbn [run]. destruct (run n r1 st); [done|]. by intros [= ->]. Qed.

Lemma first_Or_r r1 r2 st st' :
  run n r1 st = [] → head (run n r2 st) = Some st' →
  head (run n (Or r1 r2) st) = Some st'.
Proof. cbn [run]. by intros ->. Qed.

Lemma first_Opt_skip r st : run n r st = [] → head (run n (Opt r) st) = Some st.
Proof. intros H. by apply first_Or_r. Qed.

Lemma first_Opt_total r st : is_Some (head (run n (Opt r) st)).
Proof. unfold Opt. cbn [run]. destruct (run n r st); simpl; eauto. Qed.

Lemma first_Capture i r st m :
  head (run n r st) = Some m →
  head (run n (Capture i r) st)
  = Some (MState (rest m)
            (<[i := Some (take (length (rest st) - length (rest m)) (rest st))]>
               (caps m))).
Proof. cbn [run]. destruct (run n r st); [done|]. by intros [= ->]. Qed.

Lemma first_Star_skip p s cs :
  head (run n (Star (Class p)) (MState s cs)) = Some (MState (skip p s) cs).
Proof. by rewrite run_Star_class, head_star_class_results. Qed.

Lemma first_Bol s cs :
  length s = n → head (run n Bol (MState s cs)) = Some (MState s cs).
Proof. intros H. cbn [run rest]. by rewrite bool_decide_true. Qed.

Lemma first_Eol cs : head (run n Eol (MState [] cs)) = Some (MState [] cs).
Proof. done. Qed.

Lemma first_Empty st : head (run n Empty st) = Some st.
Proof. done. Qed.

(** A literal word under the [i] flag. *)
Lemma run_WordI lit w s cs :
  upper <$> w = upper <$> lit →
  run n (WordI lit) (MState (w ++ s) cs) = [MState s cs].
Proof.
  revert w. induction lit as [|c lit IH]; intros w Hw.
  - apply fmap_nil_inv in Hw as ->. done.
  - destruct w as [|x w]; [done|]. injection Hw as Hx Hw.
    cbn [WordI run rest caps app]. unfold ChrI at 1. cbn [run rest caps].
    rewrite Hx, N.eqb_refl. cbn [mbind list_bind]. rewrite (IH w Hw). done.
Qed.

Lemma run_WordI_nil c lit s cs :
  match s with x :: _ => upper x ≠ upper c | [] => True end →
  run n (WordI (c :: lit)) (MState s cs) = [].
Proof.
  intros Hs. cbn [WordI run]. unfold ChrI. rewrite run_Class_nil; [done|].
  destruct s as [|x s]; [done|]. by apply N.eqb_neq.
Qed.

Section Search.
Context (groups : nat) (r : regex).

Lemma search_first s st :
  head (run n r (MState s (replicate (S groups) None))) = Some st →
  search n groups r s = Some st.
Proof.
  destruct s; cbn [search];
    destruct (run n r _); simpl; congruence.
Qed.

Lemma search_Some s st :
  search n groups r s = Some st →
  ∃ pre t, s = pre ++ t ∧ st ∈ run n r (MState t (replicate (S groups) None)).
Proof.
  induction s as [|c s IH]; cbn [search].
  - destruct (run n r _) as [|x l] eqn:Hrun; [done|]. intros [= ->].
    exists [], []. rewrite Hrun. split; [done|]. by left.
  - destruct (run n r _) as [|x l] eqn:Hrun.
    + intros (pre & t & -> & Hin)%IH. by exists (c :: pre), t.
    + intros [= ->]. exists [], (c :: s). rewrite Hrun. split; [done|]. by left.
Qed.

Lemma search_None s :
  (∀ pre t, s = pre ++ t → run n r (MState t (replicate (S groups) None)) = []) →
  search n groups r s = None.
Proof.
  induction s as [|c s IH]; intros H; cbn [search].
  - by rewrite (H [] []).
  - rewrite (H [] (c :: s)) by done. apply IH. intros pre t ->.
    by apply (H (c :: pre) t).
Qed.

Lemma search_found pre t :
  run n r (MState t (replicate (S groups) None)) ≠ [] →
  is_Some (search n groups r (pre ++ t)).
Proof.
  intros Hne. induction pre as [|c pre IH]; cbn [app].
  - destruct (run n r (MState t (replicate (S groups) None))) as [|x l] eqn:E;
      [done|].
    destruct t; cbn [search]; rewrite E; eauto.
  - cbn [search].
    destruct (run n r (MState (c :: pre ++ t) (replicate (S groups) None)));
      [exact IH|eauto].
Qed.

End Search.

End Matcher.

(** One step along the path the matcher takes first. *)
Ltac first_step :=
  cbn [rest caps];
  lazymatch goal with
  | |- head (run _ (Cat _ _) _) = Some _ => eapply first_Cat
  | |- head (run _ (Class _) (MState (_ :: _) _)) = Some _ => apply first_Class
  | |- head (run _ (Star (Class _)) _) = Some _ => apply first_Star_skip
  | |- head (run _ (Capture _ _) _) = Some _ => eapply first_Capture
  | |- head (run _ Bol _) = Some _ => apply first_Bol
  | |- head (run _ Eol (MState [] _)) = Some _ => apply first_Eol
  | |- head (run _ Empty _) = Some _ => apply first_Empty
  end.

Lemma lang_Star_Class p w :
  lang (Star (Class p)) w → Forall (fun c => p c = true) w.
Proof.
  intros (ws & -> & Hws). induction Hws as [|u ws (c & -> & Hc) _ IH]; simpl.
  - constructor.
  - by constructor.
Qed.

Lemma lang_Plus_Class p w :
  lang (Plus (Class p)) w → w ≠ [] ∧ Forall (fun c => p c = true) w.
Proof.
  intros (u & v & -> & (c & -> & Hc) & Hv%lang_Star_Class).
  split; [done|]. by constructor.
Qed.

Lemma group_lookup (m : list (option jsstring)) i w :
  m !! i = Some (Some w) → group i m = w.
Proof. unfold group. by intros ->. Qed.

(** ** Dates *)

Section Dates.

Lemma length_1_inv {A} (l : list A) : length l = 1 → ∃ a, l = [a].
Proof. destruct l as [|a [|]]; try done. eauto. Qed.

Lemma length_2_inv {A} (l : list A) : length l = 2 → ∃ a b, l = [a; b].
Proof. destruct l as [|a [|b [|]]]; try done. eauto. Qed.

Lemma length_3_inv {A} (l : list A) : length l = 3 → ∃ a b c, l = [a; b; c].
Proof. destruct l as [|a [|b [|c [|]]]]; try done. eauto. Qed.

Lemma length_4_inv {A} (l : list A) : length l = 4 → ∃ a b c d, l = [a; b; c; d].
Proof. destruct l as [|a [|b [|c [|d [|]]]]]; try done. eauto 6. Qed.

Lemma is_space_SP : is_space SP = true.
Proof. reflexivity. Qed.

Lemma is_digit_SP : is_digit SP = false.
Proof. reflexivity. Qed.

(** On a text of the shape the pattern matches, the way the engine tries
    first, with the three parts in its groups. *)
Lemma DATE_REGEX_first text D M Y :
  dateShape text D M Y →
  head (run (length text) DATE_REGEX (MState text (replicate 4 None)))
  = Some (MState [] [None; Some D; Some M; Some Y]).
Proof.
  intros (-> & HD & HlD & HM & HlM & HY & HlY).
  apply length_3_inv in HlM as (a & b & c & ->).
  apply length_4_inv in HlY as (y1 & y2 & y3 & y4 & ->).
  unfold digits, letters in *.
  apply Forall_cons in HM as [Ha HM]. apply Forall_cons in HM as [Hb HM].
  apply Forall_cons in HM as [Hc _].
  apply Forall_cons in HY as [H1 HY]. apply Forall_cons in HY as [H2 HY].
  apply Forall_cons in HY as [H3 HY]. apply Forall_cons in HY as [H4 _].
  unfold DATE_REGEX, Rep1to2, Rep3, Rep4, Plus, digit, space.
  destruct HlD as [HlD|HlD].
  - apply length_1_inv in HlD as (d1 & ->). apply Forall_cons in HD as [Hd1 _].
    cbn [app].
    first_step; [first_step; done|].
    first_step; [first_step; first_step; [first_step; done|]|].
    { apply first_Opt_skip. apply run_Class_nil. reflexivity. }
    first_step; [first_step; [first_step; reflexivity|first_step]|].
    cbn [skip]. rewrite (alpha_not_space a Ha).
    first_step; [first_step; repeat (first_step; [first_step; done|]);
                 first_step; done|].
    first_step; [first_step; [first_step; reflexivity|first_step]|].
    cbn [skip]. rewrite (digit_not_space y1 H1).
    first_step; [first_step; repeat (first_step; [first_step; done|]);
                 first_step; done|].
    first_step.
  - apply length_2_inv in HlD as (d1 & d2 & ->).
    apply Forall_cons in HD as [Hd1 HD]. apply Forall_cons in HD as [Hd2 _].
    cbn [app].
    first_step; [first_step; done|].
    first_step; [first_step; first_step; [first_step; done|]|].
    { apply first_Or_l. first_step. done. }
    first_step; [first_step; [first_step; reflexivity|first_step]|].
    cbn [skip]. rewrite (alpha_not_space a Ha).
    first_step; [first_step; repeat (first_step; [first_step; done|]);
                 first_step; done|].
    first_step; [first_step; [first_step; reflexivity|first_step]|].
    cbn [skip]. rewrite (digit_not_space y1 H1).
    first_step; [first_step; repeat (first_step; [first_step; done|]);
                 first_step; done|].
    first_step.
Qed.

Lemma digit_cases c :
  is_digit c = true →
  c ∈ [48; 49; 50; 51; 52; 53; 54; 55; 56; 57]%N.
Proof.
  intros H.
  assert (c = 48 ∨ c = 49 ∨ c = 50 ∨ c = 51 ∨ c = 52 ∨ c = 53 ∨ c = 54
          ∨ c = 55 ∨ c = 56 ∨ c = 57)%N as Hc by char_arith.
  repeat destruct Hc as [->|Hc]; try subst c; set_solver.
Qed.

(** [String(Number(day)).padStart(2, '0')] on one or two digits. *)
Lemma day_zeroPadded D :
  digits D → length D = 1 ∨ length D = 2 →
  padStart 2 48%N (String_of_nat (Number_of_digits D)) = zeroPadded D.
Proof.
  intros HD [(d1 & ->)%length_1_inv|(d1 & d2 & ->)%length_2_inv].
  - apply Forall_cons in HD as [H1%digit_cases _].
    repeat (apply elem_of_cons in H1 as [->|H1]; [reflexivity|]).
    by apply elem_of_nil in H1.
  - apply Forall_cons in HD as [H1%digit_cases HD].
    apply Forall_cons in HD as [H2%digit_cases _].
    repeat (apply elem_of_cons in H1 as [->|H1];
            [repeat (apply elem_of_cons in H2 as [->|H2]; [reflexivity|]);
             by apply elem_of_nil in H2|]).
    by apply elem_of_nil in H1.
Qed.

Lemma MONTHS_truthy (M mm : jsstring) : MONTHS !! M = Some mm → truthy mm = true.
Proof.
  intros H. apply elem_of_list_to_map_2 in H.
  repeat (apply elem_of_cons in H as [[= _ ->]|H]; [reflexivity|]).
  by apply elem_of_nil in H.
Qed.

(** Every match of the pattern starts at the start of the text, ends at
    its end, and splits it into day, month and year. *)
Lemma DATE_REGEX_sound pre t st :
  st ∈ run (length (pre ++ t)) DATE_REGEX (MState t (replicate 4 None)) →
  pre = []
  ∧ ∃ D ws1 M ws2 Y,
      t = D ++ ws1 ++ M ++ ws2 ++ Y
      ∧ digits D ∧ (length D = 1 ∨ length D = 2)
      ∧ whitespace ws1 ∧ ws1 ≠ []
      ∧ letters M ∧ length M = 3
      ∧ whitespace ws2 ∧ ws2 ≠ []
      ∧ digits Y ∧ length Y = 4
      ∧ caps st !! 1 = Some (Some D)
      ∧ caps st !! 2 = Some (Some M)
      ∧ caps st !! 3 = Some (Some Y).
Proof.
  unfold DATE_REGEX.
  intros (m0 & [-> Hlen]%run_Bol_inv & H)%elem_of_run_Cat.
  apply elem_of_run_Cat in H as (m1 & H1 & H).
  apply elem_of_run_Cat in H as (m2 & H2 & H).
  apply elem_of_run_Cat in H as (m3 & H3 & H).
  apply elem_of_run_Cat in H as (m4 & H4 & H).
  apply elem_of_run_Cat in H as (m5 & H5 & [-> Hend]%run_Eol_inv).
  apply run_Capture_sound in H1 as (D & HrD & HlD & HcD & Hn1 & Hk1);
    [|simpl; lia].
  apply run_sound in H2 as (ws1 & Hr1 & Hl1 & Hn2 & Hk2).
  apply run_Capture_sound in H3 as (M & HrM & HlM & HcM & Hn3 & Hk3);
    [|rewrite Hn2, Hn1; simpl; lia].
  apply run_sound in H4 as (ws2 & Hr2 & Hl2 & Hn4 & Hk4).
  apply run_Capture_sound in H5 as (Y & HrY & HlY & HcY & Hn5 & Hk5);
    [|rewrite Hn4, Hn3, Hn2, Hn1; simpl; lia].
  simpl in Hlen, HrD. split.
  { rewrite length_app in Hlen. destruct pre; [done|simpl in Hlen; lia]. }
  exists D, ws1, M, ws2, Y.
  split. { rewrite HrD, Hr1, HrM, Hr2, HrY, Hend. by rewrite app_nil_r. }
  apply lang_Plus_Class in Hl1 as [Hne1 Hws1], Hl2 as [Hne2 Hws2].
  assert (digits D ∧ (length D = 1 ∨ length D = 2)) as [? ?].
  { destruct HlD as (u & v & -> & (c & -> & Hc) & [(c2 & -> & Hc2)|Hv]).
    - split; [by repeat constructor|by right].
    - simpl in Hv. subst v. split; [by repeat constructor|by left]. }
  assert (letters M ∧ length M = 3) as [? ?].
  { destruct HlM as (u & v & -> & (a & -> & Ha) & (u2 & v2 & -> & (b & -> & Hb)
                       & (c & -> & Hc))).
    split; [by repeat constructor|done]. }
  assert (digits Y ∧ length Y = 4) as [? ?].
  { destruct HlY as (u & v & -> & (a & -> & Ha) & (u2 & v2 & -> & (b & -> & Hb)
                       & (u3 & v3 & -> & (c & -> & Hc) & (d & -> & Hd)))).
    split; [by repeat constructor|done]. }
  repeat (split; [done|]).
  split; [|split; [|done]].
  - etrans; [by apply Hk5|]. etrans; [by apply Hk4|]. etrans; [by apply Hk3|].
    etrans; [by apply Hk2|]. done.
  - etrans; [by apply Hk5|]. etrans; [by apply Hk4|]. done.
Qed.

Lemma DATE_REGEX_exec text D M Y :
  dateShape text D M Y →
  exec 3 DATE_REGEX text = Some [None; Some D; Some M; Some Y].
Proof.
  intros H. unfold exec.
  by rewrite (search_first _ _ _ _ _ (DATE_REGEX_first text D M Y H)).
Qed.

Lemma DATE_REGEX_exec_inv raw m :
  exec 3 DATE_REGEX (normalizeSpace raw) = Some m →
  ∃ D M Y, dateShape (normalizeSpace raw) D M Y
           ∧ group 1 m = D ∧ group 2 m = M ∧ group 3 m = Y.
Proof.
  unfold exec. destruct (search _ _ _ _) as [st|] eqn:Hs; [|done].
  intros [= <-]. apply search_Some in Hs as (pre & t & Htext & Hin).
  rewrite Htext in Hin. apply DATE_REGEX_sound in Hin
    as (-> & D & ws1 & M & ws2 & Y & Ht & HD & HlD & Hws1 & Hne1 & HM & HlM
           & Hws2 & Hne2 & HY & HlY & Hc1 & Hc2 & Hc3).
  simpl in Htext. subst t.
  pose proof (single_spaced_normalizeSpace raw) as Hsp. rewrite Ht in Hsp.
  destruct (length_3_inv M HlM) as (a & b & c & ->).
  destruct (length_4_inv Y HlY) as (y1 & y2 & y3 & y4 & ->).
  assert (ws1 = [SP]) as ->.
  { apply (single_spaced_run D ws1 a ([b; c] ++ ws2 ++ [y1; y2; y3; y4]));
      [done..|].
    apply alpha_not_space. by apply Forall_cons in HM as [? _]. }
  assert (ws2 = [SP]) as ->.
  { apply (single_spaced_run (D ++ [SP] ++ [a; b; c]) ws2 y1 [y2; y3; y4]);
      [by rewrite <- !app_assoc|done..|].
    apply digit_not_space. by apply Forall_cons in HY as [? _]. }
  exists D, [a; b; c], [y1; y2; y3; y4].
  split; [by rewrite Ht|].
  by rewrite (group_lookup _ _ _ Hc1), (group_lookup _ _ _ Hc2),
    (group_lookup _ _ _ Hc3).
Qed.

(** C6, as the code has it.  The shape is looked for in the input after
    [normalizeSpace] (white space trimmed at the ends and collapsed to
    single spaces inside): when that text is one or two digits, a space,
    three letters that are a key of [MONTHS], a space and four digits, the
    result is year-month-day with the day on two digits; in every other
    case it is the empty string. *)
Theorem parseDateToISO_iso_on_normalized_shape_else_empty (raw : jsstring) :
  (∀ D M Y mm : jsstring,
     dateShape (normalizeSpace raw) D M Y → MONTHS !! M = Some mm →
     parseDateToISO raw = Y ++ js "-" ++ mm ++ js "-" ++ zeroPadded D)
  ∧ ((¬ ∃ D M Y : jsstring,
          dateShape (normalizeSpace raw) D M Y ∧ is_Some (MONTHS !! M)) →
     parseDateToISO raw = []).
Proof.
  split.
  - intros D M Y mm Hshape Hmm. unfold parseDateToISO.
    rewrite (DATE_REGEX_exec _ D M Y Hshape).
    change (group 1 [None; Some D; Some M; Some Y]) with D.
    change (group 2 [None; Some D; Some M; Some Y]) with M.
    change (group 3 [None; Some D; Some M; Some Y]) with Y.
    rewrite Hmm, (MONTHS_truthy M mm Hmm).
    destruct Hshape as (_ & HD & HlD & _). by rewrite day_zeroPadded.
  - intros Hno. unfold parseDateToISO.
    destruct (exec 3 DATE_REGEX (normalizeSpace raw)) as [m|] eqn:Hm; [|done].
    apply DATE_REGEX_exec_inv in Hm as (D & M & Y & Hshape & _ & -> & _).
    destruct (MONTHS !! M) as [mm|] eqn:Hmm; [|done].
    destruct Hno. exists D, M, Y. eauto.
Qed.

(** The examples of the specification. *)
Example parseDateToISO_5_Jan_2024 : parseDateToISO (js "5 Jan 2024") = js "2024-01-05".
Proof. vm_compute. reflexivity. Qed.

Example parseDateToISO_31_Dec_1999 : parseDateToISO (js "31 Dec 1999") = js "1999-12-31".
Proof. vm_compute. reflexivity. Qed.

Example parseDateToISO_Jan_5_2024 : parseDateToISO (js "Jan 5 2024") = [].
Proof. vm_compute. reflexivity. Qed.

Example parseDateToISO_lower_case_month : parseDateToISO (js "5 jan 2024") = [].
Proof. vm_compute. reflexivity. Qed.

(** C6 as stated fails: an input that is not of the shape (a line feed
    after the day, two spaces before the year) still gives a date. *)
Lemma parseDateToISO_accepts_other_spacing :
  (∀ D M Y, ¬ dateShape (js "5" ++ [LF] ++ js "Jan  2024") D M Y)
  ∧ parseDateToISO (js "5" ++ [LF] ++ js "Jan  2024") = js "2024-01-05".
Proof.
  split; [|vm_compute; reflexivity].
  intros D M Y (Heq & _ & HlD & _ & HlM & _ & HlY).
  apply length_3_inv in HlM as (a & b & c & ->).
  apply length_4_inv in HlY as (y1 & y2 & y3 & y4 & ->).
  destruct HlD as [(d1 & ->)%length_1_inv|(d1 & d2 & ->)%length_2_inv];
    vm_compute in Heq; congruence.
Qed.

Lemma parseDateToISO_iso_on_normalized_shape_else_empty_witness :
  parseDateToISO (js " 5 Jan 2024")
  = js "2024" ++ js "-" ++ js "01" ++ js "-" ++ zeroPadded (js "5").
Proof.
  apply (proj1 (parseDateToISO_iso_on_normalized_shape_else_empty (js " 5 Jan 2024"))
               (js "5") (js "Jan") (js "2024") (js "01")).
  - unfold dateShape, digits, letters. vm_compute.
    repeat split; repeat constructor.
  - vm_compute. reflexivity.
Defined.

End Dates.

(** ** Amounts *)

Section Amounts.

Lemma replace_char_filter c s :
  replace_char c [] s = filter (fun x => x ≠ c) s.
Proof.
  induction s as [|x s IH]; [done|]. cbn [replace_char].
  destruct (N.eqb_spec x c) as [->|Hne].
  - rewrite filter_cons_False by (intros H; by apply H). by rewrite IH.
  - rewrite filter_cons_True by done. by rewrite IH.
Qed.

(** *** White space around the parts of an amount *)

Lemma replace_spaces_word b w s :
  nonspace w → ∃ b', replace_spaces b (w ++ s) = w ++ replace_spaces b' s.
Proof.
  intros Hw. revert b. induction Hw as [|c w Hc _ IH]; intros b; simpl; [eauto|].
  rewrite Hc. destruct (IH false) as (b' & ->). eauto.
Qed.

Lemma replace_spaces_run b ws s :
  whitespace ws →
  ∃ v b', whitespace v ∧ replace_spaces b (ws ++ s) = v ++ replace_spaces b' s.
Proof.
  intros Hws. revert b. induction Hws as [|c ws Hc _ IH]; intros b; simpl.
  - exists [], b. split; [constructor|done].
  - rewrite Hc. destruct (IH true) as (v & b' & Hv & ->). destruct b.
    + eauto.
    + exists (SP :: v), b'. split; [by constructor|done].
Qed.

Lemma replace_spaces_nonspace b w : nonspace w → replace_spaces b w = w.
Proof.
  intros Hw. destruct (replace_spaces_word b w [] Hw) as (b' & H).
  rewrite app_nil_r in H. rewrite H. simpl. by rewrite app_nil_r.
Qed.

Lemma trimStart_nonspace w s : nonspace w → w ≠ [] → trimStart (w ++ s) = w ++ s.
Proof.
  intros Hw Hne. destruct w as [|c w]; [done|].
  apply Forall_cons in Hw as [Hc _]. simpl. by rewrite Hc.
Qed.

Lemma trimEnd_nonspace s w : nonspace w → w ≠ [] → trimEnd (s ++ w) = s ++ w.
Proof.
  intros Hw Hne. destruct (exists_last Hne) as (w' & c & ->).
  unfold nonspace in Hw. apply Forall_app in Hw as [_ Hc].
  apply Forall_cons in Hc as [Hc _]. rewrite app_assoc. by apply trimEnd_id.
Qed.

Lemma signMarker_nonspace sign : signMarker sign → nonspace sign.
Proof. intros [->|[->| ->]]; repeat constructor. Qed.

Lemma upper_nonspace c x :
  upper c = x → is_alpha x = true → is_space c = false ∧ is_currency_symbol c = false.
Proof.
  intros <- H. split.
  - destruct (is_space c) eqn:E; [|done]. exfalso. char_arith.
  - destruct (is_currency_symbol c) eqn:E; [|done]. exfalso. char_arith.
Qed.

Lemma currencyMarker_nonspace cur : currencyMarker cur → nonspace cur.
Proof.
  intros [->|[->|[->|[->|H]]]]; [repeat constructor..|].
  destruct H as [H|[H|H]];
    destruct cur as [|c1 [|c2 [|c3 [|]]]]; try done;
    injection H as H1 H2 H3;
    repeat constructor;
    eapply upper_nonspace; eauto.
Qed.

Lemma number_nonspace d ds frac :
  is_digit d = true → Forall (fun c => is_digit_or_comma c = true) ds →
  fractionPart frac → nonspace (d :: ds ++ frac).
Proof.
  intros Hd Hds Hfrac. constructor; [by apply digit_not_space|].
  apply Forall_app. split.
  - eapply Forall_impl; [exact Hds|]. intros c Hc. simpl in Hc.
    destruct (is_space c) eqn:E; [|done]. exfalso. char_arith.
  - destruct Hfrac as [->|(f1 & f2 & -> & H1 & H2)]; [constructor|].
    repeat constructor; by apply digit_not_space.
Qed.

(** [normalizeSpace] keeps an amount in shape. *)
Lemma amountShape_normalizeSpace raw sign number :
  amountShape raw sign number → amountShape (normalizeSpace raw) sign number.
Proof.
  intros (ws1 & cur & ws2 & d & ds & frac & -> & -> & Hsign & Hws1 & Hcur & Hws2
            & Hd & Hds & Hfrac).
  pose proof (signMarker_nonspace _ Hsign) as Hns.
  pose proof (currencyMarker_nonspace _ Hcur) as Hnc.
  pose proof (number_nonspace _ _ _ Hd Hds Hfrac) as Hnn.
  assert (∃ v1 v2, whitespace v1 ∧ whitespace v2
                   ∧ normalizeSpace (sign ++ ws1 ++ cur ++ ws2 ++ d :: ds ++ frac)
                     = sign ++ v1 ++ cur ++ v2 ++ d :: ds ++ frac)
    as (v1 & v2 & Hv1 & Hv2 & ->);
    [|exists v1, cur, v2, d, ds, frac; by repeat (split; [done|])].
  unfold normalizeSpace, trim.
  destruct (replace_spaces_word false sign (ws1 ++ cur ++ ws2 ++ d :: ds ++ frac) Hns)
    as (b1 & ->).
  destruct (replace_spaces_run b1 ws1 (cur ++ ws2 ++ d :: ds ++ frac) Hws1)
    as (u1 & b2 & Hu1 & ->).
  destruct (replace_spaces_word b2 cur (ws2 ++ d :: ds ++ frac) Hnc) as (b3 & ->).
  destruct (replace_spaces_run b3 ws2 (d :: ds ++ frac) Hws2) as (u2 & b4 & Hu2 & ->).
  rewrite (replace_spaces_nonspace b4 _ Hnn).
  destruct (decide (sign = [])) as [->|Hsne].
  - cbn [app]. rewrite (trimStart_whitespace u1) by done.
    destruct (decide (cur = [])) as [->|Hcne].
    + cbn [app]. rewrite (trimStart_whitespace u2) by done.
      rewrite (trimStart_id (d :: ds ++ frac)) by (by apply digit_not_space).
      pose proof (trimEnd_nonspace [] _ Hnn) as Hte. cbn [app] in Hte.
      rewrite Hte by done.
      exists [], []. by repeat (split; [constructor|]).
    + rewrite (trimStart_nonspace cur) by done.
      replace (cur ++ u2 ++ d :: ds ++ frac)
        with ((cur ++ u2) ++ d :: ds ++ frac) by (by rewrite <- app_assoc).
      rewrite (trimEnd_nonspace _ _ Hnn) by done.
      exists [], u2. rewrite <- !app_assoc. by repeat (split; [done||constructor|]).
  - rewrite (trimStart_nonspace sign) by done.
    replace (sign ++ u1 ++ cur ++ u2 ++ d :: ds ++ frac)
      with ((sign ++ u1 ++ cur ++ u2) ++ d :: ds ++ frac)
      by (by rewrite <- !app_assoc).
    rewrite (trimEnd_nonspace _ _ Hnn) by done.
    exists u1, u2. rewrite <- !app_assoc. by repeat (split; [done|]).
Qed.

(** *** The path the matcher takes on an amount *)

Section AmountMatch.
Context (n : nat).

Lemma first_Capture_word i r (w s : jsstring) cs cs' :
  head (run n r (MState (w ++ s) cs)) = Some (MState s cs') →
  head (run n (Capture i r) (MState (w ++ s) cs))
  = Some (MState s (<[i := Some w]> cs')).
Proof.
  intros H. rewrite (first_Capture _ _ _ _ _ H). cbn [rest caps].
  by rewrite take_consumed.
Qed.

Lemma first_sign sign R cs :
  signMarker sign →
  match R with c :: _ => is_sign c = false | [] => True end →
  head (run n (Opt (Class is_sign)) (MState (sign ++ R) cs)) = Some (MState R cs).
Proof.
  intros [->|[->| ->]] HR.
  - apply first_Opt_skip. by apply run_Class_nil.
  - apply first_Or_l. by apply first_Class.
  - apply first_Or_l. by apply first_Class.
Qed.

Lemma run_currency_nil c s cs :
  is_digit c = true → run n currency (MState (c :: s) cs) = [].
Proof.
  intros Hc. unfold currency. rewrite !run_Or.
  change (js "USD") with [85; 83; 68]%N. change (js "GBP") with [71; 66; 80]%N.
  change (js "EUR") with [69; 85; 82]%N.
  rewrite run_Class_nil, !run_WordI_nil; [done|..]; cbn.
  - char_arith.
  - char_arith.
  - char_arith.
  - destruct (is_currency_symbol c) eqn:E; [|done]. exfalso. char_arith.
Qed.

Lemma upper_letter c x :
  upper c = x → is_alpha x = true → is_currency_symbol c = false.
Proof. intros H1 H2. by destruct (upper_nonspace c x H1 H2). Qed.

Lemma first_currency cur s cs :
  currencyMarker cur → cur ≠ [] →
  head (run n currency (MState (cur ++ s) cs)) = Some (MState s cs).
Proof.
  unfold currency.
  change (js "USD") with [85; 83; 68]%N. change (js "GBP") with [71; 66; 80]%N.
  change (js "EUR") with [69; 85; 82]%N.
  intros [->|[->|[->|[->|[H|[H|H]]]]]] Hne; [done|..].
  - apply first_Or_l. by apply first_Class.
  - apply first_Or_l. by apply first_Class.
  - apply first_Or_l. by apply first_Class.
  - destruct cur as [|c1 cur]; [done|]. injection H as H1 H.
    apply first_Or_r.
    { apply run_Class_nil. cbn. by apply (upper_letter c1 85%N). }
    apply first_Or_l. rewrite (run_WordI n [85; 83; 68]%N (c1 :: cur)); [done|].
    exact (f_equal2 cons H1 H).
  - destruct cur as [|c1 cur]; [done|]. injection H as H1 H.
    apply first_Or_r.
    { apply run_Class_nil. cbn. by apply (upper_letter c1 71%N). }
    apply first_Or_r.
    { apply run_WordI_nil. cbn [app]. by rewrite H1. }
    apply first_Or_l. rewrite (run_WordI n [71; 66; 80]%N (c1 :: cur)); [done|].
    exact (f_equal2 cons H1 H).
  - destruct cur as [|c1 cur]; [done|]. injection H as H1 H.
    apply first_Or_r.
    { apply run_Class_nil. cbn. by apply (upper_letter c1 69%N). }
    apply first_Or_r.
    { apply run_WordI_nil. cbn [app]. by rewrite H1. }
    apply first_Or_r.
    { apply run_WordI_nil. cbn [app]. by rewrite H1. }
    rewrite (run_WordI n [69; 85; 82]%N (c1 :: cur)); [done|].
    exact (f_equal2 cons H1 H).
Qed.

Lemma first_number d ds frac cs :
  is_digit d = true → Forall (fun c => is_digit_or_comma c = true) ds →
  fractionPart frac →
  head (run n number (MState (d :: ds ++ frac) cs)) = Some (MState [] cs).
Proof.
  intros Hd Hds Hfrac. unfold number, digit.
  eapply first_Cat; [by apply first_Class|].
  eapply first_Cat.
  { apply first_Star_class; [done|].
    destruct Hfrac as [->|(f1 & f2 & -> & _)]; done. }
  destruct Hfrac as [->|(f1 & f2 & -> & H1 & H2)].
  - by apply first_Opt_skip.
  - apply first_Or_l. unfold Chr, Rep2.
    eapply first_Cat; [by apply first_Class|].
    eapply first_Cat; by apply first_Class.
Qed.

Lemma shape_tail_not_sign ws1 cur ws2 d (X : jsstring) :
  whitespace ws1 → currencyMarker cur → whitespace ws2 → is_digit d = true →
  match ws1 ++ cur ++ ws2 ++ d :: X with
  | c :: _ => is_sign c = false
  | [] => True
  end.
Proof.
  intros Hws1 Hcur Hws2 Hd.
  destruct Hws1 as [|c ws1 Hc _]; [|by apply space_not_sign].
  cbn [app].
  assert (Hrest : match ws2 ++ d :: X with
                  | c :: _ => is_sign c = false | [] => True end).
  { destruct Hws2 as [|c ws2 Hc _]; [by apply digit_not_sign|by apply space_not_sign]. }
  destruct Hcur as [->|[->|[->|[->|H]]]]; [done..|].
  destruct H as [H|[H|H]]; (destruct cur as [|c1 cur]; [done|]);
    injection H as H1 _; cbn [app];
    destruct (is_sign c1) eqn:E; try done; exfalso; char_arith.
Qed.

(** The matcher goes through sign, white space and currency marker, and
    goes on with the number. *)
Lemma AMOUNT_VALUE_REGEX_prefix sign ws1 cur ws2 d (X : jsstring) cs st' :
  signMarker sign → whitespace ws1 → currencyMarker cur → whitespace ws2 →
  is_digit d = true →
  head (run n (Capture 2 number) (MState (d :: X) (<[1 := Some sign]> cs)))
    = Some st' →
  head (run n AMOUNT_VALUE_REGEX
          (MState (sign ++ ws1 ++ cur ++ ws2 ++ d :: X) cs)) = Some st'.
Proof.
  intros Hsign Hws1 Hcur Hws2 Hd Hnum. unfold AMOUNT_VALUE_REGEX, space.
  eapply first_Cat.
  { apply first_Capture_word, first_sign; [done|].
    by apply shape_tail_not_sign. }
  pose proof (digit_not_space d Hd) as Hdsp.
  destruct (decide (cur = [])) as [->|Hne].
  - cbn [app]. rewrite app_assoc.
    eapply first_Cat; [apply first_Star_class; [by apply whitespace_app|done]|].
    eapply first_Cat; [by apply first_Opt_skip, run_currency_nil|].
    eapply first_Cat; [by apply (first_Star_class n is_space [])|].
    done.
  - eapply first_Cat.
    { apply first_Star_class; [done|].
      pose proof (currencyMarker_nonspace cur Hcur) as Hnc.
      destruct Hnc as [|c cur Hc _]; done. }
    eapply first_Cat; [by apply first_Or_l, first_currency|].
    eapply first_Cat; [by apply first_Star_class|].
    done.
Qed.

Lemma AMOUNT_VALUE_REGEX_first text sign number :
  amountShape text sign number →
  head (run n AMOUNT_VALUE_REGEX (MState text (replicate 3 None)))
  = Some (MState [] [None; Some sign; Some number]).
Proof.
  intros (ws1 & cur & ws2 & d & ds & frac & -> & -> & Hsign & Hws1 & Hcur & Hws2
            & Hd & Hds & Hfrac).
  apply AMOUNT_VALUE_REGEX_prefix; [done..|].
  rewrite <- (app_nil_r (d :: ds ++ frac)) at 1.
  rewrite (first_Capture_word 2 number (d :: ds ++ frac) [] _ _
             (eq_trans (f_equal (fun l => head (run n number (MState l _)))
                                (app_nil_r _))
                       (first_number d ds frac _ Hd Hds Hfrac))).
  done.
Qed.

(** Where a digit stands, the pattern matches. *)
Lemma AMOUNT_VALUE_REGEX_at_digit d (X : jsstring) :
  is_digit d = true →
  run n AMOUNT_VALUE_REGEX (MState (d :: X) (replicate 3 None)) ≠ [].
Proof.
  intros Hd.
  assert (∃ st', head (run n (Capture 2 number)
                         (MState (d :: X) (<[1 := Some []]> (replicate 3 None))))
                 = Some st') as (st' & Hst').
  { destruct (first_Opt_total n (Chr DOT ~> Rep2 digit)
                (MState (skip is_digit_or_comma X)
                        (<[1 := Some []]> (replicate 3 None)))) as (m & Hm).
    eexists. apply first_Capture. unfold number, digit.
    eapply first_Cat; [by apply first_Class|].
    eapply first_Cat; [apply first_Star_skip|]. exact Hm. }
  pose proof (AMOUNT_VALUE_REGEX_prefix [] [] [] [] d X (replicate 3 None) st') as H.
  cbn [app] in H. intros Hnil. rewrite Hnil in H.
  by discriminate H; [by left|constructor|by left|constructor|..].
Qed.

(** Every match has a sign or nothing in its first group, and in its
    second a word that starts with a digit of the text. *)
Lemma AMOUNT_VALUE_REGEX_sound t st :
  st ∈ run n AMOUNT_VALUE_REGEX (MState t (replicate 3 None)) →
  ∃ sgn d x,
    caps st !! 1 = Some (Some sgn)
    ∧ caps st !! 2 = Some (Some (d :: x))
    ∧ is_digit d = true ∧ d ∈ t.
Proof.
  unfold AMOUNT_VALUE_REGEX.
  intros (m1 & H1 & H)%elem_of_run_Cat.
  apply elem_of_run_Cat in H as (m2 & H2 & H).
  apply elem_of_run_Cat in H as (m3 & H3 & H).
  apply elem_of_run_Cat in H as (m4 & H4 & H5).
  apply run_Capture_sound in H1 as (sgn & Hr1 & _ & Hc1 & Hn1 & _); [|simpl; lia].
  apply run_sound in H2 as (w2 & Hr2 & _ & Hn2 & Hk2).
  apply run_sound in H3 as (w3 & Hr3 & _ & Hn3 & Hk3).
  apply run_sound in H4 as (w4 & Hr4 & _ & Hn4 & Hk4).
  apply run_Capture_sound in H5 as (w5 & Hr5 & Hl5 & Hc5 & _ & Hk5);
    [|rewrite Hn4, Hn3, Hn2, Hn1; simpl; lia].
  destruct Hl5 as (u & v & -> & (d & -> & Hd) & _).
  exists sgn, d, v. split; [|split; [done|split; [done|]]].
  - etrans; [by apply Hk5|]. etrans; [by apply Hk4|]. etrans; [by apply Hk3|].
    etrans; [by apply Hk2|]. done.
  - simpl in Hr1. rewrite Hr1, Hr2, Hr3, Hr4, Hr5. set_solver.
Qed.

End AmountMatch.

Lemma AMOUNT_VALUE_REGEX_exec text sign number :
  amountShape text sign number →
  exec 2 AMOUNT_VALUE_REGEX text = Some [None; Some sign; Some number].
Proof.
  intros H. unfold exec.
  by rewrite (search_first _ _ _ _ _ (AMOUNT_VALUE_REGEX_first _ text sign number H)).
Qed.

Lemma AMOUNT_VALUE_REGEX_exec_inv text m :
  exec 2 AMOUNT_VALUE_REGEX text = Some m →
  ∃ d x, group 2 m = d :: x ∧ is_digit d = true ∧ d ∈ text.
Proof.
  unfold exec. destruct (search _ _ _ _) as [st|] eqn:Hs; [|done].
  intros [= <-]. apply search_Some in Hs as (pre & t & -> & Hin).
  apply AMOUNT_VALUE_REGEX_sound in Hin as (sgn & d & x & _ & H2 & Hd & Hin).
  exists d, x. rewrite (group_lookup _ _ _ H2). set_solver.
Qed.

Lemma AMOUNT_VALUE_REGEX_exec_digit text d :
  d ∈ text → is_digit d = true → is_Some (exec 2 AMOUNT_VALUE_REGEX text).
Proof.
  intros (pre & X & ->)%list_elem_of_split Hd. unfold exec.
  destruct (search_found (length (pre ++ d :: X)) 2 AMOUNT_VALUE_REGEX pre (d :: X))
    as (st & ->); [by apply AMOUNT_VALUE_REGEX_at_digit|]. by eexists.
Qed.

(** C7. On an amount (an optional sign, an optional currency marker of
    the pattern: one of the symbols $, £, € or of the codes USD, GBP, EUR
    in either case, a digit followed by digits and commas, an optional
    fraction of two digits, with optional white space after the sign and
    the marker) [parseAmountValue] returns the sign followed by the number
    without its commas; on a text no part of which is such an amount it
    returns the empty string. *)
Theorem parseAmountValue_strips_marker_and_separators (rawText : jsstring) :
  (∀ sign number : jsstring,
     amountShape rawText sign number →
     parseAmountValue rawText = sign ++ filter (fun c => c ≠ COMMA) number)
  ∧ ((∀ pre s post sign number : jsstring,
        rawText = pre ++ s ++ post → ¬ amountShape s sign number) →
     parseAmountValue rawText = []).
Proof.
  split.
  - intros sign number Hshape%amountShape_normalizeSpace. unfold parseAmountValue.
    rewrite (AMOUNT_VALUE_REGEX_exec _ sign number Hshape).
    change (group 1 [None; Some sign; Some number]) with sign.
    change (group 2 [None; Some sign; Some number]) with number.
    by rewrite replace_char_filter.
  - intros Hno. unfold parseAmountValue.
    destruct (exec 2 AMOUNT_VALUE_REGEX (normalizeSpace rawText)) as [m|] eqn:Hm;
      [|done].
    apply AMOUNT_VALUE_REGEX_exec_inv in Hm as (d & x & _ & Hd & Hin).
    apply elem_of_normalizeSpace in Hin as [Hin| ->]; [|done].
    apply list_elem_of_split in Hin as (pre & post & ->).
    destruct (Hno pre [d] post [] [d]); [done|].
    exists [], [], [], d, [], []. split; [done|]. split; [done|].
    split; [by left|]. split; [constructor|]. split; [by left|].
    split; [constructor|]. split; [done|]. split; [constructor|by left].
Qed.

(** The examples of the specification. *)
Example parseAmountValue_negative_dollars :
  parseAmountValue (js "-$1,234.56") = js "-1234.56".
Proof. vm_compute. reflexivity. Qed.

Example parseAmountValue_USD : parseAmountValue (js "USD 9.00") = js "9.00".
Proof. vm_compute. reflexivity. Qed.

Example parseAmountValue_free : parseAmountValue (js "free") = [].
Proof. vm_compute. reflexivity. Qed.

Lemma parseAmountValue_strips_marker_and_separators_witness :
  parseAmountValue (js "- gbp 1,234,567.89")
  = js "-" ++ filter (fun c => c ≠ COMMA) (js "1,234,567.89").
Proof.
  apply (proj1 (parseAmountValue_strips_marker_and_separators
                  (js "- gbp 1,234,567.89"))).
  exists (js " "), (js "gbp"), (js " "), 49%N, (js ",234,567"), (js ".89").
  split; [reflexivity|]. split; [reflexivity|].
  split; [by right; right|]. split; [by repeat constructor|].
  split; [by do 5 right; left|]. split; [by repeat constructor|].
  split; [reflexivity|]. split; [by repeat constructor|].
  right. by exists 56%N, 57%N.
Defined.

(** With a currency marker outside the pattern (here the code CAD and the
    yen sign) the amount is of the shape the specification words, and the
    sign is lost: the match starts at the number. *)
Lemma parseAmountValue_drops_sign_after_other_marker :
  statedAmountShape (js "-CAD 5.00") (js "-") (js "5.00")
  ∧ parseAmountValue (js "-CAD 5.00") = js "5.00"
  ∧ statedAmountShape ([45; 165] ++ js "1,234")%N (js "-") (js "1,234")
  ∧ parseAmountValue ([45; 165] ++ js "1,234")%N = js "1234".
Proof.
  split; [|split; [by vm_compute|split; [|by vm_compute]]].
  - exists [], (js "CAD"), (js " "), 53%N, [], (js ".00").
    split; [reflexivity|]. split; [reflexivity|].
    split; [by right; right|]. split; [constructor|].
    split; [right; right; split; [reflexivity|by repeat constructor]|].
    split; [by repeat constructor|]. split; [reflexivity|].
    split; [constructor|]. right. by exists 48%N, 48%N.
  - exists [], [165%N], [], 49%N, (js ",234"), [].
    split; [reflexivity|]. split; [reflexivity|].
    split; [by right; right|]. split; [constructor|].
    split; [right; left; exists 165%N; by repeat split|].
    split; [constructor|]. split; [reflexivity|].
    split; [by repeat constructor|]. by left.
Qed.

(** A digit of a date in front of the amount is what comes back. *)
Example parseAmountValue_takes_first_digits :
  parseAmountValue (js "5 Jan 2024 Order #123 -$10.00") = js "5".
Proof. vm_compute. reflexivity. Qed.

End Amounts.

(** * Further properties *)

(** ** [normalizeSpace] *)

Section NormalizeSpace.

Lemma trimStart_starts s : starts_nonspace (trimStart s).
Proof.
  induction s as [|c s IH]; simpl; [done|].
  destruct (is_space c) eqn:Hc; [done|]. simpl. done.
Qed.

Lemma trimEnd_ends s : ends_nonspace (trimEnd s).
Proof.
  unfold ends_nonspace, trimEnd. rewrite rev_involutive. apply trimStart_starts.
Qed.

Lemma trimEnd_starts s : starts_nonspace s → starts_nonspace (trimEnd s).
Proof.
  intros Hs. destruct (trimEnd_split s) as (ws & Heq & _).
  destruct (trimEnd s) as [|c t]; [done|]. rewrite Heq in Hs. done.
Qed.

Lemma trimEnd_fixed s : ends_nonspace s → trimEnd s = s.
Proof.
  unfold ends_nonspace, trimEnd. intros H.
  rewrite trimStart_id by done. apply rev_involutive.
Qed.

Lemma normalizeSpace_starts s : starts_nonspace (normalizeSpace s).
Proof. apply trimEnd_starts, trimStart_starts. Qed.

Lemma normalizeSpace_ends s : ends_nonspace (normalizeSpace s).
Proof. apply trimEnd_ends. Qed.

Lemma replace_spaces_fixed b s :
  single_spaced s = true → (b = true → starts_nonspace s) →
  replace_spaces b s = s.
Proof.
  revert b. induction s as [|c s IH]; intros b Hs Hb; simpl; [done|].
  simpl in Hs. apply andb_true_iff in Hs as [Hc Hs].
  destruct (is_space c) eqn:Hsp.
  - destruct b; [by specialize (Hb eq_refl); simpl in Hb; congruence|].
    apply andb_true_iff in Hc as [->%N.eqb_eq Hnext].
    f_equal. apply IH; [done|]. intros _. destruct s as [|c2 s]; [done|].
    simpl. by apply negb_true_iff.
  - f_equal. by apply IH.
Qed.

Lemma normalizeSpace_fixed s :
  starts_nonspace s → ends_nonspace s → single_spaced s = true →
  normalizeSpace s = s.
Proof.
  intros H1 H2 H3. unfold normalizeSpace, trim.
  rewrite replace_spaces_fixed by done.
  rewrite trimStart_id by done. by apply trimEnd_fixed.
Qed.

Lemma visible_app s t : visible (s ++ t) = visible s ++ visible t.
Proof. apply filter_app. Qed.

Lemma visible_whitespace ws : whitespace ws → visible ws = [].
Proof.
  induction 1 as [|c ws Hc _ IH]; [done|]. unfold visible in *.
  rewrite filter_cons_False by congruence. done.
Qed.

Lemma visible_replace_spaces b s : visible (replace_spaces b s) = visible s.
Proof.
  revert b. induction s as [|c s IH]; intros b; [done|]. cbn [replace_spaces].
  unfold visible in *. destruct (is_space c) eqn:Hc.
  - rewrite (filter_cons_False _ c) by congruence. destruct b; [apply IH|].
    rewrite filter_cons_False by done. apply IH.
  - rewrite !filter_cons_True by done. f_equal. apply IH.
Qed.

Lemma visible_normalizeSpace s : visible (normalizeSpace s) = visible s.
Proof.
  rewrite <- (visible_replace_spaces false s). unfold normalizeSpace, trim.
  destruct (trimStart_split (replace_spaces false s)) as (ws1 & Heq1 & Hws1).
  destruct (trimEnd_split (trimStart (replace_spaces false s))) as (ws2 & Heq2 & Hws2).
  rewrite Heq1 at 2. rewrite Heq2 at 2.
  rewrite !visible_app, (visible_whitespace ws1), (visible_whitespace ws2) by done.
  by rewrite app_nil_r.
Qed.

Lemma visible_nil_whitespace s : visible s = [] ↔ whitespace s.
Proof.
  split; [|apply visible_whitespace].
  induction s as [|c s IH]; [constructor|]. unfold visible in *.
  destruct (is_space c) eqn:Hc.
  - rewrite filter_cons_False by congruence. intros H. constructor; [done|by apply IH].
  - rewrite filter_cons_True by done. intros; discriminate.
Qed.

(** X3. What [normalizeSpace] returns has no white space at its start or
    at its end, and inside only single spaces (never a tab, a line break
    or two spaces in a row); it is empty exactly when the input is white
    space only. *)
Theorem normalizeSpace_normal_form (value : jsstring) :
  starts_nonspace (normalizeSpace value)
  ∧ ends_nonspace (normalizeSpace value)
  ∧ single_spaced (normalizeSpace value) = true
  ∧ (normalizeSpace value = [] ↔ whitespace value).
Proof.
  split; [apply normalizeSpace_starts|]. split; [apply normalizeSpace_ends|].
  split; [apply single_spaced_normalizeSpace|].
  rewrite <- visible_nil_whitespace, <- visible_normalizeSpace. split.
  - by intros ->.
  - intros Hv%visible_nil_whitespace. pose proof (normalizeSpace_starts value) as Hs.
    destruct (normalizeSpace value) as [|c t]; [done|].
    apply Forall_cons in Hv as [Hc _]. simpl in Hs. congruence.
Qed.

Lemma normalizeSpace_twice s : normalizeSpace (normalizeSpace s) = normalizeSpace s.
Proof.
  apply normalizeSpace_fixed;
    [apply normalizeSpace_starts|apply normalizeSpace_ends|
     apply single_spaced_normalizeSpace].
Qed.

(** X4. [normalizeSpace] is idempotent. *)
Theorem normalizeSpace_idempotent (value : jsstring) :
  normalizeSpace (normalizeSpace value) = normalizeSpace value.
Proof. apply normalizeSpace_twice. Qed.

(** X5. [normalizeSpace] changes white space only: the other characters
    of the input come out unchanged and in the same order. *)
Theorem normalizeSpace_keeps_visible_text (value : jsstring) :
  visible (normalizeSpace value) = visible value.
Proof. apply visible_normalizeSpace. Qed.

End NormalizeSpace.

(** ** The values of [parseDateToISO] and [parseAmountValue] *)

Section Values.

Lemma MONTHS_values (M mm : jsstring) :
  MONTHS !! M = Some mm → digits mm ∧ length mm = 2.
Proof.
  intros H. apply elem_of_list_to_map_2 in H.
  repeat (apply elem_of_cons in H as [[= _ ->]|H];
          [split; [by repeat constructor|reflexivity]|]).
  by apply elem_of_nil in H.
Qed.

Lemma digits_zeroPadded D :
  digits D → length D = 1 ∨ length D = 2 →
  digits (zeroPadded D) ∧ length (zeroPadded D) = 2.
Proof.
  intros HD [(d & ->)%length_1_inv|(d1 & d2 & ->)%length_2_inv]; simpl.
  - split; [|done]. by constructor.
  - done.
Qed.

Lemma parseDateToISO_isoDate raw :
  parseDateToISO raw = [] ∨ isoDate (parseDateToISO raw).
Proof.
  unfold parseDateToISO.
  destruct (exec 3 DATE_REGEX (normalizeSpace raw)) as [m|] eqn:Hm; [|by left].
  apply DATE_REGEX_exec_inv in Hm
    as (D & M & Y & (_ & HD & HlD & _ & _ & HY & HlY) & -> & -> & ->).
  cbn zeta. destruct (MONTHS !! M) as [mm|] eqn:HM; [|by left].
  rewrite (MONTHS_truthy _ _ HM). right.
  rewrite day_zeroPadded by done.
  destruct (digits_zeroPadded D HD HlD) as [Hdd Hldd].
  exists Y, mm, (zeroPadded D). eauto 10.
Qed.

(** X6. [parseDateToISO] returns the empty string or a text of the form
    YYYY-MM-DD: four digits, a dash, one of the month numbers 01 to 12 of
    the table, a dash, two digits. *)
Theorem parseDateToISO_empty_or_iso_date (raw : jsstring) :
  parseDateToISO raw = [] ∨ isoDate (parseDateToISO raw).
Proof. apply parseDateToISO_isoDate. Qed.

Lemma lang_sign w : lang (Opt (Class is_sign)) w → signMarker w.
Proof.
  intros [(c & -> & Hc)| ->]; [|by left]. unfold is_sign in Hc.
  apply orb_true_iff in Hc as [->%N.eqb_eq| ->%N.eqb_eq]; [right; by left|right; by right].
Qed.

Lemma lang_number w :
  lang number w →
  ∃ d ds frac, w = d :: ds ++ frac ∧ is_digit d = true
               ∧ Forall (fun c => is_digit_or_comma c = true) ds
               ∧ fractionPart frac.
Proof.
  intros (u & v & -> & (d & -> & Hd) & (ds & frac & -> & Hds%lang_Star_Class & Hf)).
  exists d, ds, frac. split; [done|]. split; [done|]. split; [done|].
  destruct Hf as [(x & y & -> & (c & -> & ->%N.eqb_eq) & (y1 & y2 & -> & (f1 & -> & H1) & (f2 & -> & H2)))| ->].
  - right. by exists f1, f2.
  - by left.
Qed.

(** Every match has a sign or nothing in its first group and a number in
    its second. *)
Lemma AMOUNT_VALUE_REGEX_groups n t st :
  st ∈ run n AMOUNT_VALUE_REGEX (MState t (replicate 3 None)) →
  ∃ sgn d ds frac,
    caps st !! 1 = Some (Some sgn)
    ∧ caps st !! 2 = Some (Some (d :: ds ++ frac))
    ∧ signMarker sgn ∧ is_digit d = true
    ∧ Forall (fun c => is_digit_or_comma c = true) ds
    ∧ fractionPart frac.
Proof.
  unfold AMOUNT_VALUE_REGEX.
  intros (m1 & H1 & H)%elem_of_run_Cat.
  apply elem_of_run_Cat in H as (m2 & H2 & H).
  apply elem_of_run_Cat in H as (m3 & H3 & H).
  apply elem_of_run_Cat in H as (m4 & H4 & H5).
  apply run_Capture_sound in H1 as (sgn & _ & Hl1 & Hc1 & Hn1 & _); [|simpl; lia].
  apply run_sound in H2 as (w2 & _ & _ & Hn2 & Hk2).
  apply run_sound in H3 as (w3 & _ & _ & Hn3 & Hk3).
  apply run_sound in H4 as (w4 & _ & _ & Hn4 & Hk4).
  apply run_Capture_sound in H5 as (w5 & _ & Hl5 & Hc5 & _ & Hk5);
    [|rewrite Hn4, Hn3, Hn2, Hn1; simpl; lia].
  apply lang_number in Hl5 as (d & ds & frac & -> & Hd & Hds & Hf).
  exists sgn, d, ds, frac. split; [|split; [done|]; split; [by apply lang_sign|done]].
  etrans; [by apply Hk5|]. etrans; [by apply Hk4|]. etrans; [by apply Hk3|].
  etrans; [by apply Hk2|]. done.
Qed.

Lemma digit_not_comma c : is_digit c = true → c ≠ COMMA.
Proof. intros H ->. discriminate H. Qed.

Lemma filter_comma_digits ds :
  Forall (fun c => is_digit_or_comma c = true) ds →
  digits (filter (fun x => x ≠ COMMA) ds).
Proof.
  induction 1 as [|c ds Hc _ IH]; [constructor|].
  destruct (decide (c = COMMA)) as [->|Hne].
  - by rewrite filter_cons_False by (intros H; by apply H).
  - rewrite filter_cons_True by done. constructor; [|done].
    unfold is_digit_or_comma in Hc. apply orb_true_iff in Hc as [Hc|Hc%N.eqb_eq]; done.
Qed.

Lemma filter_comma_fraction frac :
  fractionPart frac → filter (fun x => x ≠ COMMA) frac = frac.
Proof.
  intros [->|(f1 & f2 & -> & H1 & H2)]; [done|].
  rewrite filter_cons_True by done.
  by rewrite !filter_cons_True by (by apply digit_not_comma).
Qed.

Lemma filter_comma_digits_id ds :
  digits ds → filter (fun x => x ≠ COMMA) ds = ds.
Proof.
  induction 1 as [|c ds Hc _ IH]; [done|].
  rewrite filter_cons_True by (by apply digit_not_comma). by rewrite IH.
Qed.

Lemma parseAmountValue_signedDecimal rawText :
  parseAmountValue rawText = [] ∨ signedDecimal (parseAmountValue rawText).
Proof.
  unfold parseAmountValue, exec.
  destruct (search _ _ _ _) as [st|] eqn:Hs; [|by left]. right. simpl.
  apply search_Some in Hs as (pre & t & _ & Hin).
  apply AMOUNT_VALUE_REGEX_groups in Hin
    as (sgn & d & ds & frac & H1 & H2 & Hsgn & Hd & Hds & Hf).
  rewrite (group_lookup _ _ _ H1), (group_lookup _ _ _ H2), replace_char_filter.
  exists sgn, (d :: filter (fun x => x ≠ COMMA) ds), frac.
  split; [|split; [done|split; [done|split; [|done]]]].
  - rewrite filter_cons_True by (by apply digit_not_comma).
    by rewrite filter_app, (filter_comma_fraction frac).
  - constructor; [done|]. by apply filter_comma_digits.
Qed.

(** X7. [parseAmountValue] returns the empty string or a signed decimal:
    a plus, a minus or nothing, then at least one digit, then nothing or
    a point and two digits.  No currency marker, comma or white space is
    left in it. *)
Theorem parseAmountValue_empty_or_signed_decimal (rawText : jsstring) :
  parseAmountValue rawText = [] ∨ signedDecimal (parseAmountValue rawText).
Proof. apply parseAmountValue_signedDecimal. Qed.

Lemma signedDecimal_amountShape s :
  signedDecimal s → ∃ sign number, s = sign ++ number ∧ amountShape s sign number
                                   ∧ filter (fun x => x ≠ COMMA) number = number.
Proof.
  intros (sign & int & frac & -> & Hsign & Hne & Hint & Hf).
  destruct int as [|d ds]; [done|]. apply Forall_cons in Hint as [Hd Hds].
  exists sign, (d :: ds ++ frac). split; [done|]. split.
  - exists [], [], [], d, ds, frac. split; [done|]. split; [done|].
    split; [done|]. split; [constructor|]. split; [by left|].
    split; [constructor|]. split; [done|]. split; [|done].
    eapply Forall_impl; [exact Hds|]. intros c Hc. unfold is_digit_or_comma.
    by rewrite Hc.
  - rewrite filter_cons_True by (by apply digit_not_comma).
    by rewrite filter_app, (filter_comma_fraction frac), (filter_comma_digits_id ds).
Qed.

Lemma parseAmountValue_amountShape raw sign number :
  amountShape raw sign number →
  parseAmountValue raw = sign ++ replace_char COMMA [] number.
Proof.
  intros H%amountShape_normalizeSpace. unfold parseAmountValue.
  by rewrite (AMOUNT_VALUE_REGEX_exec _ _ _ H).
Qed.

(** X8. [parseAmountValue] is idempotent: a value it returned is returned
    unchanged when parsed again. *)
Theorem parseAmountValue_idempotent (rawText : jsstring) :
  parseAmountValue (parseAmountValue rawText) = parseAmountValue rawText.
Proof.
  destruct (parseAmountValue_signedDecimal rawText) as [->|H]; [reflexivity|].
  apply signedDecimal_amountShape in H as (sign & number & Heq & Hshape & Hf).
  rewrite (parseAmountValue_amountShape _ _ _ Hshape), replace_char_filter, Hf.
  by rewrite Heq.
Qed.

End Values.

(** ** The records of the extractor *)

Section Extractor.

Lemma ORDER_REGEX_sound n t st :
  st ∈ run n ORDER_REGEX (MState t (replicate 2 None)) →
  ∃ w, caps st !! 1 = Some (Some w)
       ∧ w ≠ [] ∧ Forall (fun c => is_order_char c = true) w.
Proof.
  unfold ORDER_REGEX.
  intros (m1 & H1 & H)%elem_of_run_Cat.
  apply elem_of_run_Cat in H as (m2 & H2 & H).
  apply elem_of_run_Cat in H as (m3 & H3 & H).
  apply elem_of_run_Cat in H as (m4 & H4 & H5).
  apply run_sound in H1 as (w1 & _ & _ & Hn1 & _).
  apply run_sound in H2 as (w2 & _ & _ & Hn2 & _).
  apply run_sound in H3 as (w3 & _ & _ & Hn3 & _).
  apply run_sound in H4 as (w4 & _ & _ & Hn4 & _).
  apply run_Capture_sound in H5 as (w & _ & Hl & Hc & _);
    [|rewrite Hn4, Hn3, Hn2, Hn1; simpl; lia].
  apply lang_Plus_Class in Hl as [Hne Hw]. by exists w.
Qed.

Lemma ORDER_REGEX_exec_inv text m :
  exec 1 ORDER_REGEX text = Some m →
  group 1 m ≠ [] ∧ Forall (fun c => is_order_char c = true) (group 1 m).
Proof.
  unfold exec. destruct (search _ _ _ _) as [st|] eqn:Hs; [|done].
  intros [= <-]. apply search_Some in Hs as (pre & t & _ & Hin).
  apply ORDER_REGEX_sound in Hin as (w & Hc & Hne & Hw).
  by rewrite (group_lookup _ _ _ Hc).
Qed.

Lemma single_spaced_plain_spaced s : single_spaced s = true → plain_spaced s.
Proof.
  induction s as [|c s IH]; intros H; [constructor|].
  simpl in H. apply andb_true_iff in H as [Hc Hs]. constructor; [|by apply IH].
  intros Hsp. rewrite Hsp in Hc. by apply andb_true_iff in Hc as [->%N.eqb_eq _].
Qed.

Lemma starts_nonspace_app s t :
  starts_nonspace s → starts_nonspace t → starts_nonspace (s ++ t).
Proof. by destruct s. Qed.

Lemma ends_nonspace_app s t :
  ends_nonspace s → ends_nonspace t → ends_nonspace (s ++ t).
Proof.
  unfold ends_nonspace. rewrite rev_app_distr. intros. by apply starts_nonspace_app.
Qed.

Lemma truthy_false (s : jsstring) : truthy s = false → s = [].
Proof. by destruct s. Qed.

Lemma extractTransaction_extracted row tx :
  extractTransaction row = Some tx → extracted tx.
Proof.
  unfold extractTransaction. cbn zeta.
  set (d := parseDateToISO _). set (n1 := normalizeSpace _).
  set (n2 := normalizeSpace _). set (n3 := normalizeSpace _).
  set (o := match exec 1 ORDER_REGEX _ with Some _ => _ | None => _ end).
  set (a := parseAmountValue _).
  destruct (_ && _) eqn:Hall; [done|]. intros [= <-]. unfold extracted. cbn.
  split; [apply parseDateToISO_isoDate|]. split.
  { split; [|split].
    - unfold plain_spaced. rewrite !Forall_app.
      split; [|split]; apply single_spaced_plain_spaced, single_spaced_normalizeSpace.
    - repeat apply starts_nonspace_app; apply normalizeSpace_starts.
    - repeat apply ends_nonspace_app; apply normalizeSpace_ends. }
  split.
  { unfold o. destruct (exec 1 ORDER_REGEX _) as [m|] eqn:Hm; [|constructor].
    by apply ORDER_REGEX_exec_inv in Hm as [_ Hm]. }
  split; [apply parseAmountValue_signedDecimal|]. split; [done|].
  intros (Hd & Hc & Ho & Ha). rewrite Hd, Hc, Ho, Ha in Hall. done.
Qed.

(** X9. A record that [extractTransaction] returns has a date that is
    empty or of the form YYYY-MM-DD, card details without white space at
    the ends and with no white space but single space characters, an
    order number of ASCII letters, digits and dashes only, an amount that
    is empty or a signed decimal, and no products; its four fields are
    never all empty. *)
Theorem extractTransaction_returns_well_formed_record (row : Element) (tx : Tx) :
  extractTransaction row = Some tx → extracted tx.
Proof. apply extractTransaction_extracted. Qed.

Lemma extractTransaction_returns_well_formed_record_witness :
  extracted (mkTx (js "2024-01-05") (js "Visa") (js "A1") (js "10.00") []).
Proof.
  apply (extractTransaction_returns_well_formed_record (entryA1 "$10.00")).
  vm_compute. reflexivity.
Defined.

(** *** The key of the seen-set *)

Lemma bar_free_digits s : digits s → bar_free s.
Proof.
  intros H. eapply Forall_impl; [exact H|]. intros c Hc ->. discriminate Hc.
Qed.

Lemma bar_free_isoDate s : s = [] ∨ isoDate s → bar_free s.
Proof.
  intros [->|(Y & mm & dd & -> & HY & _ & (M & [Hmm _]%MONTHS_values) & Hdd & _)];
    [constructor|].
  unfold bar_free. rewrite !Forall_app.
  split; [by apply bar_free_digits|]. split; [by repeat constructor|].
  split; [by apply bar_free_digits|]. split; [by repeat constructor|].
  by apply bar_free_digits.
Qed.

Lemma bar_free_signedDecimal s : s = [] ∨ signedDecimal s → bar_free s.
Proof.
  intros [->|(sign & int & frac & -> & Hsign & _ & Hint & Hfrac)]; [constructor|].
  unfold bar_free. rewrite !Forall_app. split; [|split].
  - destruct Hsign as [->|[->| ->]]; by repeat constructor.
  - by apply bar_free_digits.
  - destruct Hfrac as [->|(f1 & f2 & -> & H1 & H2)]; [constructor|].
    constructor; [done|]. apply bar_free_digits. by repeat constructor.
Qed.

Lemma bar_free_order s : Forall (fun c => is_order_char c = true) s → bar_free s.
Proof.
  intros H. eapply Forall_impl; [exact H|]. intros c Hc ->. discriminate Hc.
Qed.

(** A text splits at its first bar in one way. *)
Lemma split_at_bar (a1 a2 x1 x2 : jsstring) :
  bar_free a1 → bar_free a2 →
  a1 ++ PIPE :: x1 = a2 ++ PIPE :: x2 → a1 = a2 ∧ x1 = x2.
Proof.
  intros H1. revert a2. induction H1 as [|c a1 Hc _ IH]; intros a2 H2 Heq.
  - destruct H2 as [|c2 a2 Hc2 _]; simpl in Heq; [naive_solver|].
    injection Heq as <- _. done.
  - destruct H2 as [|c2 a2 Hc2 H2]; simpl in Heq.
    + injection Heq as -> _. done.
    + injection Heq as -> Heq. destruct (IH a2 H2 Heq) as [-> ->]. done.
Qed.

Lemma split_at_last_bar (a1 a2 x1 x2 : jsstring) :
  bar_free a1 → bar_free a2 →
  x1 ++ PIPE :: a1 = x2 ++ PIPE :: a2 → x1 = x2 ∧ a1 = a2.
Proof.
  intros H1 H2 Heq. apply (f_equal (@rev char)) in Heq.
  rewrite !rev_app_distr in Heq. simpl in Heq. rewrite <- !app_assoc in Heq.
  simpl in Heq. apply split_at_bar in Heq as [Ha Hx].
  - apply (f_equal (@rev char)) in Ha, Hx. by rewrite !rev_involutive in Ha, Hx.
  - by apply Forall_rev.
  - by apply Forall_rev.
Qed.

Lemma txKey_inj_extracted tx1 tx2 :
  extracted tx1 → extracted tx2 → txKey tx1 = txKey tx2 → tx1 = tx2.
Proof.
  destruct tx1 as [d1 c1 o1 a1 p1], tx2 as [d2 c2 o2 a2 p2].
  unfold extracted, txKey. cbn.
  intros (Hd1%bar_free_isoDate & _ & Ho1%bar_free_order & Ha1%bar_free_signedDecimal & -> & _)
         (Hd2%bar_free_isoDate & _ & Ho2%bar_free_order & Ha2%bar_free_signedDecimal & -> & _)
         Heq.
  apply split_at_bar in Heq as [-> Heq]; [|done..].
  change (c1 ++ PIPE :: o1 ++ PIPE :: a1) with (c1 ++ (PIPE :: o1) ++ PIPE :: a1) in Heq.
  change (c2 ++ PIPE :: o2 ++ PIPE :: a2) with (c2 ++ (PIPE :: o2) ++ PIPE :: a2) in Heq.
  rewrite !app_assoc in Heq.
  apply split_at_last_bar in Heq as [Heq ->]; [|done..].
  apply split_at_last_bar in Heq as [-> ->]; [|done..]. done.
Qed.

(** X10. On records of the extractor the key of the seen-set is
    faithful: date, order number and amount never hold a bar, so two
    records with the same key are the same record, whatever the card
    details hold. *)
Theorem txKey_faithful_on_extracted_records (tx1 tx2 : Tx) :
  extracted tx1 → extracted tx2 → txKey tx1 = txKey tx2 → tx1 = tx2.
Proof. apply txKey_inj_extracted. Qed.

Lemma txKey_faithful_on_extracted_records_witness :
  mkTx (js "2024-01-05") (js "Visa | 1") (js "A1") (js "10.00") []
  = mkTx (js "2024-01-05") (js "Visa | 1") (js "A1") (js "10.00") [].
Proof.
  assert (H : extracted (mkTx (js "2024-01-05") (js "Visa | 1") (js "A1") (js "10.00") [])).
  { apply (extractTransaction_extracted
             (mkElement (Some (js "5 Jan 2024")) (Some (js "Visa | 1")) None None
                        [js "Order #A1"; js "$10.00"])).
    vm_compute. reflexivity. }
  apply (txKey_faithful_on_extracted_records _ _ H H). reflexivity.
Defined.

(** *** What the collector drops *)

Lemma firstByKey_complete seen xs x :
  x ∈ xs → txKey x ∈ keys (firstByKey seen xs) ∪ seen.
Proof.
  revert seen. induction xs as [|y xs IH]; intros seen Hin; [by apply elem_of_nil in Hin|].
  cbn [firstByKey]. apply elem_of_cons in Hin as [->|Hin].
  - destruct (decide (txKey y ∈ seen)); [set_solver|]. unfold keys. set_solver.
  - destruct (decide (txKey y ∈ seen)); [by apply IH|].
    specialize (IH ({[txKey y]} ∪ seen) Hin). unfold keys in *. set_solver.
Qed.

Lemma encountered_extracted doc n tx : tx ∈ encountered doc n → extracted tx.
Proof.
  unfold encountered. intros (i & Htx & _)%list_elem_of_bind.
  apply list_elem_of_omap in Htx as (row & _ & Hrow).
  by apply extractTransaction_extracted in Hrow.
Qed.

Lemma accepted_complete doc n tx : tx ∈ encountered doc n → tx ∈ accepted doc n.
Proof.
  intros Hin. pose proof (firstByKey_complete ∅ _ _ Hin) as Hk.
  fold (accepted doc n) in Hk. unfold keys in Hk.
  apply elem_of_union in Hk as [Hk|Hk]; [|set_solver].
  apply elem_of_list_to_set, list_elem_of_fmap in Hk as (tx' & Heq & Hin').
  assert (tx' ∈ encountered doc n) as Henc.
  { eapply elem_of_sublist; [exact Hin'|apply firstByKey_sublist]. }
  apply txKey_inj_extracted in Heq; [by subst|by eapply encountered_extracted..].
Qed.

(** X11. The collector drops only repeats: when it returns fewer
    records than the maximum, every record that the extractor yielded on
    a link of any query of the run is in the result. *)
Theorem collectTransactions_drops_only_repeats (max : nat) (doc : Document) :
  ∃ st recs,
    collectRun max doc = Some st
    ∧ collectTransactions max doc = Some recs
    ∧ (length recs < max →
       ∀ row tx i, i < polls st → row ∈ doc i →
                   extractTransaction row = Some tx → tx ∈ recs).
Proof.
  destruct (collectTransactions_result max doc) as (st & Hrun & _ & _ & Hres).
  exists st, (take max (accepted doc (polls st))). split; [done|]. split; [done|].
  intros Hlen row tx i Hi Hrow Htx.
  rewrite take_ge by (rewrite length_take in Hlen; lia).
  apply accepted_complete. unfold encountered. apply list_elem_of_bind.
  exists i. split; [|apply elem_of_seq; lia].
  apply list_elem_of_omap. by exists row.
Qed.

End Extractor.

(** ** The product titles and the logs of the enricher *)

Section EnricherLogs.
Context {World : Type} (browser : Browser World).

Lemma elem_of_filter_truthy (l : list jsstring) t :
  t ∈ List.filter truthy l ↔ t ≠ [] ∧ t ∈ l.
Proof.
  rewrite !list_elem_of_In, filter_In. split.
  - intros [Hin Ht]. split; [|done]. by intros ->.
  - intros [Hne Hin]. split; [done|]. by destruct t.
Qed.

Lemma elem_of_filter_longer (l : list jsstring) t :
  t ∈ List.filter (fun text => 2 <? length text) l ↔ 2 < length t ∧ t ∈ l.
Proof.
  rewrite !list_elem_of_In, filter_In, Nat.ltb_lt. naive_solver.
Qed.

Lemma parseProductsFromOrderHtml_spec html :
  (parseProductsFromOrderHtml browser html = Thrown
   ∧ parseFromString browser html = None)
  ∨ ∃ page titles,
      parseFromString browser html = Some page
      ∧ parseProductsFromOrderHtml browser html = Value titles
      ∧ titleList titles
      ∧ let primary := List.filter truthy (normalizeSpace <$> itemTitleLinks page) in
        (primary ≠ [] ∧ ∀ t, t ∈ titles ↔ t ∈ primary)
        ∨ (primary = []
           ∧ ∀ t, t ∈ titles ↔
                  2 < length t ∧ t ∈ normalizeSpace <$> productLinks page).
Proof.
  unfold parseProductsFromOrderHtml.
  destruct (parseFromString browser html) as [page|]; [right|by left].
  exists page. cbn zeta.
  destruct (List.filter truthy (normalizeSpace <$> itemTitleLinks page))
    as [|t0 primary] eqn:Hp; cbn [length Nat.eqb negb].
  - eexists. split; [done|]. split; [done|]. split.
    + split; [apply uniq_NoDup|]. apply Forall_forall. intros t.
      rewrite uniq_elem_of, elem_of_filter_longer, list_elem_of_fmap.
      intros [Hlen (x & -> & _)]. split; [|apply normalizeSpace_twice].
      intros Heq. rewrite Heq in Hlen. simpl in Hlen. lia.
    + right. split; [done|]. intros t.
      by rewrite uniq_elem_of, elem_of_filter_longer.
  - eexists. split; [done|]. split; [done|]. split.
    + split; [apply uniq_NoDup|]. apply Forall_forall. intros t.
      rewrite uniq_elem_of, <- Hp, elem_of_filter_truthy, list_elem_of_fmap.
      intros [Hne (x & -> & _)]. split; [done|apply normalizeSpace_twice].
    + left. split; [done|]. intros t. by rewrite uniq_elem_of.
Qed.

(** X12. [parseProductsFromOrderHtml] throws exactly when the parser
    does.  Otherwise it returns a list without repeats of non-empty,
    normalized titles: the non-empty normalized texts of the item-title
    links when there is one, and else the normalized texts longer than two
    characters of the product links. *)
Theorem parseProductsFromOrderHtml_returns_distinct_titles (html : jsstring) :
  (parseProductsFromOrderHtml browser html = Thrown
   ∧ parseFromString browser html = None)
  ∨ ∃ page titles,
      parseFromString browser html = Some page
      ∧ parseProductsFromOrderHtml browser html = Value titles
      ∧ titleList titles
      ∧ let primary := List.filter truthy (normalizeSpace <$> itemTitleLinks page) in
        (primary ≠ [] ∧ ∀ t, t ∈ titles ↔ t ∈ primary)
        ∨ (primary = []
           ∧ ∀ t, t ∈ titles ↔
                  2 < length t ∧ t ∈ normalizeSpace <$> productLinks page).
Proof. apply parseProductsFromOrderHtml_spec. Qed.

Lemma titleList_nil : titleList [].
Proof. split; constructor. Qed.

Lemma productsOf_titleList outcome : titleList (productsOf browser outcome).
Proof.
  destruct outcome as [|[] [html|]]; simpl; try apply titleList_nil.
  destruct (parseProductsFromOrderHtml_spec html)
    as [[-> _]|(page & titles & _ & -> & Ht & _)]; [apply titleList_nil|done].
Qed.

Lemma length_outcomes urls (w : World) :
  length (outcomes browser urls w) = length urls.
Proof.
  revert w. induction urls as [|url urls IH]; intros w; simpl; [done|].
  destruct (network browser url w) as [outcome w']. simpl. by rewrite IH.
Qed.

Lemma stepEffects_progress key done total e :
  progress (stepEffects browser key done total e)
  = progress e ++ [(done + 1, total)].
Proof. unfold stepEffects. by destruct (network _ _ _). Qed.

Lemma stepEffects_errors key done total e :
  errors (stepEffects browser key done total e)
  = errors e
      ++ (if fetchThrows browser
               (network browser (getOrderDetailsUrl browser key) (world e)).1
          then [key] else []).
Proof. unfold stepEffects. by destruct (network _ _ _). Qed.

Lemma failedOrders_cons key orders (w : World) :
  failedOrders browser (key :: orders) w
  = (if fetchThrows browser (network browser (getOrderDetailsUrl browser key) w).1
     then [key] else [])
    ++ failedOrders browser orders
         (network browser (getOrderDetailsUrl browser key) w).2.
Proof.
  unfold failedOrders. cbn [fmap list_fmap outcomes].
  destruct (network browser (getOrderDetailsUrl browser key) w) as [outcome w'].
  cbn. by destruct (fetchThrows browser outcome).
Qed.

(** The logs of the loop. *)
Lemma enrichLoop_logs orders total cache done e :
  Forall (fun k => truthy k = true) orders →
  ∃ cache' e',
    enrichLoop browser orders total cache done e = (Value cache', e')
    ∧ progress e'
      = progress e ++ ((fun i => (i, total)) <$> seq (done + 1) (length orders))
    ∧ errors e' = errors e ++ failedOrders browser orders (world e)
    ∧ (∀ k products, cache' !! k = Some products →
                     cache !! k = Some products ∨ titleList products).
Proof.
  revert cache done e. induction orders as [|key orders IH];
    intros cache done e Htruthy.
  - exists cache, e. unfold failedOrders. simpl. rewrite !app_nil_r.
    split; [reflexivity|]. split; [reflexivity|]. split; [reflexivity|].
    intros k products Hk. left. exact Hk.
  - apply Forall_cons in Htruthy as [Hkey Htruthy].
    rewrite enrichLoop_cons by done.
    set (cache1 := <[key := _]> cache).
    set (e1 := stepEffects browser key done total e).
    destruct (IH cache1 (done + 1) e1 Htruthy)
      as (cache' & e' & Hrun & Hprog & Herr & Hcache).
    exists cache', e'. split; [done|]. split; [|split].
    + rewrite Hprog. unfold e1. rewrite stepEffects_progress, <- app_assoc.
      replace (done + 1 + 1) with (S (done + 1)) by lia. done.
    + rewrite Herr. unfold e1.
      rewrite stepEffects_errors, stepEffects_world, failedOrders_cons.
      by rewrite <- app_assoc.
    + intros k products Hk. destruct (Hcache k products Hk) as [H1|H1]; [|by right].
      unfold cache1 in H1. destruct (decide (key = k)) as [->|Hne].
      * rewrite lookup_insert_eq in H1. injection H1 as <-.
        right. apply productsOf_titleList.
      * rewrite lookup_insert_ne in H1 by done. by left.
Qed.

Lemma enrich_logs rows e :
  ∃ cache e',
    enrichTransactionsWithProducts browser rows e
      = (Value (withProducts cache <$> rows), e')
    ∧ progress e'
      = progress e
          ++ ((fun i => (i, length (uniqueOrders rows)))
                <$> seq 1 (length (uniqueOrders rows)))
    ∧ errors e' = errors e ++ failedOrders browser (uniqueOrders rows) (world e)
    ∧ (∀ k products, cache !! k = Some products → titleList products).
Proof.
  destruct (enrichLoop_logs (uniqueOrders rows) (length (uniqueOrders rows)) ∅ 0 e
              (uniqueOrders_truthy rows))
    as (cache & e' & Hrun & Hprog & Herr & Hcache).
  exists cache, e'. unfold enrichTransactionsWithProducts.
  unfold mbind, async_bind. rewrite Hrun. split; [done|]. split; [done|].
  split; [done|]. intros k products Hk.
  destruct (Hcache k products Hk) as [H|H]; [|done]. by rewrite lookup_empty in H.
Qed.

(** X13. The enricher calls [onProgress] once after each distinct order
    number, with the counts (1, n), (2, n), ..., (n, n) for n distinct
    order numbers, and logs with [console.error] exactly the order numbers
    whose fetch throws (rejected request, unreadable body, or a parser that
    throws; not a status that is not a success), in the order of the
    requests. *)
Theorem enricher_reports_progress_and_logs_failures
    (rows : list Tx) (e : Effects World) :
  ∃ rows' e',
    enrichTransactionsWithProducts browser rows e = (Value rows', e')
    ∧ progress e'
      = progress e
          ++ ((fun i => (i, length (uniqueOrders rows)))
                <$> seq 1 (length (uniqueOrders rows)))
    ∧ errors e' = errors e ++ failedOrders browser (uniqueOrders rows) (world e).
Proof.
  destruct (enrich_logs rows e) as (cache & e' & Hrun & Hprog & Herr & _).
  by exists (withProducts cache <$> rows), e'.
Qed.

Lemma enrich_titleList rows e :
  ∃ rows' e',
    enrichTransactionsWithProducts browser rows e = (Value rows', e')
    ∧ compositeKey <$> rows' = compositeKey <$> rows
    ∧ Forall (fun r => titleList (products r)) rows'.
Proof.
  destruct (enrich_logs rows e) as (cache & e' & Hrun & _ & _ & Hcache).
  exists (withProducts cache <$> rows), e'. split; [done|]. split.
  - rewrite <- list_fmap_compose. by apply list_fmap_ext.
  - apply Forall_fmap, Forall_forall. intros r _. simpl.
    destruct (cache !! orderNumber r) as [products|] eqn:Hk; simpl;
      [by eapply Hcache|apply titleList_nil].
Qed.

(** X14. Every record that the enricher returns carries a product list
    without repeats whose titles are non-empty and normalized (no white
    space at the ends, no white space inside but single spaces). *)
Theorem enricher_returns_distinct_normalized_titles
    (rows : list Tx) (e : Effects World) :
  ∃ rows' e',
    enrichTransactionsWithProducts browser rows e = (Value rows', e')
    ∧ ∀ r, r ∈ rows' →
           NoDup (products r)
           ∧ ∀ t, t ∈ products r → t ≠ [] ∧ normalizeSpace t = t.
Proof.
  destruct (enrich_titleList rows e) as (rows' & e' & Hrun & _ & Hall).
  exists rows', e'. split; [done|]. intros r Hr.
  rewrite Forall_forall in Hall. destruct (Hall r Hr) as [Hnd Ht].
  split; [done|]. by apply Forall_forall.
Qed.

End EnricherLogs.

(** ** The pipeline *)

Section Pipeline.

Lemma lines_lf_free s : lf_free s → lines s = [s].
Proof.
  induction 1 as [|c s Hc _ IH]; [done|]. cbn [lines].
  destruct (N.eqb_spec c LF) as [?|_]; [done|]. by rewrite IH.
Qed.

Lemma lines_app_lf s t : lf_free s → lines (s ++ LF :: t) = s :: lines t.
Proof.
  induction 1 as [|c s Hc _ IH]; [done|]. cbn [app lines].
  destruct (N.eqb_spec c LF) as [?|_]; [done|]. by rewrite IH.
Qed.

Lemma lines_join ls : ls ≠ [] → Forall lf_free ls → lines (join [LF] ls) = ls.
Proof.
  intros Hne Hls. induction Hls as [|l ls Hl Hls IH]; [done|]. clear Hne.
  destruct ls as [|l2 ls]; [by apply lines_lf_free|].
  rewrite join_cons2. cbn [app]. rewrite lines_app_lf by done. by rewrite IH.
Qed.

Lemma lf_free_app s t : lf_free s → lf_free t → lf_free (s ++ t).
Proof. intros. by apply Forall_app. Qed.

Lemma lf_free_join_comma fs : Forall lf_free fs → lf_free (join [COMMA] fs).
Proof.
  induction 1 as [|f fs Hf Hfs IH]; [constructor|].
  destruct fs as [|f2 fs]; [done|]. rewrite join_cons2.
  apply lf_free_app; [done|]. apply lf_free_app; [|done]. by repeat constructor.
Qed.

Lemma lf_free_replace_quote s : lf_free s → lf_free (replace_char QUOTE [QUOTE; QUOTE] s).
Proof.
  induction 1 as [|c s Hc _ IH]; [constructor|]. cbn [replace_char].
  apply lf_free_app; [|done]. destruct (c =? QUOTE)%N; by repeat constructor.
Qed.

Lemma lf_free_csvEscape s : lf_free s → lf_free (csvEscape s).
Proof.
  intros Hs. unfold csvEscape. destruct (needs_quoting s); [|done].
  apply lf_free_app; [by repeat constructor|].
  apply lf_free_app; [by apply lf_free_replace_quote|by repeat constructor].
Qed.

Lemma lf_free_digits s : digits s → lf_free s.
Proof.
  intros H. eapply Forall_impl; [exact H|]. intros c Hc ->. discriminate Hc.
Qed.

Lemma lf_free_plain_spaced s : plain_spaced s → lf_free s.
Proof.
  intros H. eapply Forall_impl; [exact H|]. intros c Hc ->.
  by discriminate Hc.
Qed.

Lemma lf_free_isoDate s : s = [] ∨ isoDate s → lf_free s.
Proof.
  intros [->|(Y & mm & dd & -> & HY & _ & (M & [Hmm _]%MONTHS_values) & Hdd & _)];
    [constructor|].
  repeat apply lf_free_app; try (by apply lf_free_digits); by repeat constructor.
Qed.

Lemma lf_free_signedDecimal s : s = [] ∨ signedDecimal s → lf_free s.
Proof.
  intros [->|(sign & int & frac & -> & Hsign & _ & Hint & Hfrac)]; [constructor|].
  repeat apply lf_free_app.
  - destruct Hsign as [->|[->| ->]]; by repeat constructor.
  - by apply lf_free_digits.
  - destruct Hfrac as [->|(f1 & f2 & -> & H1 & H2)]; [constructor|].
    constructor; [done|]. apply lf_free_digits. by repeat constructor.
Qed.

Lemma lf_free_order s : Forall (fun c => is_order_char c = true) s → lf_free s.
Proof.
  intros H. eapply Forall_impl; [exact H|]. intros c Hc ->. discriminate Hc.
Qed.

Lemma lf_free_title t : normalizeSpace t = t → lf_free t.
Proof.
  intros <-. apply lf_free_plain_spaced, single_spaced_plain_spaced,
               single_spaced_normalizeSpace.
Qed.

Lemma lf_free_uint_digits u : lf_free (uint_digits u).
Proof. induction u; simpl; by repeat constructor. Qed.

Lemma lf_free_header rows : Forall lf_free (header rows).
Proof.
  unfold header, productHeaders, Array_from. apply Forall_app. split.
  - unfold lf_free. vm_compute.
    repeat (constructor; [repeat (constructor; [discriminate|]); constructor|]).
    constructor.
  - apply Forall_fmap, Forall_forall. intros i _. cbv beta.
    apply lf_free_app; [|apply lf_free_uint_digits].
    unfold lf_free. vm_compute. repeat (constructor; [discriminate|]). constructor.
Qed.

Lemma lf_free_rowFields rows row : one_line row → Forall lf_free (rowFields rows row).
Proof.
  intros (Hd & Hc & Ho & Ha & Hp). unfold rowFields, paddedProducts, Array_from.
  repeat (constructor; [done|]). cbn [app].
  apply Forall_fmap, Forall_forall. intros i _. unfold compose.
  rewrite item_or_empty_lookup.
  destruct (products row !! i) as [p|] eqn:Hi; [|by apply Forall_nil]. cbn [default].
  rewrite Forall_forall in Hp. apply Hp. by eapply list_elem_of_lookup_2.
Qed.

Lemma lines_buildCsv rows :
  Forall one_line rows → lines (buildCsv rows) = csvLines rows.
Proof.
  intros Hrows. unfold buildCsv. apply lines_join; [done|].
  unfold csvLines. apply Forall_app. split.
  - constructor; [|constructor]. apply lf_free_join_comma, lf_free_header.
  - apply Forall_fmap. eapply Forall_impl; [exact Hrows|]. intros row Hrow. cbv beta.
    apply lf_free_join_comma, Forall_fmap.
    eapply Forall_impl; [by apply lf_free_rowFields|]. apply lf_free_csvEscape.
Qed.

Lemma one_line_enriched tx tx' :
  extracted tx → compositeKey tx' = compositeKey tx → titleList (products tx') →
  one_line tx'.
Proof.
  intros (Hd & (Hc & _ & _) & Ho & Ha & _) Hk [_ Hp].
  unfold compositeKey in Hk. injection Hk as H1 H2 H3 H4.
  unfold one_line. rewrite H1, H2, H3, H4.
  split; [by apply lf_free_isoDate|]. split; [by apply lf_free_plain_spaced|].
  split; [by apply lf_free_order|]. split; [by apply lf_free_signedDecimal|].
  eapply Forall_impl; [exact Hp|]. intros t [_ Ht]. by apply lf_free_title.
Qed.

Lemma Forall2_compositeKey (rows' rows : list Tx) :
  compositeKey <$> rows' = compositeKey <$> rows →
  Forall2 (fun tx' tx => compositeKey tx' = compositeKey tx) rows' rows.
Proof.
  revert rows. induction rows' as [|r' rows' IH]; intros [|r rows] Heq;
    try discriminate Heq; [constructor|].
  cbn [fmap list_fmap] in Heq. apply (inj2 cons) in Heq as [Hk Heq].
  constructor; [done|by apply IH].
Qed.

Lemma one_line_all (rows rows' : list Tx) :
  Forall extracted rows → compositeKey <$> rows' = compositeKey <$> rows →
  Forall (fun r => titleList (products r)) rows' → Forall one_line rows'.
Proof.
  intros Hext Hkeys%Forall2_compositeKey Ht.
  induction Hkeys as [|r' r rows' rows Hk _ IH]; [constructor|].
  apply Forall_cons in Hext as [He Hext]. apply Forall_cons in Ht as [Hr Ht].
  constructor; [by eapply one_line_enriched|by apply IH].
Qed.

(** X15. The data path of the click handler always ends without an
    exception, and what it does is fixed by the records the collector
    returns, of which there are at most 200.  With no record it makes no
    file and leaves the effects as they were (no request).  Otherwise the
    file is [buildCsv] of what the enricher returns on those records, as
    many as were collected, and no field holds a line feed: the lines of
    the text are the header line and one line for each record. *)
Theorem exportCsv_writes_one_line_per_record {World} (browser : Browser World)
    (doc : Document) (e : Effects World) :
  ∃ rows,
    collectTransactions MAX_TRANSACTIONS doc = Some rows
    ∧ length rows ≤ MAX_TRANSACTIONS
    ∧ match rows with
      | [] => exportCsv browser doc e = Some (Value None, e)
      | _ :: _ =>
          ∃ rows' e',
            enrichTransactionsWithProducts browser rows e = (Value rows', e')
            ∧ exportCsv browser doc e = Some (Value (Some (buildCsv rows')), e')
            ∧ length rows' = length rows
            ∧ lines (buildCsv rows') = csvLines rows'
            ∧ length (lines (buildCsv rows')) = S (length rows)
      end.
Proof.
  destruct (collectTransactions_result MAX_TRANSACTIONS doc)
    as (st & _ & _ & _ & Hres).
  set (rows := take MAX_TRANSACTIONS (accepted doc (polls st))) in Hres.
  assert (Hext : Forall extracted rows).
  { apply Forall_forall. intros tx Htx. apply (encountered_extracted doc (polls st)).
    eapply elem_of_sublist; [exact Htx|]. unfold rows, accepted.
    etrans; [apply sublist_take|apply firstByKey_sublist]. }
  assert (Hlen : length rows ≤ MAX_TRANSACTIONS) by (unfold rows; rewrite length_take; lia).
  exists rows. split; [done|]. split; [done|].
  unfold exportCsv. rewrite Hres. cbn [mbind option_bind].
  destruct rows as [|row rows0] eqn:Hrows; [done|]. rewrite <- Hrows in *.
  replace (length rows =? 0) with false by (by rewrite Hrows).
  destruct (enrich_titleList browser rows e) as (rows' & e' & Hrun & Hkeys & Ht).
  exists rows', e'. split; [done|]. rewrite Hrun. split; [done|].
  assert (Hl : length rows' = length rows).
  { apply (f_equal length) in Hkeys. by rewrite !length_fmap in Hkeys. }
  split; [done|].
  assert (Hlines : lines (buildCsv rows') = csvLines rows').
  { apply lines_buildCsv. by eapply one_line_all. }
  split; [done|]. rewrite Hlines. unfold csvLines.
  rewrite length_app, length_fmap, Hl. done.
Qed.

End Pipeline.


Lemma length_uniq_from {A} `{EqDecision A} (seen xs : list A) :
  length (uniq_from seen xs) ≤ length xs.
Proof.
  revert seen. induction xs as [|x xs IH]; intros seen; simpl; [done|].
  destruct (decide (x ∈ seen)); simpl; [specialize (IH seen)|specialize (IH (x :: seen))]; lia.
Qed.

Lemma length_uniqueOrders rows : length (uniqueOrders rows) ≤ length rows.
Proof.
  unfold uniqueOrders, uniq. etrans; [apply length_uniq_from|].
  etrans; [apply List.filter_length_le|]. by rewrite length_fmap.
Qed.

(** X19. An export issues the requests of the distinct non-empty order
    numbers of the records the collector returns, one each and in the
    order of their first occurrences: at most 200 requests, and every
    order number it asks for is a non-empty text of ASCII letters, digits
    and dashes. *)
Theorem exportCsv_requests_only_well_formed_order_numbers {World}
    (browser : Browser World) (doc : Document) (e : Effects World) :
  ∃ rows out e',
    collectTransactions MAX_TRANSACTIONS doc = Some rows
    ∧ exportCsv browser doc e = Some (Value out, e')
    ∧ requests e' = requests e ++ (getOrderDetailsUrl browser <$> uniqueOrders rows)
    ∧ NoDup (uniqueOrders rows)
    ∧ (∀ k, k ∈ uniqueOrders rows
            ↔ k ≠ [] ∧ ∃ row, row ∈ rows ∧ orderNumber row = k)
    ∧ length (uniqueOrders rows) ≤ MAX_TRANSACTIONS
    ∧ ∀ k, k ∈ uniqueOrders rows → Forall (fun c => is_order_char c = true) k.
Proof.
  destruct (collectTransactions_result MAX_TRANSACTIONS doc)
    as (st & _ & _ & _ & Hres).
  set (rows := take MAX_TRANSACTIONS (accepted doc (polls st))) in Hres.
  assert (Hext : ∀ tx, tx ∈ rows → extracted tx).
  { intros tx Htx. apply (encountered_extracted doc (polls st)).
    eapply elem_of_sublist; [exact Htx|]. unfold rows, accepted.
    etrans; [apply sublist_take|apply firstByKey_sublist]. }
  assert (Hlen : length rows ≤ MAX_TRANSACTIONS) by (unfold rows; rewrite length_take; lia).
  assert (Hrest :
            NoDup (uniqueOrders rows)
            ∧ (∀ k, k ∈ uniqueOrders rows
                    ↔ k ≠ [] ∧ ∃ row, row ∈ rows ∧ orderNumber row = k)
            ∧ length (uniqueOrders rows) ≤ MAX_TRANSACTIONS
            ∧ ∀ k, k ∈ uniqueOrders rows → Forall (fun c => is_order_char c = true) k).
  { split; [apply uniq_NoDup|]. split; [apply uniqueOrders_elem_of|].
    split; [etrans; [apply length_uniqueOrders|done]|].
    intros k [Hne (row & Hrow & <-)]%uniqueOrders_elem_of.
    by destruct (Hext row Hrow) as (_ & _ & Ho & _). }
  exists rows. unfold exportCsv. rewrite Hres. cbn [mbind option_bind].
  destruct (length rows =? 0) eqn:H0.
  - exists None, e. split; [done|]. split; [done|]. split; [|done].
    apply Nat.eqb_eq in H0. destruct rows; [|discriminate H0].
    by rewrite app_nil_r.
  - destruct (enrich_spec browser rows e) as (cache & e' & Hrun & Hreq & _).
    rewrite Hrun. eexists _, e'. split; [done|]. split; [done|]. done.
Qed.

(** ** The scroll container *)

Section Scroll.
Context {Node : Type} (page : Layout Node).

Lemma canScroll_true current :
  canScroll page current = true ↔
  (overflowY page current = js "auto" ∨ overflowY page current = js "scroll")
  ∧ (clientHeight page current + 8 < scrollHeight page current)%Z.
Proof.
  unfold canScroll.
  rewrite andb_true_iff, orb_true_iff, !bool_decide_eq_true, Z.ltb_lt. done.
Qed.

(** X16. [getScrollableContainer] returns the nearest element of the
    walk from the anchor towards the body whose overflow-y is auto or
    scroll and whose content is more than 8 pixels taller than its box;
    when the walk has no such element it returns the scrolling element of
    the document. *)
Theorem getScrollableContainer_nearest_scrollable (path : list Node) :
  (∃ nearer further,
      path = nearer ++ getScrollableContainer page path :: further
      ∧ Forall (fun current => canScroll page current = false) nearer
      ∧ (overflowY page (getScrollableContainer page path) = js "auto"
         ∨ overflowY page (getScrollableContainer page path) = js "scroll")
      ∧ (clientHeight page (getScrollableContainer page path) + 8
         < scrollHeight page (getScrollableContainer page path))%Z)
  ∨ (Forall (fun current => canScroll page current = false) path
     ∧ getScrollableContainer page path = rootScroller page).
Proof.
  induction path as [|current parents IH]; cbn [getScrollableContainer].
  - right. split; [constructor|done].
  - destruct (canScroll page current) eqn:Hc.
    + left. exists [], parents. split; [done|]. split; [constructor|].
      by apply canScroll_true.
    + destruct IH as [(nearer & further & Heq & Hn & Hs)|[Hall Hroot]].
      * left. exists (current :: nearer), further.
        split; [by rewrite Heq at 1|]. split; [by constructor|done].
      * right. split; [by constructor|done].
Qed.

End Scroll.

(** ** The name of the file *)

Section FileName.

Lemma replace_class_app p by_ s t :
  replace_class p by_ (s ++ t) = replace_class p by_ s ++ replace_class p by_ t.
Proof.
  induction s as [|c s IH]; [done|]. cbn [app replace_class].
  by rewrite IH, app_assoc.
Qed.

Lemma digit_not_colon_or_T c : is_digit c = true → is_colon_or_T c = false.
Proof.
  intros H. destruct (is_colon_or_T c) eqn:E; [|done]. exfalso.
  unfold is_colon_or_T, COLON in E. char_arith.
Qed.

Lemma replace_class_digits s :
  digits s → replace_class is_colon_or_T (js "-") s = s.
Proof.
  induction 1 as [|c s Hc _ IH]; [done|]. cbn [replace_class].
  by rewrite digit_not_colon_or_T, IH.
Qed.

Lemma stamp_isoInstant iso Y M D h m s rest :
  isoInstant iso Y M D h m s rest →
  stamp iso = Y ++ js "-" ++ M ++ js "-" ++ D ++ js "-" ++ h ++ js "-" ++ m
                ++ js "-" ++ s.
Proof.
  intros (-> & [HY HlY] & [HM HlM] & [HD HlD] & [Hh Hlh] & [Hm Hlm] & [Hs Hls]).
  unfold stamp.
  replace (Y ++ js "-" ++ M ++ js "-" ++ D ++ js "T" ++ h ++ js ":" ++ m
             ++ js ":" ++ s ++ rest)
    with ((Y ++ js "-" ++ M ++ js "-" ++ D ++ js "T" ++ h ++ js ":" ++ m
             ++ js ":" ++ s) ++ rest)
    by (by rewrite <- !app_assoc).
  rewrite take_app_length'
    by (rewrite !length_app, HlY, HlM, HlD, Hlh, Hlm, Hls; reflexivity).
  rewrite !replace_class_app.
  rewrite (replace_class_digits Y), (replace_class_digits M),
    (replace_class_digits D), (replace_class_digits h),
    (replace_class_digits m), (replace_class_digits s) by done.
  reflexivity.
Qed.

Lemma name_chars_digits s : digits s → Forall (fun c => is_name_char c = true) s.
Proof.
  intros H. eapply Forall_impl; [exact H|]. intros c Hc. unfold is_name_char.
  by rewrite Hc, orb_true_r.
Qed.

Lemma digits_uint_digits u : digits (uint_digits u).
Proof. induction u; simpl; by repeat constructor. Qed.

(** X17. For an instant that [toISOString] writes as
    YYYY-MM-DDTHH:mm:ss followed by the fraction and the zone, the file
    is named amazon-transactions-N-YYYY-MM-DD-HH-mm-ss.csv, where N is the
    row count in decimal; the name holds only lower-case ASCII letters,
    digits, dashes and points, so no colon and no separator of paths. *)
Theorem fileName_of_iso_instant (rowCount : nat) (iso Y M D h m s rest : jsstring) :
  isoInstant iso Y M D h m s rest →
  fileName rowCount iso
  = js "amazon-transactions-" ++ String_of_nat rowCount ++ js "-"
      ++ Y ++ js "-" ++ M ++ js "-" ++ D ++ js "-" ++ h ++ js "-" ++ m
      ++ js "-" ++ s ++ js ".csv"
  ∧ Forall (fun c => is_name_char c = true) (fileName rowCount iso).
Proof.
  intros Hiso. unfold fileName. rewrite (stamp_isoInstant _ _ _ _ _ _ _ _ Hiso).
  destruct Hiso as (_ & [HY _] & [HM _] & [HD _] & [Hh _] & [Hm _] & [Hs _]).
  split; [by rewrite <- !app_assoc|].
  assert (Hdash : Forall (fun c => is_name_char c = true) (js "-"))
    by (by repeat constructor).
  rewrite !Forall_app.
  repeat split;
    first [ done
          | by apply name_chars_digits
          | apply name_chars_digits, digits_uint_digits
          | by repeat constructor ].
Qed.

Lemma fileName_of_iso_instant_witness :
  fileName 42 (js "2024-01-05T10:20:30.123Z")
  = js "amazon-transactions-42-2024-01-05-10-20-30.csv"
  ∧ Forall (fun c => is_name_char c = true)
           (fileName 42 (js "2024-01-05T10:20:30.123Z")).
Proof.
  apply (fileName_of_iso_instant 42 (js "2024-01-05T10:20:30.123Z")
           (js "2024") (js "01") (js "05") (js "10") (js "20") (js "30")
           (js ".123Z")).
  unfold isoInstant.
  repeat split; try reflexivity; by repeat constructor.
Defined.

End FileName.

(** ** The amount of a record *)

Section AmountElement.

Lemma AMOUNT_REGEX_digit text :
  test AMOUNT_REGEX text = true → ∃ d, d ∈ text ∧ is_digit d = true.
Proof.
  unfold test, exec. intros [st Hst]%bool_decide_eq_true.
  destruct (search _ _ _ _) as [st'|] eqn:Hs; [|done].
  apply search_Some in Hs as (pre & t & -> & Hin).
  apply run_sound in Hin as (w & Hrest & Hl & _). simpl in Hrest.
  destruct Hl as (u1 & v1 & -> & _ & u2 & v2 & -> & _ & u3 & v3 & -> & _
                    & u4 & v4 & -> & _ & Hn).
  apply lang_number in Hn as (d & ds & frac & -> & Hd & _).
  exists d. split; [|done]. rewrite Hrest. set_solver.
Qed.

Lemma parseAmountValue_digit raw d :
  d ∈ raw → is_digit d = true → parseAmountValue raw ≠ [].
Proof.
  intros Hin Hd. unfold parseAmountValue.
  pose proof (normalizeSpace_keeps raw d Hin (digit_not_space d Hd)) as Hn.
  destruct (AMOUNT_VALUE_REGEX_exec_digit _ d Hn Hd) as (m & Hm). rewrite Hm.
  apply AMOUNT_VALUE_REGEX_exec_inv in Hm as (d' & x & -> & Hd' & _).
  rewrite replace_char_filter, filter_cons_True by (by apply digit_not_comma).
  intros [_ H]%app_eq_nil. discriminate H.
Qed.

(** X18. When a text element of a row matches [AMOUNT_REGEX] after
    normalization, [extractTransaction] returns a record, and its amount
    is not empty: the pattern that selects the element and the pattern
    that reads the value never disagree on whether there is an amount. *)
Theorem extractTransaction_amount_element_gives_amount (row : Element) (t : jsstring) :
  t ∈ textElements row → test AMOUNT_REGEX (normalizeSpace t) = true →
  ∃ tx, extractTransaction row = Some tx ∧ totalAmount tx ≠ [].
Proof.
  intros Hin Htest. unfold extractTransaction. cbn zeta.
  destruct (List.find (fun t => test AMOUNT_REGEX (normalizeSpace t))
                      (textElements row)) as [t'|] eqn:Hfind.
  - apply find_some in Hfind as [_ Ht']. cbn [default]. change (id t') with t'.
    apply AMOUNT_REGEX_digit in Ht' as (d & Hd & Hdig).
    pose proof (parseAmountValue_digit (normalizeSpace t') d Hd Hdig) as Hne.
    destruct (parseAmountValue (normalizeSpace t')) as [|c a] eqn:Ha; [done|].
    cbn [truthy negb]. rewrite andb_false_r. cbn [andb]. eexists.
    split; [done|]. done.
  - apply list_elem_of_In in Hin.
    by rewrite (find_none _ _ Hfind t Hin) in Htest.
Qed.


Lemma extractTransaction_amount_element_gives_amount_witness :
  ∃ tx, extractTransaction (entryA1 "-$5.00") = Some tx ∧ totalAmount tx ≠ [].
Proof.
  apply (extractTransaction_amount_element_gives_amount _ (js "-$5.00")).
  - vm_compute. set_solver.
  - vm_compute. reflexivity.
Defined.

End AmountElement.

(** ** The number of queries of the collector *)

Section Queries.
Context (max : nat) (doc : Document).


End Queries.


(** ** The order number of a record *)

Section OrderNumber.

Lemma order_char_not_space c : is_order_char c = true → is_space c = false.
Proof. intros H. destruct (is_space c) eqn:E; [|done]. exfalso. char_arith. Qed.

Lemma ORDER_REGEX_first n text number :
  orderShape text number →
  ∃ before t st,
    text = before ++ t
    ∧ Forall (fun c => upper c ≠ 79%N) before
    ∧ head (run n ORDER_REGEX (MState t (replicate 2 None))) = Some st
    ∧ caps st = [None; Some number].
Proof.
  intros (before & word & ws1 & ws2 & after & -> & Hb & Hword & Hws1 & Hws2
            & Hne & Hnum & Hafter).
  exists before, (word ++ ws1 ++ [HASH] ++ ws2 ++ number ++ after),
    (MState after [None; Some number]).
  split; [done|]. split; [done|]. split; [|done].
  destruct number as [|c cs]; [done|]. apply Forall_cons in Hnum as [Hc Hcs].
  unfold ORDER_REGEX.
  eapply first_Cat; [by rewrite run_WordI|].
  eapply first_Cat; [by apply first_Star_class|].
  eapply first_Cat; [by apply first_Class|].
  eapply first_Cat.
  { apply first_Star_class; [done|]. by apply order_char_not_space. }
  change [None; Some (c :: cs)] with (<[1 := Some (c :: cs)]> (replicate 2 (@None jsstring))).
  apply (first_Capture_word n 1 _ (c :: cs) after). unfold Plus. cbn [app].
  eapply first_Cat; [by apply first_Class|]. by apply first_Star_class.
Qed.

Lemma ORDER_REGEX_search n before t st :
  Forall (fun c => upper c ≠ 79%N) before →
  head (run n ORDER_REGEX (MState t (replicate 2 None))) = Some st →
  search n 1 ORDER_REGEX (before ++ t) = Some st.
Proof.
  intros Hb Ht. induction Hb as [|c before Hc _ IH]; [by apply search_first|].
  cbn [app search]. unfold ORDER_REGEX at 1. cbn [run].
  change (js "Order") with (79%N :: js "rder").
  rewrite (run_WordI_nil n 79%N); [done|]. exact Hc.
Qed.

Lemma ORDER_REGEX_exec text number :
  orderShape text number → exec 1 ORDER_REGEX text = Some [None; Some number].
Proof.
  intros (before & t & st & -> & Hb & Hst & Hcaps)%(ORDER_REGEX_first (length text)).
  unfold exec. rewrite (ORDER_REGEX_search _ _ _ _ Hb Hst). simpl. by rewrite Hcaps.
Qed.

(** X21. When the normalized text of the first element of a row that
    holds an order mark reads: the word Order in either case, optional
    white space, a hash, optional white space and a run of letters, digits
    and dashes that ends there or before another character, with no
    letter O before the word, [extractTransaction] returns a record whose
    order number is that run. *)
Theorem extractTransaction_reads_order_number
    (row : Element) (t number : jsstring) :
  List.find (test ORDER_MARK_REGEX) (textElements row) = Some t →
  orderShape (normalizeSpace t) number →
  ∃ tx, extractTransaction row = Some tx ∧ orderNumber tx = number.
Proof.
  intros Hfind Hshape. unfold extractTransaction. cbn zeta.
  rewrite Hfind. cbn [default]. change (id t) with t.
  rewrite (ORDER_REGEX_exec _ _ Hshape).
  change (group 1 [None; Some number]) with number.
  destruct Hshape as (_ & _ & _ & _ & _ & _ & _ & _ & _ & _ & Hne & _).
  destruct number as [|c cs]; [done|].
  cbn [truthy negb]. rewrite andb_false_r. cbn [andb]. eauto.
Qed.

Lemma extractTransaction_reads_order_number_witness :
  ∃ tx, extractTransaction (entryA1 "$10.00") = Some tx ∧ orderNumber tx = js "A1".
Proof.
  apply (extractTransaction_reads_order_number _ (js "Order #A1")).
  - vm_compute. reflexivity.
  - exists [], (js "Order"), [SP], [], []. vm_compute.
    repeat split; try discriminate; by repeat constructor.
Defined.

End OrderNumber.

(** ** The amount found in any text *)

Section FirstAmount.

(** The search stops at the leftmost position where the pattern matches,
    with the match the engine tries first. *)
Lemma search_leftmost n groups r s st :
  search n groups r s = Some st →
  ∃ pre t,
    s = pre ++ t
    ∧ head (run n r (MState t (replicate (S groups) None))) = Some st
    ∧ ∀ b1 b2, pre = b1 ++ b2 → b2 ≠ [] →
               run n r (MState (b2 ++ t) (replicate (S groups) None)) = [].
Proof.
  induction s as [|c s IH]; cbn [search].
  - destruct (run n r _) as [|st0 l] eqn:Hrun; [done|]. intros [= <-].
    exists [], []. rewrite Hrun. split; [done|]. split; [done|].
    by intros [|??] [|??] ?.
  - destruct (run n r (MState (c :: s) _)) as [|st0 l] eqn:Hrun.
    + intros (pre & t & -> & Hhead & Hleft)%IH. exists (c :: pre), t.
      split; [done|]. split; [done|]. intros [|x b1] b2 Heq Hne.
      * simpl in Heq. subst b2. exact Hrun.
      * injection Heq as _ Heq. by apply (Hleft b1).
    + intros [= <-]. exists [], (c :: s). rewrite Hrun. split; [done|].
      split; [done|]. by intros [|??] [|??] ?.
Qed.

Lemma lang_WordI lit w : lang (WordI lit) w → upper <$> w = upper <$> lit.
Proof.
  revert w. induction lit as [|c lit IH]; intros w; cbn [WordI lang].
  - by intros ->.
  - intros (u & v & -> & (x & -> & Hx%N.eqb_eq) & Hv%IH). cbn. by rewrite Hx, Hv.
Qed.

Lemma lang_currency w : lang (Opt currency) w → currencyMarker w.
Proof.
  unfold currencyMarker.
  intros [[(c & -> & Hc)|[H|[H|H]]]| ->]; [|apply lang_WordI in H..|by left].
  - unfold is_currency_symbol in Hc.
    apply orb_true_iff in Hc as [Hc| ->%N.eqb_eq];
      [apply orb_true_iff in Hc as [->%N.eqb_eq| ->%N.eqb_eq]|]; tauto.
  - do 4 right. by left.
  - do 5 right. by left.
  - do 6 right. done.
Qed.

(** Every match splits the text into a lead, a first digit and the
    rest. *)
Lemma AMOUNT_VALUE_REGEX_parts n t cs st :
  st ∈ run n AMOUNT_VALUE_REGEX (MState t cs) →
  ∃ sign d X, amountLead (take (length t - length (d :: X)) t) sign
              ∧ t = take (length t - length (d :: X)) t ++ d :: X
              ∧ is_digit d = true.
Proof.
  unfold AMOUNT_VALUE_REGEX.
  intros (m1 & H1 & H)%elem_of_run_Cat.
  apply elem_of_run_Cat in H as (m2 & H2 & H).
  apply elem_of_run_Cat in H as (m3 & H3 & H).
  apply elem_of_run_Cat in H as (m4 & H4 & H5).
  apply run_sound in H1 as (sgn & Hr1 & Hl1%lang_sign & _).
  apply run_sound in H2 as (ws1 & Hr2 & Hl2%lang_Star_Class & _).
  apply run_sound in H3 as (cur & Hr3 & Hl3%lang_currency & _).
  apply run_sound in H4 as (ws2 & Hr4 & Hl4%lang_Star_Class & _).
  apply run_sound in H5 as (w & Hr5 & (d & ds & frac & -> & Hd & _)%lang_number & _).
  cbn [rest] in Hr1. rewrite Hr2, Hr3, Hr4, Hr5 in Hr1.
  exists sgn, d, ((ds ++ frac) ++ rest st).
  assert (Ht : t = (sgn ++ ws1 ++ cur ++ ws2) ++ d :: (ds ++ frac) ++ rest st)
    by (rewrite Hr1; cbn [app]; by rewrite <- !app_assoc).
  assert (Htake : take (length t - length (d :: (ds ++ frac) ++ rest st)) t
                  = sgn ++ ws1 ++ cur ++ ws2).
  { rewrite Ht at 1 2. by rewrite take_consumed. }
  rewrite Htake. split; [by exists ws1, cur, ws2|]. done.
Qed.

(** The longest run of characters of a class at the start of a text. *)
Lemma longest_run (p : char → bool) (X : jsstring) :
  ∃ w s, X = w ++ s ∧ Forall (fun c => p c = true) w
         ∧ match s with c :: _ => p c = false | [] => True end.
Proof.
  induction X as [|c X (w & s & -> & Hw & Hs)].
  - exists [], []. split; [done|]. split; [constructor|done].
  - destruct (p c) eqn:Hc.
    + exists (c :: w), s. split; [done|]. split; [by constructor|done].
    + exists [], (c :: w ++ s). split; [done|]. split; [constructor|done].
Qed.

(** The greedy split of what follows a digit. *)
Lemma greedyNumber_split d (X : jsstring) :
  is_digit d = true →
  ∃ ds frac after, X = ds ++ frac ++ after ∧ greedyNumber d ds frac after.
Proof.
  intros Hd. destruct (longest_run is_digit_or_comma X) as (ds & s & -> & Hds & Hs).
  assert (Hplain :
            (¬ ∃ f1 f2 rest, s = DOT :: f1 :: f2 :: rest
                             ∧ is_digit f1 = true ∧ is_digit f2 = true) →
            ∃ ds' frac after,
              ds ++ s = ds' ++ frac ++ after ∧ greedyNumber d ds' frac after).
  { intros Hno. exists ds, [], s. split; [done|]. split; [done|].
    split; [done|]. split; [by left|]. split; [done|]. done. }
  destruct s as [|c [|f1 [|f2 rest]]];
    try (apply Hplain; by intros (? & ? & ? & ? & _)).
  destruct (decide (c = DOT)) as [->|Hc];
    [|apply Hplain; intros (? & ? & ? & [= ? _] & _); done].
  destruct (is_digit f1) eqn:H1;
    [|apply Hplain; intros (? & ? & ? & [= <- _] & ? & _); congruence].
  destruct (is_digit f2) eqn:H2;
    [|apply Hplain; intros (? & ? & ? & [= _ <- _] & _ & ?); congruence].
  exists ds, [DOT; f1; f2], rest. split; [done|]. split; [done|].
  split; [done|]. split; [right; by exists f1, f2|]. split; [done|]. done.
Qed.

Lemma run_fraction_nil n after cs :
  (¬ ∃ f1 f2 rest, after = DOT :: f1 :: f2 :: rest
                   ∧ is_digit f1 = true ∧ is_digit f2 = true) →
  run n (Chr DOT ~> Rep2 digit) (MState after cs) = [].
Proof.
  intros Hno. unfold Chr, Rep2, digit. cbn [run rest caps].
  destruct after as [|c after]; [done|].
  destruct (N.eqb_spec c DOT) as [->|_]; [|done]. cbn [mbind list_bind app rest caps].
  destruct after as [|f1 after]; [done|].
  destruct (is_digit f1) eqn:H1; [|done]. cbn [mbind list_bind app rest caps].
  destruct after as [|f2 after]; [done|].
  destruct (is_digit f2) eqn:H2; [|done]. destruct Hno. by exists f1, f2, after.
Qed.

Lemma first_number_greedy n d ds frac after cs :
  greedyNumber d ds frac after →
  head (run n number (MState (d :: ds ++ frac ++ after) cs)) = Some (MState after cs).
Proof.
  intros (Hd & Hds & Hfrac & Hnext & Hno). unfold number, digit.
  eapply first_Cat; [by apply first_Class|].
  eapply first_Cat; [by apply first_Star_class|].
  destruct Hfrac as [->|(f1 & f2 & -> & H1 & H2)].
  - apply first_Opt_skip. by apply run_fraction_nil, Hno.
  - apply first_Or_l. unfold Chr, Rep2.
    eapply first_Cat; [by apply first_Class|].
    eapply first_Cat; by apply first_Class.
Qed.

(** The match the engine tries first on a lead followed by a number. *)
Lemma AMOUNT_VALUE_REGEX_greedy n lead sign d ds frac after :
  amountLead lead sign → greedyNumber d ds frac after →
  head (run n AMOUNT_VALUE_REGEX
          (MState (lead ++ d :: ds ++ frac ++ after) (replicate 3 None)))
  = Some (MState after [None; Some sign; Some (d :: ds ++ frac)]).
Proof.
  intros (ws1 & cur & ws2 & -> & Hsign & Hws1 & Hcur & Hws2) Hg.
  pose proof Hg as (Hd & _). rewrite <- !app_assoc.
  apply AMOUNT_VALUE_REGEX_prefix; [done..|].
  refine (eq_trans _ (first_Capture_word n 2 number (d :: ds ++ frac) after
                        (<[1 := Some sign]> (replicate 3 None))
                        (<[1 := Some sign]> (replicate 3 None)) _)).
  - cbn [app]. by rewrite <- app_assoc.
  - cbn [app]. rewrite <- app_assoc. by apply first_number_greedy.
Qed.

Lemma exec_firstAmount text :
  (∃ c, c ∈ text ∧ is_digit c = true) →
  ∃ sign number,
    firstAmount text sign number
    ∧ exec 2 AMOUNT_VALUE_REGEX text = Some [None; Some sign; Some number].
Proof.
  intros (c & Hin & Hc).
  destruct (AMOUNT_VALUE_REGEX_exec_digit text c Hin Hc) as (m & Hm).
  unfold exec in *. destruct (search _ _ _ _) as [st|] eqn:Hs; [|done]. clear Hm.
  apply search_leftmost in Hs as (pre & t & -> & Hhead & Hleft).
  set (n := length (pre ++ t)) in *.
  assert (Hst : st ∈ run n AMOUNT_VALUE_REGEX (MState t (replicate 3 None))).
  { destruct (run n AMOUNT_VALUE_REGEX _) as [|st0 l]; [done|].
    injection Hhead as ->. by left. }
  apply AMOUNT_VALUE_REGEX_parts in Hst as (sign & d & X & Hlead & Ht & Hd).
  set (lead := take _ t) in *.
  destruct (greedyNumber_split d X Hd) as (ds & frac & after & -> & Hg).
  pose proof (AMOUNT_VALUE_REGEX_greedy n lead sign d ds frac after Hlead Hg) as Hfirst.
  rewrite <- Ht, Hhead in Hfirst. injection Hfirst as ->.
  exists sign, (d :: ds ++ frac). split; [|done].
  exists pre, lead, d, ds, frac, after.
  split; [rewrite Ht at 1; cbn [app]; by rewrite <- app_assoc|]. split; [done|].
  split; [|split; [done|split; [|done]]].
  - apply Forall_forall. intros x Hx. destruct (is_digit x) eqn:Hdx; [|done].
    apply list_elem_of_split in Hx as (b1 & b2 & ->).
    destruct (AMOUNT_VALUE_REGEX_at_digit n x (b2 ++ t) Hdx).
    by apply (Hleft b1 (x :: b2)).
  - intros b1 b2 sign' Hpre Hne Hlead'.
    pose proof (AMOUNT_VALUE_REGEX_greedy n _ sign' d ds frac after Hlead' Hg) as H.
    rewrite <- app_assoc, <- Ht, (Hleft b1 b2 Hpre Hne) in H. done.
Qed.

End FirstAmount.

(** C10. Whenever the text holds a decimal digit, [parseAmountValue]
    returns a result that is not empty, and the result is the first
    amount of the normalized text: the number that starts at the first
    digit of the text and is taken greedily (digits and commas, then a
    fraction of two digits when one follows), without its commas, after
    the sign of the longest lead (sign, white space, currency marker,
    white space, each optional) that ends at that digit.  No currency
    marker and no amount formatting is needed, and the text around the
    number is dropped. *)
Theorem parseAmountValue_nonempty_on_any_digit (rawText : jsstring) :
  (∃ c, c ∈ rawText ∧ is_digit c = true) →
  ∃ sign number,
    firstAmount (normalizeSpace rawText) sign number
    ∧ parseAmountValue rawText = sign ++ filter (fun c => c ≠ COMMA) number
    ∧ parseAmountValue rawText ≠ [].
Proof.
  intros (c & Hin & Hc).
  destruct (exec_firstAmount (normalizeSpace rawText)) as (sign & number & Hfirst & Hexec).
  { exists c. split; [|done]. by apply normalizeSpace_keeps, digit_not_space. }
  exists sign, number. split; [done|].
  unfold parseAmountValue. rewrite Hexec.
  change (group 1 [None; Some sign; Some number]) with sign.
  change (group 2 [None; Some sign; Some number]) with number.
  rewrite replace_char_filter. split; [done|].
  destruct Hfirst as (_ & _ & d & ds & frac & _ & _ & -> & _ & _ & _ & Hd & _).
  rewrite filter_cons_True by (by apply digit_not_comma).
  intros [_ H]%app_eq_nil. discriminate H.
Qed.

Lemma parseAmountValue_nonempty_on_any_digit_witness :
  ∃ sign number,
    firstAmount (normalizeSpace (js "Parcel 12,345 of 7")) sign number
    ∧ parseAmountValue (js "Parcel 12,345 of 7")
      = sign ++ filter (fun c => c ≠ COMMA) number
    ∧ parseAmountValue (js "Parcel 12,345 of 7") ≠ [].
Proof.
  apply (parseAmountValue_nonempty_on_any_digit (js "Parcel 12,345 of 7")).
  exists 49%N. split; [|reflexivity]. vm_compute. set_solver.
Defined.

(** In unrelated text the first digit group is what comes back. *)
Example parseAmountValue_parcel_number :
  parseAmountValue (js "Parcel 12,345 of 7") = js "12345".
Proof. vm_compute. reflexivity. Qed.
